(** * Page-replacement engines (Clock, LRU, Random): model and verification

    The three engines of the simulator ([clockmmu.py], [PythonP2/lrummu.py],
    [randmmu.py]) are embedded as functions over explicit engine states.
    Python exceptions and the two unbounded [while] loops are made explicit
    in the [result] type; lists indexed by Python integers go through
    [py_get]/[py_set], dictionaries are [gmap]s. *)

From Stdlib Require Import ZArith Lia.
From stdpp Require Import gmap list fin_maps.

Set Default Proof Using "Type".

(** ** Python runtime: exceptions, list indexing, dictionaries *)

Inductive exn := IndexError | KeyError | ZeroDivisionError.

(** Outcome of a call: a value, a raised exception, or a loop that was
    still running when the iteration budget ran out. *)
Inductive result (A : Type) :=
  | Done (a : A)
  | Raise (e : exn)
  | OutOfFuel.
Arguments Done {A} a.
Arguments Raise {A} e.
Arguments OutOfFuel {A}.

#[global] Instance result_ret : MRet result := @Done.
#[global] Instance result_bind : MBind result := λ A B f r,
  match r with
  | Done a => f a
  | Raise e => Raise e
  | OutOfFuel => OutOfFuel
  end.

(** The call was refused with an exception. *)
Definition rejected {A} (r : result A) : Prop := ∃ e, r = Raise e.

(** An access of the trace: [read_memory p] or [write_memory p]. *)
Inductive access := Read (p : Z) | Write (p : Z).

Definition access_page (a : access) : Z :=
  match a with Read p => p | Write p => p end.

Definition access_is_write (a : access) : bool :=
  match a with Read _ => false | Write _ => true end.

(** [l[i]] resolves a Python index: a negative index counts from the end,
    anything outside [-len, len) is an [IndexError]. *)
Definition py_index (len : nat) (i : Z) : option nat :=
  if decide (0 ≤ i < Z.of_nat len)%Z then Some (Z.to_nat i)
  else if decide (- Z.of_nat len ≤ i < 0)%Z then Some (Z.to_nat (Z.of_nat len + i))
  else None.

Definition py_get {A} (l : list A) (i : Z) : result A :=
  match py_index (length l) i with
  | Some k => match l !! k with Some x => Done x | None => Raise IndexError end
  | None => Raise IndexError
  end.

Definition py_set {A} (l : list A) (i : Z) (x : A) : result (list A) :=
  match py_index (length l) i with
  | Some k => Done (<[k:=x]> l)
  | None => Raise IndexError
  end.

(** [del d[k]] *)
Definition py_del {V} (d : gmap Z V) (k : Z) : result (gmap Z V) :=
  match d !! k with
  | Some _ => Done (delete k d)
  | None => Raise KeyError
  end.

(** [a % b] on integers (floor modulo, the sign follows the divisor). *)
Definition py_mod (a b : Z) : result Z :=
  if decide (b = 0%Z) then Raise ZeroDivisionError else Done (a mod b)%Z.

(** [range(n)] and [[x] * n]: empty when [n <= 0]. *)
Definition py_range (n : Z) : list Z := Z.of_nat <$> seq 0 (Z.to_nat n).
Definition py_repeat {A} (x : A) (n : Z) : list A := replicate (Z.to_nat n) x.

(** Frame [i] of a frame array holds a page. *)
Definition holds {A} (l : list (option A)) (i : nat) : Prop :=
  ∃ x, l !! i = Some (Some x).

(** Number of occupied slots of a frame array ([None] marks a free frame). *)
Fixpoint occupied {A} (l : list (option A)) : nat :=
  match l with
  | [] => 0
  | Some _ :: r => S (occupied r)
  | None :: r => occupied r
  end.

(** The two coupled structures of an engine, the frame array and the
    page-to-frame dictionary, agree: the dictionary maps exactly the pages
    held by occupied frames, each to the index of its frame.  [pg] reads the
    page out of a frame's content. *)
Record consistent {A} (pg : A → Z) (fr : list (option A)) (m : gmap Z Z)
  : Prop := {
  cons_map_frame : ∀ p f, m !! p = Some f →
      ∃ i x, f = Z.of_nat i ∧ fr !! i = Some (Some x) ∧ pg x = p;
  cons_frame_map : ∀ i x, fr !! i = Some (Some x) → m !! pg x = Some (Z.of_nat i);
  cons_size : size m = occupied fr
}.

(** The list of free frames of the LRU and Random engines: frames are
    handed out in ascending order, so the free ones are always the indices
    from some [k] upwards, and the frames below [k] are occupied. *)
Definition free_shape {A} (fr : list (option A)) (free : list Z) : Prop :=
  ∃ k, k ≤ length fr ∧ free = Z.of_nat <$> seq k (length fr - k) ∧
    (∀ i, i < k → holds fr i) ∧
    (∀ i, k ≤ i < length fr → fr !! i = Some None).

(** ** Clock engine ([clockmmu.py]; [PythonP2/clockmmu.py] is the same code
    up to the wording of the debug lines, which are not modelled) *)

Module Clock.

Record state := mk {
  frames_capacity : Z;
  _page_faults : Z;
  _disk_reads : Z;
  _disk_writes : Z;
  frame_page : list (option Z);
  dirty : list bool;
  ref : list Z;
  page_to_frame : gmap Z Z;
  hand : Z
}.

Definition set_dirty (s : state) (d : list bool) : state :=
  mk (frames_capacity s) (_page_faults s) (_disk_reads s) (_disk_writes s)
     (frame_page s) d (ref s) (page_to_frame s) (hand s).
Definition set_ref (s : state) (r : list Z) : state :=
  mk (frames_capacity s) (_page_faults s) (_disk_reads s) (_disk_writes s)
     (frame_page s) (dirty s) r (page_to_frame s) (hand s).
Definition set_hand (s : state) (h : Z) : state :=
  mk (frames_capacity s) (_page_faults s) (_disk_reads s) (_disk_writes s)
     (frame_page s) (dirty s) (ref s) (page_to_frame s) h.

Definition __init__ (frames : Z) : result state :=
  Done (mk frames 0 0 0
           (py_repeat None frames) (py_repeat false frames) (py_repeat 0%Z frames)
           ∅ 0).

Definition get_total_disk_reads (s : state) : Z := _disk_reads s.
Definition get_total_disk_writes (s : state) : Z := _disk_writes s.
Definition get_total_page_faults (s : state) : Z := _page_faults s.

Fixpoint find_free_scan (idxs : list Z) (s : state) : result (option Z) :=
  match idxs with
  | [] => Done None
  | i :: rest =>
      fp ← py_get (frame_page s) i;
      match fp with
      | None => Done (Some i)
      | Some _ => find_free_scan rest s
      end
  end.

Definition _find_free_frame (s : state) : result (option Z) :=
  find_free_scan (py_range (frames_capacity s)) s.

Definition _install (frame_idx page : Z) (is_write : bool) (s : state)
  : result state :=
  fp ← py_set (frame_page s) frame_idx (Some page);
  let ptf := <[page := frame_idx]> (page_to_frame s) in
  d ← py_set (dirty s) frame_idx is_write;
  r ← py_set (ref s) frame_idx 1%Z;
  Done (mk (frames_capacity s) (_page_faults s) (_disk_reads s) (_disk_writes s)
           fp d r ptf (hand s)).

Definition _advance_hand (s : state) : result state :=
  h ← py_mod (hand s + 1) (frames_capacity s);
  Done (set_hand s h).

(** The [while True] sweep.  One unit of [fuel] is one inspection of the
    frame under the hand; the third component of the result counts the
    inspections made. *)
Fixpoint evict_sweep (fuel : nat) (s : state) : result (Z * state * nat) :=
  match fuel with
  | O => OutOfFuel
  | S fuel' =>
      fp ← py_get (frame_page s) (hand s);
      match fp with
      | Some _ =>
          r ← py_get (ref s) (hand s);
          if decide (r = 0%Z) then
            let victim_frame := hand s in
            vp ← py_get (frame_page s) victim_frame;
            d ← py_get (dirty s) victim_frame;
            let dw := if (d : bool) then (_disk_writes s + 1)%Z else _disk_writes s in
            ptf ← (match vp with
                   | Some victim_page => py_del (page_to_frame s) victim_page
                   | None => Raise KeyError
                   end);
            fp' ← py_set (frame_page s) victim_frame None;
            d' ← py_set (dirty s) victim_frame false;
            s' ← _advance_hand
                   (mk (frames_capacity s) (_page_faults s) (_disk_reads s) dw
                       fp' d' (ref s) ptf (hand s));
            Done (victim_frame, s', 1)
          else
            r' ← py_set (ref s) (hand s) 0%Z;
            s' ← _advance_hand (set_ref s r');
            '(v, s'', n) ← evict_sweep fuel' s';
            Done (v, s'', S n)
      | None =>
          s' ← _advance_hand s;
          '(v, s'', n) ← evict_sweep fuel' s';
          Done (v, s'', S n)
      end
  end.

Definition _evict_clock (fuel : nat) (s : state) : result (Z * state) :=
  '(v, s', _) ← evict_sweep fuel s;
  Done (v, s').

(** [self._page_faults += 1; self._disk_reads += 1] *)
Definition count_fault (s : state) : state :=
  mk (frames_capacity s) (_page_faults s + 1) (_disk_reads s + 1)
     (_disk_writes s) (frame_page s) (dirty s) (ref s) (page_to_frame s) (hand s).

Definition _access (fuel : nat) (page : Z) (is_write : bool) (s : state)
  : result state :=
  match page_to_frame s !! page with
  | Some frame =>
      d ← (if is_write then py_set (dirty s) frame true else Done (dirty s));
      r ← py_set (ref s) frame 1%Z;
      Done (set_ref (set_dirty s d) r)
  | None =>
      let s1 := count_fault s in
      free_idx ← _find_free_frame s1;
      match free_idx with
      | Some i => _install i page is_write s1
      | None =>
          '(victim_idx, s2) ← _evict_clock fuel s1;
          _install victim_idx page is_write s2
      end
  end.

Definition read_memory (fuel : nat) (page_number : Z) (s : state) : result state :=
  _access fuel page_number false s.

Definition write_memory (fuel : nat) (page_number : Z) (s : state) : result state :=
  _access fuel page_number true s.

Definition step (fuel : nat) (a : access) (s : state) : result state :=
  match a with
  | Read p => read_memory fuel p s
  | Write p => write_memory fuel p s
  end.

(** Feeding a whole trace to an engine, as the external driver does. *)
Fixpoint run (fuel : nat) (trace : list access) (s : state) : result state :=
  match trace with
  | [] => Done s
  | a :: rest => s' ← step fuel a s; run fuel rest s'
  end.

Definition exec (fuel : nat) (frames : Z) (trace : list access) : result state :=
  s ← __init__ frames; run fuel trace s.

(** Representation invariant of the engine between two calls. *)
Record Inv (s : state) : Prop := {
  inv_cap : (1 ≤ frames_capacity s)%Z;
  inv_len_fp : length (frame_page s) = Z.to_nat (frames_capacity s);
  inv_len_dirty : length (dirty s) = Z.to_nat (frames_capacity s);
  inv_len_ref : length (ref s) = Z.to_nat (frames_capacity s);
  inv_hand : (0 ≤ hand s < frames_capacity s)%Z;
  inv_book : consistent id (frame_page s) (page_to_frame s);
  inv_reads : _disk_reads s = _page_faults s
}.

(** What a hit on the page held by frame [i] does to the engine. *)
Record hit_effect (s : state) (i : nat) (is_write : bool) (s' : state)
  : Prop := {
  hit_cap : frames_capacity s' = frames_capacity s;
  hit_faults : _page_faults s' = _page_faults s;
  hit_reads : _disk_reads s' = _disk_reads s;
  hit_writes : _disk_writes s' = _disk_writes s;
  hit_frames : frame_page s' = frame_page s;
  hit_map : page_to_frame s' = page_to_frame s;
  hit_hand : hand s' = hand s;
  hit_dirty : dirty s' = if is_write then <[i:=true]> (dirty s) else dirty s;
  hit_ref : ref s' = <[i:=1%Z]> (ref s)
}.

(** Every frame holds a page. *)
Definition full (s : state) : Prop :=
  ∀ i, i < length (frame_page s) → ∃ p, frame_page s !! i = Some (Some p).

(** Number of frames whose reference bit is not 0. *)
Fixpoint referenced (r : list Z) : nat :=
  match r with
  | [] => 0
  | x :: r' => if decide (x = 0%Z) then referenced r' else S (referenced r')
  end.

(** What [_evict_clock] leaves behind when it evicts page [p] from frame
    [v] of state [s]. *)
Record evicted (s : state) (v : nat) (p : Z) (s' : state) : Prop := {
  ev_cap : frames_capacity s' = frames_capacity s;
  ev_faults : _page_faults s' = _page_faults s;
  ev_reads : _disk_reads s' = _disk_reads s;
  ev_writes : _disk_writes s' =
      if decide (dirty s !! v = Some true) then (_disk_writes s + 1)%Z
      else _disk_writes s;
  ev_fp : frame_page s' = <[v := None]> (frame_page s);
  ev_dirty : dirty s' = <[v := false]> (dirty s);
  ev_ref_len : length (ref s') = length (ref s);
  ev_ref : ref s' !! v = Some 0%Z;
  ev_map : page_to_frame s' = delete p (page_to_frame s);
  ev_hand : (0 ≤ hand s' < frames_capacity s)%Z
}.

End Clock.

(** ** LRU engine ([PythonP2/lrummu.py]) *)

Module Lru.

(** [oldest_time] starts at [float('inf')], which every integer stamp is
    below. *)
Inductive bound := Inf | Fin (t : Z).

Definition below (t : Z) (b : bound) : bool :=
  match b with
  | Inf => true
  | Fin o => bool_decide (t < o)%Z
  end.

Record state := mk {
  frames : Z;
  page_table : gmap Z Z;
  frame_table : list (option Z);
  dirty_bits : list bool;
  access_time : list Z;
  free_frames : list Z;
  current_time : Z;
  disk_reads : Z;
  disk_writes : Z;
  page_faults : Z
}.

Definition __init__ (frames : Z) : result state :=
  Done (mk frames ∅ (py_repeat None frames) (py_repeat false frames)
           (py_repeat 0%Z frames) (py_range frames) 0 0 0 0).

Definition get_total_disk_reads (s : state) : Z := disk_reads s.
Definition get_total_disk_writes (s : state) : Z := disk_writes s.
Definition get_total_page_faults (s : state) : Z := page_faults s.

(** The [for frame_index in range(self.frames)] scan with its two
    accumulators. *)
Fixpoint lru_scan (idxs : list Z) (oldest_time : bound) (lru_frame_index : Z)
    (s : state) : result Z :=
  match idxs with
  | [] => Done lru_frame_index
  | frame_index :: rest =>
      fp ← py_get (frame_table s) frame_index;
      match fp with
      | Some _ =>
          t ← py_get (access_time s) frame_index;
          if below t oldest_time
          then lru_scan rest (Fin t) frame_index s
          else lru_scan rest oldest_time lru_frame_index s
      | None => lru_scan rest oldest_time lru_frame_index s
      end
  end.

Definition _find_lru_victim (s : state) : result Z :=
  lru_scan (py_range (frames s)) Inf 0 s.

(** [self.page_faults += 1; self.disk_reads += 1; self.current_time += 1] *)
Definition count_fault (s : state) : state :=
  mk (frames s) (page_table s) (frame_table s) (dirty_bits s) (access_time s)
     (free_frames s) (current_time s + 1) (disk_reads s + 1) (disk_writes s)
     (page_faults s + 1).

Definition _handle_page_fault (page_number : Z) (is_write : bool) (s : state)
  : result state :=
  let s := count_fault s in
  '(frame_index, free, dw, pt) ←
    match free_frames s with
    | i :: rest => Done (i, rest, disk_writes s, page_table s)
    | [] =>
        frame_index ← _find_lru_victim s;
        old_page ← py_get (frame_table s) frame_index;
        d ← py_get (dirty_bits s) frame_index;
        let dw := if (d : bool) then (disk_writes s + 1)%Z else disk_writes s in
        pt ← match old_page with
             | Some p => py_del (page_table s) p
             | None => Raise KeyError
             end;
        Done (frame_index, [], dw, pt)
    end;
  ft ← py_set (frame_table s) frame_index (Some page_number);
  let pt' := <[page_number := frame_index]> pt in
  db ← py_set (dirty_bits s) frame_index is_write;
  at' ← py_set (access_time s) frame_index (current_time s);
  Done (mk (frames s) pt' ft db at' free (current_time s) (disk_reads s) dw
           (page_faults s)).

(** [self.current_time += 1], the first statement of both access methods. *)
Definition tick (s : state) : state :=
  mk (frames s) (page_table s) (frame_table s) (dirty_bits s) (access_time s)
     (free_frames s) (current_time s + 1) (disk_reads s) (disk_writes s)
     (page_faults s).

Definition read_memory (page_number : Z) (s : state) : result state :=
  let s := tick s in
  match page_table s !! page_number with
  | Some frame_index =>
      at' ← py_set (access_time s) frame_index (current_time s);
      Done (mk (frames s) (page_table s) (frame_table s) (dirty_bits s) at'
               (free_frames s) (current_time s) (disk_reads s) (disk_writes s)
               (page_faults s))
  | None => _handle_page_fault page_number false s
  end.

Definition write_memory (page_number : Z) (s : state) : result state :=
  let s := tick s in
  match page_table s !! page_number with
  | Some frame_index =>
      db ← py_set (dirty_bits s) frame_index true;
      at' ← py_set (access_time s) frame_index (current_time s);
      Done (mk (frames s) (page_table s) (frame_table s) db at'
               (free_frames s) (current_time s) (disk_reads s) (disk_writes s)
               (page_faults s))
  | None => _handle_page_fault page_number true s
  end.

Definition access_memory (page_number : Z) (is_write : bool) (s : state)
  : result state :=
  if is_write then write_memory page_number s else read_memory page_number s.

Definition step (a : access) (s : state) : result state :=
  match a with
  | Read p => read_memory p s
  | Write p => write_memory p s
  end.

Fixpoint run (trace : list access) (s : state) : result state :=
  match trace with
  | [] => Done s
  | a :: rest => s' ← step a s; run rest s'
  end.

Definition exec (frames : Z) (trace : list access) : result state :=
  s ← __init__ frames; run trace s.

Record Inv (s : state) : Prop := {
  inv_cap : (1 ≤ frames s)%Z;
  inv_len_ft : length (frame_table s) = Z.to_nat (frames s);
  inv_len_db : length (dirty_bits s) = Z.to_nat (frames s);
  inv_len_at : length (access_time s) = Z.to_nat (frames s);
  inv_book : consistent id (frame_table s) (page_table s);
  inv_free : free_shape (frame_table s) (free_frames s);
  inv_reads : disk_reads s = page_faults s
}.

(** What a hit on the page held by frame [i] does to the engine. *)
Record hit_effect (s : state) (i : nat) (is_write : bool) (s' : state)
  : Prop := {
  hit_cap : frames s' = frames s;
  hit_faults : page_faults s' = page_faults s;
  hit_reads : disk_reads s' = disk_reads s;
  hit_writes : disk_writes s' = disk_writes s;
  hit_frames : frame_table s' = frame_table s;
  hit_map : page_table s' = page_table s;
  hit_free : free_frames s' = free_frames s;
  hit_dirty : dirty_bits s' =
      if is_write then <[i:=true]> (dirty_bits s) else dirty_bits s;
  hit_clock : current_time s' = (current_time s + 1)%Z;
  hit_stamp : access_time s' = <[i:=(current_time s + 1)%Z]> (access_time s)
}.

(** Frame [j] is the least recently used one of [s]: it is occupied, no
    occupied frame has a smaller stamp, and every occupied frame with the
    same stamp has a higher index. *)
Record least_recent (s : state) (j : nat) : Prop := {
  lr_occupied : holds (frame_table s) j;
  lr_stamp : ∃ tj, access_time s !! j = Some tj ∧
      ∀ i t, holds (frame_table s) i → access_time s !! i = Some t →
        (tj ≤ t)%Z ∧ (t = tj → j ≤ i)
}.

End Lru.

(** ** Random engine ([randmmu.py]) *)

Module Rand.

(** A frame entry, the dictionary [{"page": _, "dirty": _}]. *)
Record entry := Entry { page : Z; is_dirty : bool }.

(** The state of the engine, together with the position reached in the
    stream of numbers that the [random] module hands out. *)
Record state := mk {
  num_frames : Z;
  frames : list (option entry);
  page_to_frame : gmap Z Z;
  _disk_reads : Z;
  _disk_writes : Z;
  _page_faults : Z;
  _free : list Z;
  rng_pos : nat
}.

Definition __init__ (frames : Z) : result state :=
  Done (mk frames (py_repeat None frames) ∅ 0 0 0 (py_range frames) 0).

Definition get_total_disk_reads (s : state) : Z := _disk_reads s.
Definition get_total_disk_writes (s : state) : Z := _disk_writes s.
Definition get_total_page_faults (s : state) : Z := _page_faults s.

Section WithRandomSource.

(** The random source: an arbitrary infinite sequence of integers.
    [random.randrange(0, n)] takes the next one, reduced into [0, n). *)
Variable rng : nat → Z.

Definition randrange (n : Z) (s : state) : Z * state :=
  ((rng (rng_pos s) mod n)%Z,
   mk (num_frames s) (frames s) (page_to_frame s) (_disk_reads s)
      (_disk_writes s) (_page_faults s) (_free s) (S (rng_pos s))).

(** [while self.frames[idx] is None: idx = random.randrange(...)]; one unit
    of fuel per evaluation of the loop condition. *)
Fixpoint choose_loop (fuel : nat) (idx : Z) (s : state) : result (Z * state) :=
  match fuel with
  | O => OutOfFuel
  | S fuel' =>
      e ← py_get (frames s) idx;
      match e with
      | Some _ => Done (idx, s)
      | None =>
          let '(idx', s') := randrange (num_frames s) s in
          choose_loop fuel' idx' s'
      end
  end.

Definition _choose_victim (fuel : nat) (s : state) : result (Z * state) :=
  if decide (num_frames s ≤ 1)%Z then Done (0%Z, s)
  else
    let '(idx, s') := randrange (num_frames s) s in
    choose_loop fuel idx s'.

Definition _evict (idx : Z) (s : state) : result state :=
  e ← py_get (frames s) idx;
  match e with
  | None => Done s
  | Some en =>
      let dw := if is_dirty en then (_disk_writes s + 1)%Z else _disk_writes s in
      let old_page := page en in
      let ptf := match page_to_frame s !! old_page with
                 | Some _ => delete old_page (page_to_frame s)
                 | None => page_to_frame s
                 end in
      fr ← py_set (frames s) idx None;
      Done (mk (num_frames s) fr ptf (_disk_reads s) dw (_page_faults s)
               (_free s) (rng_pos s))
  end.

(** [self._page_faults += 1] *)
Definition count_fault (s : state) : state :=
  mk (num_frames s) (frames s) (page_to_frame s) (_disk_reads s)
     (_disk_writes s) (_page_faults s + 1) (_free s) (rng_pos s).

Definition _access (fuel : nat) (pg : Z) (is_write : bool) (s : state)
  : result state :=
  match page_to_frame s !! pg with
  | Some idx =>
      e ← py_get (frames s) idx;
      match e with
      | Some en =>
          fr ← py_set (frames s) idx
                 (Some (Entry (page en) (if is_write then true else is_dirty en)));
          Done (mk (num_frames s) fr (page_to_frame s) (_disk_reads s)
                   (_disk_writes s) (_page_faults s) (_free s) (rng_pos s))
      | None => Done s
      end
  | None =>
      let s1 := count_fault s in
      '(idx, s2) ←
        match _free s1 with
        | i :: rest =>
            Done (i, mk (num_frames s1) (frames s1) (page_to_frame s1)
                        (_disk_reads s1) (_disk_writes s1) (_page_faults s1)
                        rest (rng_pos s1))
        | [] =>
            '(idx, s') ← _choose_victim fuel s1;
            s'' ← _evict idx s';
            Done (idx, s'')
        end;
      fr ← py_set (frames s2) idx (Some (Entry pg is_write));
      let ptf := <[pg := idx]> (page_to_frame s2) in
      fr' ← (if is_write then
               e ← py_get fr idx;
               match e with
               | Some en => py_set fr idx (Some (Entry (page en) true))
               | None => Done fr
               end
             else Done fr);
      Done (mk (num_frames s2) fr' ptf (_disk_reads s2 + 1) (_disk_writes s2)
               (_page_faults s2) (_free s2) (rng_pos s2))
  end.

Definition read_memory (fuel : nat) (page_number : Z) (s : state) : result state :=
  _access fuel page_number false s.

Definition write_memory (fuel : nat) (page_number : Z) (s : state) : result state :=
  _access fuel page_number true s.

Definition step (fuel : nat) (a : access) (s : state) : result state :=
  match a with
  | Read p => read_memory fuel p s
  | Write p => write_memory fuel p s
  end.

Fixpoint run (fuel : nat) (trace : list access) (s : state) : result state :=
  match trace with
  | [] => Done s
  | a :: rest => s' ← step fuel a s; run fuel rest s'
  end.

Definition exec (fuel : nat) (frames : Z) (trace : list access) : result state :=
  s ← __init__ frames; run fuel trace s.

End WithRandomSource.

Record Inv (s : state) : Prop := {
  inv_cap : (1 ≤ num_frames s)%Z;
  inv_len : length (frames s) = Z.to_nat (num_frames s);
  inv_book : consistent page (frames s) (page_to_frame s);
  inv_free : free_shape (frames s) (_free s);
  inv_reads : _disk_reads s = _page_faults s
}.

(** What a hit on the page held by frame [i] does to the engine: only the
    dirty flag of the entry in frame [i] can change. *)
Record hit_effect (s : state) (i : nat) (is_write : bool) (s' : state)
  : Prop := {
  hit_cap : num_frames s' = num_frames s;
  hit_faults : _page_faults s' = _page_faults s;
  hit_reads : _disk_reads s' = _disk_reads s;
  hit_writes : _disk_writes s' = _disk_writes s;
  hit_map : page_to_frame s' = page_to_frame s;
  hit_free : _free s' = _free s;
  hit_rng : rng_pos s' = rng_pos s;
  hit_frames : ∃ en, frames s !! i = Some (Some en) ∧
      frames s' =
        <[i:=Some (Entry (page en) (if is_write then true else is_dirty en))]>
          (frames s)
}.

End Rand.

(** ** What the three engines have in common

    Seen from outside, an engine is an array of frames, each free or holding
    a page with its dirty flag, and three counters.  [vstep] lists the three
    ways an access can change that view, leaving open which free frame is
    filled and which frame is evicted: that choice is the policy. *)

Module View.

Record view := mk {
  frames : list (option (Z * bool));
  faults : Z;
  reads : Z;
  writes : Z
}.

Definition initial (n : nat) : view := mk (replicate n None) 0 0 0.

Definition resident (v : view) (page : Z) : Prop :=
  ∃ i d, frames v !! i = Some (Some (page, d)).

Inductive vstep (page : Z) (w : bool) (a : view) : view → Prop :=
  | vstep_hit i d :
      frames a !! i = Some (Some (page, d)) →
      vstep page w a
        (mk (<[i:=Some (page, d || w)]> (frames a)) (faults a) (reads a) (writes a))
  | vstep_fill i :
      ¬ resident a page →
      frames a !! i = Some None →
      vstep page w a
        (mk (<[i:=Some (page, w)]> (frames a)) (faults a + 1) (reads a + 1)
            (writes a))
  | vstep_evict i p (d : bool) :
      ¬ resident a page →
      (∀ j, j < length (frames a) → holds (frames a) j) →
      frames a !! i = Some (Some (p, d)) →
      vstep page w a
        (mk (<[i:=Some (page, w)]> (frames a)) (faults a + 1) (reads a + 1)
            (if d then (writes a + 1)%Z else writes a)).

(** The views that a trace can lead to, from [n] free frames. *)
Inductive reach (n : nat) : list access → view → Prop :=
  | reach_nil : reach n [] (initial n)
  | reach_snoc tr a v v' :
      reach n tr v →
      vstep (access_page a) (access_is_write a) v v' →
      reach n (tr ++ [a]) v'.

(** Number of frames that hold a dirty page. *)
Fixpoint dirty_count (l : list (option (Z * bool))) : nat :=
  match l with
  | [] => 0
  | Some (_, true) :: r => S (dirty_count r)
  | _ :: r => dirty_count r
  end.

(** Number of write accesses of a trace, and the pages it touches. *)
Fixpoint writes_in (tr : list access) : nat :=
  match tr with
  | [] => 0
  | Write _ :: r => S (writes_in r)
  | Read _ :: r => writes_in r
  end.

Definition pages_of (tr : list access) : gset Z := list_to_set (access_page <$> tr).

(** The frames of an engine that keeps pages and dirty flags in two
    parallel arrays. *)
Definition zip_frames (pages : list (option Z)) (dirty : list bool)
  : list (option (Z * bool)) :=
  zip_with (λ o d, (λ p, (p, d)) <$> o) pages dirty.

(** What one frame adds to [dirty_count] and to [occupied]. *)
Definition flag (o : option (Z * bool)) : nat :=
  match o with Some (_, true) => 1 | _ => 0 end.

Definition used (o : option (Z * bool)) : nat :=
  match o with Some _ => 1 | None => 0 end.

End View.

(** ** Reference descriptions of what the engines compute *)

Module ClockRef.
Import Clock.

(** Going round from frame [h], the number of frames met with their
    reference bit set before the first one whose bit is 0, looking at no more
    than [n] frames of an array of [cap]. *)
Fixpoint set_run (n cap h : nat) (r : list Z) : nat :=
  match n with
  | O => 0
  | S n' =>
      match r !! (h mod cap) with
      | Some x => if decide (x = 0%Z) then 0 else S (set_run n' cap (S h) r)
      | None => 0
      end
  end.

(** The reference bits after the bits of the [m] frames from [h] on have
    been cleared. *)
Fixpoint clear_run (m cap h : nat) (r : list Z) : list Z :=
  match m with
  | O => r
  | S m' => clear_run m' cap (S h) (<[h mod cap := 0%Z]> r)
  end.

(** The frame that a sweep started in [s] evicts: the first one, going
    round from the hand, whose reference bit is 0, and the frame under the
    hand itself when every bit is set. *)
Definition victim_of (s : state) : nat :=
  let cap := Z.to_nat (frames_capacity s) in
  let h := Z.to_nat (hand s) in
  (h + set_run cap cap h (ref s)) mod cap.

(** What the sweep returns, from the state it starts in: the victim, the
    state after the eviction and the number of frames inspected. *)
Definition sweep_result (s : state) : option (Z * state * nat) :=
  let cap := Z.to_nat (frames_capacity s) in
  let h := Z.to_nat (hand s) in
  let m := set_run cap cap h (ref s) in
  let v := victim_of s in
  match frame_page s !! v, dirty s !! v with
  | Some (Some p), Some d =>
      Some (Z.of_nat v,
            mk (frames_capacity s) (_page_faults s) (_disk_reads s)
               (if (d : bool) then (_disk_writes s + 1)%Z else _disk_writes s)
               (<[v:=None]> (frame_page s)) (<[v:=false]> (dirty s))
               (clear_run m cap h (ref s)) (delete p (page_to_frame s))
               ((Z.of_nat v + 1) mod frames_capacity s)%Z,
            S m)
  | _, _ => None
  end.

(** The three things an access can be: a hit on frame [i]; a fault that
    fills the lowest free frame [i]; a fault that evicts page [p] from the
    frame that the sweep chooses.  In each case [s'] is the state after the
    access. *)
Inductive effect (s : state) (page : Z) (w : bool) (s' : state) : Prop :=
  | effect_hit i :
      page_to_frame s !! page = Some (Z.of_nat i) →
      frame_page s !! i = Some (Some page) →
      hit_effect s i w s' →
      effect s page w s'
  | effect_fill i :
      page_to_frame s !! page = None →
      frame_page s !! i = Some None →
      (∀ j, j < i → holds (frame_page s) j) →
      s' = mk (frames_capacity s) (_page_faults s + 1) (_disk_reads s + 1)
              (_disk_writes s)
              (<[i:=Some page]> (frame_page s)) (<[i:=w]> (dirty s))
              (<[i:=1%Z]> (ref s)) (<[page:=Z.of_nat i]> (page_to_frame s))
              (hand s) →
      effect s page w s'
  | effect_evict p (d : bool) :
      page_to_frame s !! page = None →
      full s →
      frame_page s !! victim_of s = Some (Some p) →
      dirty s !! victim_of s = Some d →
      s' = mk (frames_capacity s) (_page_faults s + 1) (_disk_reads s + 1)
              (if d then (_disk_writes s + 1)%Z else _disk_writes s)
              (<[victim_of s:=Some page]> (frame_page s))
              (<[victim_of s:=w]> (dirty s))
              (<[victim_of s:=1%Z]>
                 (clear_run
                    (set_run (Z.to_nat (frames_capacity s))
                       (Z.to_nat (frames_capacity s)) (Z.to_nat (hand s)) (ref s))
                    (Z.to_nat (frames_capacity s)) (Z.to_nat (hand s)) (ref s)))
              (<[page:=Z.of_nat (victim_of s)]> (delete p (page_to_frame s)))
              ((Z.of_nat (victim_of s) + 1) mod frames_capacity s)%Z →
      effect s page w s'.

(** The engine as [View] sees it. *)
Definition view_of (s : state) : View.view :=
  View.mk (View.zip_frames (frame_page s) (dirty s))
          (_page_faults s) (_disk_reads s) (_disk_writes s).

End ClockRef.

Module LruRef.
Import Lru.

(** The three things an access can be: a hit on frame [i]; a fault that
    takes the first frame [i] of the free list; a fault that evicts page [p]
    from the least recently used frame [j]. *)
Inductive effect (s : state) (page : Z) (w : bool) (s' : state) : Prop :=
  | effect_hit i :
      page_table s !! page = Some (Z.of_nat i) →
      frame_table s !! i = Some (Some page) →
      hit_effect s i w s' →
      effect s page w s'
  | effect_fill i rest :
      page_table s !! page = None →
      free_frames s = Z.of_nat i :: rest →
      frame_table s !! i = Some None →
      s' = mk (frames s) (<[page:=Z.of_nat i]> (page_table s))
              (<[i:=Some page]> (frame_table s)) (<[i:=w]> (dirty_bits s))
              (<[i:=(current_time s + 2)%Z]> (access_time s)) rest
              (current_time s + 2) (disk_reads s + 1) (disk_writes s)
              (page_faults s + 1) →
      effect s page w s'
  | effect_evict j p (d : bool) :
      page_table s !! page = None →
      free_frames s = [] →
      least_recent s j →
      frame_table s !! j = Some (Some p) →
      dirty_bits s !! j = Some d →
      s' = mk (frames s) (<[page:=Z.of_nat j]> (delete p (page_table s)))
              (<[j:=Some page]> (frame_table s)) (<[j:=w]> (dirty_bits s))
              (<[j:=(current_time s + 2)%Z]> (access_time s)) []
              (current_time s + 2) (disk_reads s + 1)
              (if d then (disk_writes s + 1)%Z else disk_writes s)
              (page_faults s + 1) →
      effect s page w s'.

Definition view_of (s : state) : View.view :=
  View.mk (View.zip_frames (frame_table s) (dirty_bits s))
          (page_faults s) (disk_reads s) (disk_writes s).

(** The stamps of the occupied frames lie between 1 and the clock and are
    pairwise different. *)
Record stamped (s : state) : Prop := {
  st_clock : (0 ≤ current_time s)%Z;
  st_bounds : ∀ i p t, frame_table s !! i = Some (Some p) →
      access_time s !! i = Some t → (1 ≤ t ≤ current_time s)%Z;
  st_distinct : ∀ i j p q t, frame_table s !! i = Some (Some p) →
      frame_table s !! j = Some (Some q) →
      access_time s !! i = Some t → access_time s !! j = Some t → i = j
}.

(** [page] is in a frame stamped with the current value of the clock. *)
Definition recent (s : state) (page : Z) : Prop :=
  ∃ i, frame_table s !! i = Some (Some page) ∧
    access_time s !! i = Some (current_time s).

End LruRef.

Module RandRef.
Import Rand.

(** The frame that a fault with no free frame evicts, and the position in
    the random stream afterwards: frame 0 without a draw when there is one
    frame, the first draw otherwise. *)
Definition victim_of (rng : nat → Z) (s : state) : nat * nat :=
  if decide (num_frames s ≤ 1)%Z then (0, rng_pos s)
  else (Z.to_nat (rng (rng_pos s) mod num_frames s), S (rng_pos s)).

(** The three things an access can be: a hit on frame [i]; a fault that
    takes the first frame [i] of the free list; a fault that evicts the
    entry [en] of the frame given by [victim_of]. *)
Inductive effect (rng : nat → Z) (s : state) (pg : Z) (w : bool) (s' : state)
  : Prop :=
  | effect_hit i en :
      page_to_frame s !! pg = Some (Z.of_nat i) →
      frames s !! i = Some (Some en) →
      page en = pg →
      hit_effect s i w s' →
      effect rng s pg w s'
  | effect_fill i rest :
      page_to_frame s !! pg = None →
      _free s = Z.of_nat i :: rest →
      frames s !! i = Some None →
      s' = mk (num_frames s) (<[i:=Some (Entry pg w)]> (frames s))
              (<[pg:=Z.of_nat i]> (page_to_frame s)) (_disk_reads s + 1)
              (_disk_writes s) (_page_faults s + 1) rest (rng_pos s) →
      effect rng s pg w s'
  | effect_evict en :
      page_to_frame s !! pg = None →
      _free s = [] →
      frames s !! (victim_of rng s).1 = Some (Some en) →
      s' = mk (num_frames s)
              (<[(victim_of rng s).1:=Some (Entry pg w)]> (frames s))
              (<[pg:=Z.of_nat (victim_of rng s).1]>
                 (delete (page en) (page_to_frame s)))
              (_disk_reads s + 1)
              (if is_dirty en then (_disk_writes s + 1)%Z else _disk_writes s)
              (_page_faults s + 1) [] (victim_of rng s).2 →
      effect rng s pg w s'.

Definition view_of (s : state) : View.view :=
  View.mk ((λ o : option entry, (λ en, (page en, is_dirty en)) <$> o) <$> frames s)
          (_page_faults s) (_disk_reads s) (_disk_writes s).

End RandRef.

(** * Facts about the Python runtime model *)

Section Runtime.
Context {A : Type}.
Implicit Types (l : list A) (i k : nat).

Lemma py_index_nat len k : k < len → py_index len (Z.of_nat k) = Some k.
Proof.
  intros Hk. unfold py_index.
  rewrite decide_True by lia. by rewrite Nat2Z.id.
Qed.

Lemma py_index_nil z : py_index 0 z = None.
Proof. unfold py_index. repeat case_decide; (done || lia). Qed.

Lemma py_get_nat l k x : l !! k = Some x → py_get l (Z.of_nat k) = Done x.
Proof.
  intros Hx. unfold py_get.
  rewrite py_index_nat by (by eapply lookup_lt_Some). by rewrite Hx.
Qed.

Lemma py_set_nat l k x : k < length l → py_set l (Z.of_nat k) x = Done (<[k:=x]> l).
Proof. intros Hk. unfold py_set. by rewrite py_index_nat. Qed.

Lemma py_get_nil z : py_get (@nil A) z = Raise IndexError.
Proof. unfold py_get. simpl. by rewrite py_index_nil. Qed.

End Runtime.

Lemma py_mod_pos a b : (1 ≤ b)%Z → py_mod a b = Done (a mod b)%Z.
Proof. intros Hb. unfold py_mod. rewrite decide_False by lia. done. Qed.

Lemma py_range_nonpos n : (n ≤ 0)%Z → py_range n = [].
Proof. intros Hn. unfold py_range. by replace (Z.to_nat n) with 0 by lia. Qed.

Lemma py_repeat_nonpos {A} (x : A) n : (n ≤ 0)%Z → py_repeat x n = [].
Proof. intros Hn. unfold py_repeat. by replace (Z.to_nat n) with 0 by lia. Qed.

Lemma py_repeat_length {A} (x : A) n : length (py_repeat x n) = Z.to_nat n.
Proof. apply length_replicate. Qed.

(** ** Counting occupied frames *)

Section Occupied.
Context {A : Type}.
Implicit Types (l : list (option A)).

Lemma occupied_le_length l : occupied l ≤ length l.
Proof. induction l as [|[x|] l IH]; simpl; lia. Qed.

Lemma occupied_replicate_None n : occupied (replicate n (@None A)) = 0.
Proof. induction n; simpl; done. Qed.

Lemma occupied_insert_free l i x :
  l !! i = Some None → occupied (<[i:=Some x]> l) = S (occupied l).
Proof.
  revert i. induction l as [|[y|] l IH]; intros [|i]; simpl; try done.
  - intros H. by rewrite IH.
  - intros H. by apply IH.
Qed.

Lemma occupied_insert_same l i x y :
  l !! i = Some (Some y) → occupied (<[i:=Some x]> l) = occupied l.
Proof.
  revert i. induction l as [|[z|] l IH]; intros [|i]; simpl; try done.
  - intros H. by rewrite (IH i).
  - intros H. by apply IH.
Qed.

Lemma occupied_clear l i y :
  l !! i = Some (Some y) → S (occupied (<[i:=None]> l)) = occupied l.
Proof.
  revert i. induction l as [|[z|] l IH]; intros [|i]; simpl; try done.
  - intros H. by rewrite (IH i).
  - intros H. by apply IH.
Qed.

Lemma holds_insert l i j x : i < length l → holds l j → holds (<[i:=Some x]> l) j.
Proof.
  intros Hi [y Hy]. destruct (decide (i = j)) as [<-|Hne].
  - exists x. by rewrite list_lookup_insert_eq.
  - exists y. by rewrite list_lookup_insert_ne.
Qed.

Lemma occupied_mono {B} l (l' : list (option B)) :
  length l = length l' → (∀ i, holds l i → holds l' i) →
  occupied l ≤ occupied l'.
Proof.
  revert l'. induction l as [|o l IH]; intros [|o' l'] Hlen Hall; simpl in *;
    try lia.
  assert (occupied l ≤ occupied l') as Hle.
  { apply IH; [lia|]. intros i Hi. apply (Hall (S i) Hi). }
  destruct o as [x|]; [|destruct o'; lia].
  destruct (Hall 0) as [y Hy]; [by exists x|]. simpl in Hy.
  injection Hy as ->. lia.
Qed.

Lemma occupied_step l l' n :
  length l = n → length l' = n → (∀ i, holds l i → holds l' i) →
  occupied l ≤ occupied l' ∧ (occupied l = n → occupied l' = n).
Proof.
  intros Hl Hl' Hall.
  pose proof (occupied_mono l l' ltac:(congruence) Hall).
  pose proof (occupied_le_length l'). split; lia.
Qed.

End Occupied.

(** ** Keeping the frame array and the dictionary consistent *)

Section Bookkeeping.
Context {A : Type} (pg : A → Z).
Implicit Types (fr : list (option A)) (m : gmap Z Z).

Lemma consistent_init n : consistent pg (replicate n None) ∅.
Proof.
  split.
  - intros p f. by rewrite lookup_empty.
  - intros i x. by intros [[=] _]%lookup_replicate.
  - by rewrite occupied_replicate_None, map_size_empty.
Qed.

(** Installing into a free frame. *)
Lemma consistent_install_free fr m i x :
  consistent pg fr m → m !! pg x = None → fr !! i = Some None →
  consistent pg (<[i:=Some x]> fr) (<[pg x := Z.of_nat i]> m).
Proof.
  intros [Hmf Hfm Hsz] Hfresh Hfree.
  assert (i < length fr) as Hi by (by eapply lookup_lt_Some).
  split.
  - intros p f. destruct (decide (pg x = p)) as [<-|Hne].
    + rewrite lookup_insert_eq. intros [= <-]. exists i, x.
      by rewrite list_lookup_insert_eq.
    + rewrite lookup_insert_ne by done. intros Hp.
      destruct (Hmf _ _ Hp) as (j & y & -> & Hj & Hy).
      exists j, y. rewrite list_lookup_insert_ne; [done|congruence].
  - intros j y. destruct (decide (i = j)) as [<-|Hne].
    + rewrite list_lookup_insert_eq by done. intros [= <-].
      by rewrite lookup_insert_eq.
    + rewrite list_lookup_insert_ne by done. intros Hj.
      pose proof (Hfm _ _ Hj) as Hy.
      rewrite lookup_insert_ne; [done|congruence].
  - rewrite map_size_insert_None by done.
    by rewrite (occupied_insert_free _ _ _ Hfree), Hsz.
Qed.

(** Evicting the content [y] of frame [v] and installing [x] there. *)
Lemma consistent_replace fr m v x y :
  consistent pg fr m → fr !! v = Some (Some y) → m !! pg x = None →
  consistent pg (<[v:=Some x]> fr) (<[pg x := Z.of_nat v]> (delete (pg y) m)).
Proof.
  intros [Hmf Hfm Hsz] Hv Hfresh.
  assert (v < length fr) as Hlt by (by eapply lookup_lt_Some).
  pose proof (Hfm _ _ Hv) as Hy.
  split.
  - intros p f. destruct (decide (pg x = p)) as [<-|Hne].
    + rewrite lookup_insert_eq. intros [= <-]. exists v, x.
      by rewrite list_lookup_insert_eq.
    + rewrite lookup_insert_ne by done.
      intros [Hpy Hp]%lookup_delete_Some.
      destruct (Hmf _ _ Hp) as (j & z & -> & Hj & Hz).
      exists j, z. rewrite list_lookup_insert_ne; [done|congruence].
  - intros j z. destruct (decide (v = j)) as [<-|Hne].
    + rewrite list_lookup_insert_eq by done. intros [= <-].
      by rewrite lookup_insert_eq.
    + rewrite list_lookup_insert_ne by done. intros Hj.
      pose proof (Hfm _ _ Hj) as Hz.
      rewrite lookup_insert_ne by congruence.
      rewrite lookup_delete_ne; [done|].
      intros Heq. rewrite <- Heq, Hy in Hz. injection Hz as Hz. lia.
  - rewrite map_size_insert_None by (by rewrite lookup_delete_ne by congruence).
    rewrite (map_size_delete_Some (pg y) m) by done.
    pose proof (occupied_clear _ _ _ Hv).
    rewrite (occupied_insert_same _ _ _ _ Hv). lia.
Qed.

(** Changing the content of an occupied frame without changing its page. *)
Lemma consistent_update fr m i x y :
  consistent pg fr m → fr !! i = Some (Some y) → pg x = pg y →
  consistent pg (<[i:=Some x]> fr) m.
Proof.
  intros [Hmf Hfm Hsz] Hi Hpg.
  assert (i < length fr) as Hlt by (by eapply lookup_lt_Some).
  split.
  - intros p f Hp. destruct (Hmf _ _ Hp) as (j & z & -> & Hj & Hz).
    destruct (decide (i = j)) as [<-|Hne].
    + exists i, x. rewrite list_lookup_insert_eq by done. split_and!; congruence.
    + exists j, z. by rewrite list_lookup_insert_ne.
  - intros j z. destruct (decide (i = j)) as [<-|Hne].
    + rewrite list_lookup_insert_eq by done. intros [= <-].
      rewrite Hpg. by apply Hfm.
    + rewrite list_lookup_insert_ne by done. apply Hfm.
  - by rewrite (occupied_insert_same _ _ _ _ Hi).
Qed.

Lemma free_shape_init n :
  free_shape (replicate n (@None A)) (Z.of_nat <$> seq 0 n).
Proof.
  exists 0. rewrite length_replicate, Nat.sub_0_r. split_and!; [lia|done|lia|].
  intros i Hi. apply lookup_replicate. split; [done|lia].
Qed.

Lemma free_shape_nil fr i : free_shape fr [] → i < length fr → holds fr i.
Proof.
  intros (k & Hk & Hfree & Hocc & _) Hi. apply Hocc.
  symmetry in Hfree. apply fmap_nil_inv in Hfree.
  apply (f_equal length) in Hfree. rewrite length_seq in Hfree. simpl in Hfree. lia.
Qed.

Lemma free_shape_cons fr z rest :
  free_shape fr (z :: rest) →
  ∃ j, z = Z.of_nat j ∧ fr !! j = Some None ∧
    ∀ x, free_shape (<[j:=Some x]> fr) rest.
Proof.
  intros (k & Hk & Hfree & Hocc & Hnone).
  destruct (length fr - k) as [|m] eqn:Hm; [done|]. simpl in Hfree.
  injection Hfree as -> ->. exists k. split; [done|].
  split; [apply Hnone; lia|]. intros x. exists (S k).
  rewrite length_insert. split_and!.
  - lia.
  - by replace (length fr - S k) with m by lia.
  - intros i Hi. destruct (decide (i = k)) as [->|Hne].
    + exists x. apply list_lookup_insert_eq. lia.
    + apply holds_insert; [lia|]. apply Hocc. lia.
  - intros i Hi. rewrite list_lookup_insert_ne by lia. apply Hnone. lia.
Qed.

Lemma free_shape_update fr free v x :
  free_shape fr free → holds fr v → free_shape (<[v:=Some x]> fr) free.
Proof.
  intros (k & Hk & Hfree & Hocc & Hnone) [y Hy].
  assert (v < length fr) as Hv by (by eapply lookup_lt_Some).
  exists k. rewrite length_insert. split_and!; [done..| |].
  - intros i Hi. apply holds_insert; [done|]. by apply Hocc.
  - intros i Hi. destruct (decide (v = i)) as [->|Hne].
    + rewrite (Hnone i Hi) in Hy. done.
    + rewrite list_lookup_insert_ne by done. by apply Hnone.
Qed.

End Bookkeeping.

(** * Clock engine: invariant and eviction sweep *)

Module ClockFacts.
Import Clock.

Lemma clock_referenced_clear r i x :
  r !! i = Some x → x ≠ 0%Z → S (referenced (<[i:=0%Z]> r)) = referenced r.
Proof.
  revert i. induction r as [|y r IH]; intros [|i]; simpl; try done.
  - intros [= ->] Hx. by rewrite (decide_False (P := x = 0%Z)) by done.
  - intros Hi Hx. case_decide; [by apply IH|]. f_equal. by apply IH.
Qed.

Lemma clock_referenced_le_length r : referenced r ≤ length r.
Proof. induction r as [|y r IH]; simpl; [done|]. case_decide; lia. Qed.

Lemma clock_inv_frame_map s i p :
  Inv s → frame_page s !! i = Some (Some p) →
  page_to_frame s !! p = Some (Z.of_nat i).
Proof. intros HI Hp. apply (cons_frame_map _ _ _ (inv_book _ HI) _ _ Hp). Qed.

Lemma clock_inv_map_frame s p f :
  Inv s → page_to_frame s !! p = Some f →
  ∃ i, f = Z.of_nat i ∧ frame_page s !! i = Some (Some p).
Proof.
  intros HI Hp.
  destruct (cons_map_frame _ _ _ (inv_book _ HI) _ _ Hp) as (i & x & -> & Hi & <-).
  by exists i.
Qed.

Lemma clock_init_inv cap s : (1 ≤ cap)%Z → __init__ cap = Done s → Inv s.
Proof.
  intros Hcap [= <-]. split; simpl; rewrite ?py_repeat_length; try done; try lia.
  apply consistent_init.
Qed.

Lemma clock_count_fault_inv s : Inv s → Inv (count_fault s).
Proof. intros []. split; simpl; try done. lia. Qed.

Lemma clock_sweep_step_inv s r h :
  Inv s → length r = length (ref s) → (0 ≤ h < frames_capacity s)%Z →
  Inv (set_hand (set_ref s r) h).
Proof. intros [] Hr Hh. split; simpl; try done. by rewrite Hr. Qed.

(** The free-frame scan returns the lowest free index, or [None] when every
    frame of the scanned range is occupied. *)
Lemma clock_find_free_scan_spec s (idxs : list nat) :
  (∀ i, i ∈ idxs → i < length (frame_page s)) →
  (find_free_scan (Z.of_nat <$> idxs) s = Done None ∧
     ∀ i, i ∈ idxs → ∃ p, frame_page s !! i = Some (Some p)) ∨
  (∃ i, find_free_scan (Z.of_nat <$> idxs) s = Done (Some (Z.of_nat i)) ∧
     i ∈ idxs ∧ frame_page s !! i = Some None).
Proof.
  induction idxs as [|i idxs IH]; intros Hin; simpl.
  - left. split; [done|]. intros i Hi. by apply elem_of_nil in Hi.
  - destruct (lookup_lt_is_Some_2 (frame_page s) i) as [o Ho].
    { apply Hin. left. }
    rewrite (py_get_nat _ _ _ Ho). simpl. destruct o as [p|].
    + destruct IH as [[Hn Hall]|(j & Hj & Hjin & Hfree)].
      * intros j Hj. apply Hin. by right.
      * left. split; [done|]. intros j [->|Hj]%elem_of_cons; eauto.
      * right. exists j. split_and!; [done| by right | done].
    + right. exists i. split_and!; [done| left | done].
Qed.

Lemma clock_find_free_frame_spec s :
  Inv s →
  (_find_free_frame s = Done None ∧ full s) ∨
  (∃ i, _find_free_frame s = Done (Some (Z.of_nat i)) ∧
     frame_page s !! i = Some None).
Proof.
  intros HI. unfold _find_free_frame, py_range.
  destruct (clock_find_free_scan_spec s (seq 0 (Z.to_nat (frames_capacity s))))
    as [[Hn Hall]|(i & Hi & _ & Hfree)].
  - intros i [_ Hi]%elem_of_seq. rewrite (inv_len_fp _ HI). lia.
  - left. split; [done|]. intros i Hi. apply Hall, elem_of_seq.
    rewrite (inv_len_fp _ HI) in Hi. lia.
  - right. eauto.
Qed.

Lemma clock_install_spec s v p w :
  v < length (frame_page s) → v < length (dirty s) → v < length (ref s) →
  _install (Z.of_nat v) p w s =
  Done (mk (frames_capacity s) (_page_faults s) (_disk_reads s) (_disk_writes s)
           (<[v:=Some p]> (frame_page s)) (<[v:=w]> (dirty s))
           (<[v:=1%Z]> (ref s)) (<[p:=Z.of_nat v]> (page_to_frame s)) (hand s)).
Proof.
  intros H1 H2 H3. unfold _install.
  rewrite !py_set_nat by done. done.
Qed.

Lemma clock_advance_hand_spec s :
  (1 ≤ frames_capacity s)%Z →
  _advance_hand s = Done (set_hand s ((hand s + 1) mod frames_capacity s)%Z).
Proof. intros Hc. unfold _advance_hand. by rewrite py_mod_pos. Qed.

(** When every frame is occupied, the sweep evicts after at most one
    inspection per set reference bit, plus one. *)
Lemma clock_evict_sweep_spec k : ∀ s fuel,
  Inv s → full s → referenced (ref s) ≤ k → k < fuel →
  ∃ v p s' n,
    evict_sweep fuel s = Done (Z.of_nat v, s', n) ∧ 1 ≤ n ≤ S k ∧
    frame_page s !! v = Some (Some p) ∧ evicted s v p s'.
Proof.
  induction k as [|k IH]; intros s fuel HI Hfull Hk Hfuel;
    (destruct fuel as [|fuel]; [lia|]).
  all: pose proof (inv_cap _ HI) as Hcap; pose proof (inv_hand _ HI) as Hhand.
  all: set (h := Z.to_nat (hand s)).
  all: assert (hand s = Z.of_nat h) as Hh by lia.
  all: assert (h < Z.to_nat (frames_capacity s)) as Hlt by lia.
  all: destruct (Hfull h) as [p Hp]; [by rewrite (inv_len_fp _ HI)|].
  all: destruct (lookup_lt_is_Some_2 (ref s) h) as [r Hr];
    [by rewrite (inv_len_ref _ HI)|].
  all: destruct (lookup_lt_is_Some_2 (dirty s) h) as [d Hd];
    [by rewrite (inv_len_dirty _ HI)|].
  all: pose proof (Z.mod_pos_bound (hand s + 1) (frames_capacity s)) as Hnext.
  all: simpl; rewrite Hh, (py_get_nat _ _ _ Hp); simpl;
    rewrite (py_get_nat _ _ _ Hr); simpl.
  all: destruct (decide (r = 0%Z)) as [->|Hnz].
  1, 3: rewrite (py_get_nat _ _ _ Hd); simpl;
    unfold py_del; rewrite (clock_inv_frame_map _ _ _ HI Hp); simpl;
    rewrite !py_set_nat
      by (by rewrite ?(inv_len_fp _ HI), ?(inv_len_dirty _ HI)); simpl;
    rewrite clock_advance_hand_spec by done; simpl;
    exists h, p; eexists; exists 1; split; [done|]; split; [lia|];
    split; [done|]; split; simpl; try done; try lia;
    first [ rewrite <- Hh; lia
          | rewrite Hd; destruct d;
            [by rewrite decide_True|by rewrite decide_False] ].
  - pose proof (clock_referenced_clear _ _ _ Hr Hnz). lia.
  - pose proof (clock_referenced_clear _ _ _ Hr Hnz) as Hclear.
    rewrite py_set_nat by (by rewrite (inv_len_ref _ HI)). simpl.
    rewrite clock_advance_hand_spec by done. simpl.
    edestruct (IH (set_hand (set_ref s (<[h:=0%Z]> (ref s)))
                    ((hand s + 1) mod frames_capacity s)%Z) fuel)
      as (v & q & s' & n & Hrun & Hn & Hq & Hev).
    + apply clock_sweep_step_inv; [done| by rewrite length_insert | lia].
    + done.
    + simpl. lia.
    + lia.
    + rewrite Hrun. simpl. exists v, q, s', (S n).
      split; [done|]. split; [lia|]. split; [done|].
      destruct Hev. split; simpl in *; try done.
      by rewrite ev_ref_len0, length_insert.
Qed.

Lemma clock_evict_clock_spec s fuel :
  Inv s → full s → 2 * Z.to_nat (frames_capacity s) ≤ fuel →
  ∃ v p s' n,
    evict_sweep fuel s = Done (Z.of_nat v, s', n) ∧
    _evict_clock fuel s = Done (Z.of_nat v, s') ∧
    1 ≤ n ≤ 2 * Z.to_nat (frames_capacity s) ∧
    frame_page s !! v = Some (Some p) ∧ evicted s v p s'.
Proof.
  intros HI Hfull Hfuel.
  pose proof (inv_cap _ HI) as Hcap.
  pose proof (clock_referenced_le_length (ref s)) as Hle.
  rewrite (inv_len_ref _ HI) in Hle.
  destruct (clock_evict_sweep_spec (Z.to_nat (frames_capacity s)) s fuel)
    as (v & p & s' & n & Hrun & Hn & Hp & Hev); [done..|lia|].
  exists v, p, s', n. unfold _evict_clock. rewrite Hrun. simpl.
  split_and!; try done; lia.
Qed.

(** A hit only touches the dirty flag and the reference bit of its frame. *)
Lemma clock_access_hit_spec fuel s page w f :
  Inv s → page_to_frame s !! page = Some f →
  ∃ i s', f = Z.of_nat i ∧ frame_page s !! i = Some (Some page) ∧
    _access fuel page w s = Done s' ∧ hit_effect s i w s' ∧ Inv s'.
Proof.
  intros HI Hf. destruct (clock_inv_map_frame _ _ _ HI Hf) as (i & -> & Hi).
  assert (i < Z.to_nat (frames_capacity s)) as Hlt.
  { rewrite <- (inv_len_fp _ HI). by eapply lookup_lt_Some. }
  exists i. unfold _access. rewrite Hf.
  destruct w;
    rewrite !py_set_nat
      by (by rewrite ?(inv_len_dirty _ HI), ?(inv_len_ref _ HI)); simpl;
    (eexists; split; [done|]; split; [done|]; split; [done|]; split; [by split|]);
    destruct HI; split; simpl; by rewrite ?length_insert.
Qed.

(** Every access of an engine that satisfies the invariant returns, keeps
    the invariant, and leaves occupied frames occupied. *)
Lemma clock_access_spec fuel s page w :
  Inv s → 2 * Z.to_nat (frames_capacity s) ≤ fuel →
  ∃ s', _access fuel page w s = Done s' ∧ Inv s' ∧
    frames_capacity s' = frames_capacity s ∧
    (∀ i, holds (frame_page s) i → holds (frame_page s') i).
Proof.
  intros HI Hfuel. destruct (page_to_frame s !! page) as [f|] eqn:Hf.
  { destruct (clock_access_hit_spec fuel s page w f HI Hf) as (i & s' & _ & _ & Hrun & Hhit & HI').
    exists s'. split_and!; [done..|apply Hhit|]. by rewrite (hit_frames _ _ _ _ Hhit). }
  unfold _access. rewrite Hf. cbv zeta.
  pose proof (clock_count_fault_inv _ HI) as HI1.
  destruct (clock_find_free_frame_spec _ HI1) as [[Hnone Hfull]|(i & Hsome & Hfree)].
  - rewrite Hnone. simpl.
    destruct (clock_evict_clock_spec (count_fault s) fuel HI1 Hfull Hfuel)
      as (v & p & s2 & n & _ & Hev & _ & Hp & Hpost).
    rewrite Hev. simpl. destruct Hpost. simpl in *.
    assert (v < Z.to_nat (frames_capacity s)) as Hlt.
    { rewrite <- (inv_len_fp _ HI). by eapply lookup_lt_Some. }
    rewrite clock_install_spec.
    2: by rewrite ev_fp0, length_insert, (inv_len_fp _ HI).
    2: by rewrite ev_dirty0, length_insert, (inv_len_dirty _ HI).
    2: by rewrite ev_ref_len0, (inv_len_ref _ HI).
    eexists. split; [done|]. rewrite ev_fp0, ev_dirty0, ev_map0, ev_cap0.
    rewrite list_insert_insert_eq. split_and!; simpl; [|done|].
    + destruct HI. split; simpl;
        rewrite ?length_insert, ?ev_ref_len0, ?ev_reads0, ?ev_faults0;
        try done; try lia.
      by apply (consistent_replace id _ _ v page p).
    + intros j Hj. apply holds_insert; [|done]. by rewrite (inv_len_fp _ HI).
  - rewrite Hsome. simpl.
    assert (i < Z.to_nat (frames_capacity s)) as Hlt.
    { rewrite <- (inv_len_fp _ HI). by eapply lookup_lt_Some. }
    rewrite clock_install_spec; simpl.
    2: by rewrite (inv_len_fp _ HI).
    2: by rewrite (inv_len_dirty _ HI).
    2: by rewrite (inv_len_ref _ HI).
    eexists. split; [done|]. split_and!; simpl; [|done|].
    + destruct HI. split; simpl; rewrite ?length_insert; try done; try lia.
      by apply (consistent_install_free id _ _ i page).
    + intros j Hj. apply holds_insert; [|done]. by rewrite (inv_len_fp _ HI).
Qed.

Lemma clock_run_spec fuel trace : ∀ s,
  Inv s → 2 * Z.to_nat (frames_capacity s) ≤ fuel →
  ∃ s', run fuel trace s = Done s' ∧ Inv s' ∧
    frames_capacity s' = frames_capacity s.
Proof.
  induction trace as [|a trace IH]; intros s HI Hfuel; simpl.
  - by exists s.
  - destruct (clock_access_spec fuel s (access_page a) (access_is_write a) HI Hfuel)
      as (s1 & Hstep & HI1 & Hcap & _).
    assert (step fuel a s = Done s1) as -> by (by destruct a).
    simpl. destruct (IH s1 HI1) as (s' & Hrun & HI' & Hcap'); [by rewrite Hcap|].
    exists s'. split_and!; [done..|congruence].
Qed.

Lemma clock_exec_spec fuel cap trace :
  (1 ≤ cap)%Z → 2 * Z.to_nat cap ≤ fuel →
  ∃ s, exec fuel cap trace = Done s ∧ Inv s ∧ frames_capacity s = cap.
Proof.
  intros Hcap Hfuel. unfold exec.
  destruct (__init__ cap) as [s0| |] eqn:Hinit; try done.
  pose proof (clock_init_inv _ _ Hcap Hinit) as HI0.
  assert (frames_capacity s0 = cap) as Hc by (by injection Hinit as <-).
  simpl. destruct (clock_run_spec fuel trace s0 HI0) as (s & Hrun & HI & Hcs);
    [by rewrite Hc|].
  exists s. split_and!; [done..|congruence].
Qed.

Lemma clock_repeat_hit_spec fuel page N : ∀ s,
  Inv s → is_Some (page_to_frame s !! page) →
  ∃ s', run fuel (replicate N (Read page)) s = Done s' ∧
    _page_faults s' = _page_faults s ∧ _disk_reads s' = _disk_reads s ∧
    _disk_writes s' = _disk_writes s.
Proof.
  induction N as [|N IH]; intros s HI [f Hf]; simpl.
  - by exists s.
  - destruct (clock_access_hit_spec fuel s page false f HI Hf)
      as (i & s1 & _ & _ & Hrun & Hhit & HI1).
    unfold read_memory. rewrite Hrun. simpl.
    destruct (IH s1 HI1) as (s' & Hrun' & Hpf & Hdr & Hdw).
    { rewrite (hit_map _ _ _ _ Hhit). by exists f. }
    exists s'. destruct Hhit. split_and!; [done|congruence..].
Qed.

End ClockFacts.

(** * LRU engine: victim scan and invariant *)

Module LruFacts.
Import Lru.

Lemma lru_below_trans t u b : (t < u)%Z → below u b = true → below t b = true.
Proof.
  destruct b as [|o]; simpl; [done|].
  intros Htu Hu%bool_decide_eq_true. apply bool_decide_eq_true. lia.
Qed.

Lemma lru_below_false_le t u b : below t b = true → below u b = false → (t < u)%Z.
Proof.
  destruct b as [|o]; simpl; [done|].
  intros Ht%bool_decide_eq_true Hu%bool_decide_eq_false. lia.
Qed.

(** The scan over the indices [a, a + len) either keeps the candidate it
    started with, when no occupied frame of the range is below the bound, or
    ends on the first frame of the range that carries the least stamp. *)
Lemma lru_scan_spec s len : ∀ a b v0,
  a + len ≤ length (frame_table s) →
  length (access_time s) = length (frame_table s) →
  ∃ r, lru_scan (Z.of_nat <$> seq a len) b v0 s = Done r ∧
    ((r = v0 ∧
      ∀ i t, a ≤ i < a + len → holds (frame_table s) i →
        access_time s !! i = Some t → below t b = false) ∨
     (∃ j tj, r = Z.of_nat j ∧ a ≤ j < a + len ∧ holds (frame_table s) j ∧
        access_time s !! j = Some tj ∧ below tj b = true ∧
        (∀ i t, a ≤ i < j → holds (frame_table s) i →
           access_time s !! i = Some t → (tj < t)%Z) ∧
        (∀ i t, j < i < a + len → holds (frame_table s) i →
           access_time s !! i = Some t → (tj ≤ t)%Z))).
Proof.
  induction len as [|len IH]; intros a b v0 Hlen Hat; simpl.
  { exists v0. split; [done|]. left. split; [done|]. intros; lia. }
  destruct (lookup_lt_is_Some_2 (frame_table s) a) as [o Ho]; [lia|].
  destruct (lookup_lt_is_Some_2 (access_time s) a) as [t Ht]; [lia|].
  rewrite (py_get_nat _ _ _ Ho). simpl. destruct o as [p|].
  - rewrite (py_get_nat _ _ _ Ht). simpl.
    destruct (below t b) eqn:Hb.
    + destruct (IH (S a) (Fin t) (Z.of_nat a)) as (r & Hr & Hcase); [lia|done|].
      exists r. split; [done|]. right.
      destruct Hcase as [[-> Hall]|(j & tj & -> & Hj & Hoj & Htj & Hbj & Hpre & Hpost)].
      * exists a, t. split; [done|]. split; [lia|]. split; [by exists p|].
        split; [done|]. split; [done|]. split; [intros; lia|].
        intros i u Hi Hoi Hu. specialize (Hall i u).
        simpl in Hall. rewrite bool_decide_eq_false in Hall.
        assert (¬ (u < t)%Z) by (apply Hall; [lia|done..]). lia.
      * simpl in Hbj. apply bool_decide_eq_true in Hbj.
        exists j, tj. split; [done|]. split; [lia|]. split; [done|].
        split; [done|]. split; [|split; [|intros i u Hi; apply Hpost; lia]].
        -- by apply (lru_below_trans _ t).
        -- intros i u Hi Hoi Hu. destruct (decide (i = a)) as [->|Hne].
           ++ rewrite Ht in Hu. injection Hu as <-. done.
           ++ apply (Hpre i u); [lia|done..].
    + destruct (IH (S a) b v0) as (r & Hr & Hcase); [lia|done|].
      exists r. split; [done|].
      destruct Hcase as [[-> Hall]|(j & tj & -> & Hj & Hoj & Htj & Hbj & Hpre & Hpost)].
      * left. split; [done|]. intros i u Hi Hoi Hu.
        destruct (decide (i = a)) as [->|Hne].
        -- rewrite Ht in Hu. by injection Hu as <-.
        -- apply (Hall i u); [lia|done..].
      * right. exists j, tj. split; [done|]. split; [lia|]. split; [done|].
        split; [done|]. split; [done|]. split; [|intros i u Hi; apply Hpost; lia].
        intros i u Hi Hoi Hu. destruct (decide (i = a)) as [->|Hne].
        -- rewrite Ht in Hu. injection Hu as <-. by apply (lru_below_false_le _ _ b).
        -- apply (Hpre i u); [lia|done..].
  - destruct (IH (S a) b v0) as (r & Hr & Hcase); [lia|done|].
    exists r. split; [done|].
    assert (∀ i, holds (frame_table s) i → i ≠ a) as Hfree.
    { intros i [x Hx] ->. rewrite Ho in Hx. done. }
    destruct Hcase as [[-> Hall]|(j & tj & -> & Hj & Hoj & Htj & Hbj & Hpre & Hpost)].
    + left. split; [done|]. intros i u Hi Hoi Hu.
      apply (Hall i u); [|done..]. specialize (Hfree i Hoi). lia.
    + right. exists j, tj. split; [done|]. split; [lia|]. split; [done|].
      split; [done|]. split; [done|]. split; [|intros i u Hi; apply Hpost; lia].
      intros i u Hi Hoi Hu. apply (Hpre i u); [|done..].
      specialize (Hfree i Hoi). lia.
Qed.

(** With every frame occupied, [_find_lru_victim] returns the least recently
    used frame. *)
Lemma lru_find_lru_victim_spec s :
  (1 ≤ frames s)%Z →
  length (frame_table s) = Z.to_nat (frames s) →
  length (access_time s) = Z.to_nat (frames s) →
  (∀ i, i < length (frame_table s) → holds (frame_table s) i) →
  ∃ j, _find_lru_victim s = Done (Z.of_nat j) ∧ least_recent s j.
Proof.
  intros Hcap Hft Hat Hfull. unfold _find_lru_victim, py_range.
  destruct (lru_scan_spec s (Z.to_nat (frames s)) 0 Inf 0%Z) as (r & Hr & Hcase);
    [lia|congruence|].
  destruct Hcase as [[-> Hall]|(j & tj & -> & Hj & Hoj & Htj & _ & Hpre & Hpost)].
  - destruct (lookup_lt_is_Some_2 (access_time s) 0) as [t Ht]; [lia|].
    specialize (Hall 0 t). simpl in Hall.
    assert (true = false); [|done]. apply Hall; [lia| |done]. apply Hfull. lia.
  - exists j. split; [done|]. split; [done|]. exists tj. split; [done|].
    intros i t Hoi Ht.
    assert (i < Z.to_nat (frames s)) as Hi.
    { rewrite <- Hat. by eapply lookup_lt_Some. }
    destruct (decide (i < j)) as [Hlt|Hge].
    + pose proof (Hpre i t ltac:(lia) Hoi Ht). lia.
    + destruct (decide (i = j)) as [->|Hne].
      * rewrite Htj in Ht. injection Ht as <-. lia.
      * pose proof (Hpost i t ltac:(lia) Hoi Ht). lia.
Qed.

Lemma lru_init_inv cap s : (1 ≤ cap)%Z → __init__ cap = Done s → Inv s.
Proof.
  intros Hcap [= <-]. split; simpl; rewrite ?py_repeat_length; try done.
  - apply consistent_init.
  - apply free_shape_init.
Qed.

Lemma lru_tick_inv s : Inv s → Inv (tick s).
Proof. intros []. by split. Qed.

Lemma lru_count_fault_inv s : Inv s → Inv (count_fault s).
Proof. intros []. split; simpl; try done. lia. Qed.

Lemma lru_inv_map_frame s p f :
  Inv s → page_table s !! p = Some f →
  ∃ i, f = Z.of_nat i ∧ frame_table s !! i = Some (Some p).
Proof.
  intros HI Hp.
  destruct (cons_map_frame _ _ _ (inv_book _ HI) _ _ Hp) as (i & x & -> & Hi & <-).
  by exists i.
Qed.

Lemma lru_inv_frame_map s i p :
  Inv s → frame_table s !! i = Some (Some p) →
  page_table s !! p = Some (Z.of_nat i).
Proof. intros HI Hp. apply (cons_frame_map _ _ _ (inv_book _ HI) _ _ Hp). Qed.

(** A hit stamps its frame with the advanced clock, marks it dirty on a
    write, and touches nothing else. *)
Lemma lru_access_hit_spec s page w f :
  Inv s → page_table s !! page = Some f →
  ∃ i s', f = Z.of_nat i ∧ frame_table s !! i = Some (Some page) ∧
    access_memory page w s = Done s' ∧ hit_effect s i w s' ∧ Inv s'.
Proof.
  intros HI Hf. destruct (lru_inv_map_frame _ _ _ HI Hf) as (i & -> & Hi).
  assert (i < Z.to_nat (frames s)) as Hlt.
  { rewrite <- (inv_len_ft _ HI). by eapply lookup_lt_Some. }
  exists i. unfold access_memory, write_memory, read_memory. cbv zeta. simpl.
  rewrite Hf.
  destruct w;
    rewrite !py_set_nat
      by (by rewrite ?(inv_len_db _ HI), ?(inv_len_at _ HI)); simpl;
    (eexists; split; [done|]; split; [done|]; split; [done|]; split; [by split|]);
    destruct HI; split; simpl; by rewrite ?length_insert.
Qed.

(** A fault always finds a frame: the first free one, or the least recently
    used one when none is free. *)
Lemma lru_handle_page_fault_spec s page w :
  Inv s → page_table s !! page = None →
  ∃ s', _handle_page_fault page w s = Done s' ∧ Inv s' ∧
    frames s' = frames s ∧
    current_time s' = (current_time s + 1)%Z ∧
    (∀ i, holds (frame_table s) i → holds (frame_table s') i).
Proof.
  intros HI Hfresh. unfold _handle_page_fault. cbv zeta.
  pose proof (inv_free _ HI) as Hshape.
  simpl. destruct (free_frames s) as [|z rest] eqn:Hfree.
  - assert (∀ i, i < length (frame_table s) → holds (frame_table s) i) as Hfull.
    { intros i Hi. by apply free_shape_nil. }
    destruct (lru_find_lru_victim_spec (count_fault s)) as (j & Hj & [[q Hq] _]);
      [apply HI..|done|].
    simpl in Hq. rewrite Hj. simpl.
    assert (j < Z.to_nat (frames s)) as Hlt.
    { rewrite <- (inv_len_ft _ HI). by eapply lookup_lt_Some. }
    destruct (lookup_lt_is_Some_2 (dirty_bits s) j) as [d Hd];
      [by rewrite (inv_len_db _ HI)|].
    rewrite (py_get_nat _ _ _ Hq), (py_get_nat _ _ _ Hd). simpl.
    unfold py_del. rewrite (lru_inv_frame_map _ _ _ HI Hq). simpl.
    rewrite !py_set_nat
      by (by rewrite ?(inv_len_ft _ HI), ?(inv_len_db _ HI), ?(inv_len_at _ HI)).
    simpl. eexists. split; [done|]. split_and!; simpl; [|done..|].
    + destruct HI. split; simpl; rewrite ?length_insert; try done; try lia.
      * by apply (consistent_replace id _ _ j page q).
      * apply free_shape_update; [done|by exists q].
    + intros i Hi. apply holds_insert; [|done]. by rewrite (inv_len_ft _ HI).
  - destruct (free_shape_cons _ _ _ Hshape) as (j & -> & Hj & Hrest).
    assert (j < Z.to_nat (frames s)) as Hlt.
    { rewrite <- (inv_len_ft _ HI). by eapply lookup_lt_Some. }
    simpl. rewrite !py_set_nat
      by (by rewrite ?(inv_len_ft _ HI), ?(inv_len_db _ HI), ?(inv_len_at _ HI)).
    simpl. eexists. split; [done|]. split_and!; simpl; [|done..|].
    + destruct HI. split; simpl; rewrite ?length_insert; try done; try lia.
      by apply (consistent_install_free id _ _ j page).
    + intros i Hi. apply holds_insert; [|done]. by rewrite (inv_len_ft _ HI).
Qed.

Lemma lru_access_fault_spec s page w :
  Inv s → page_table s !! page = None →
  access_memory page w s = _handle_page_fault page w (tick s).
Proof.
  intros HI Hf. unfold access_memory, write_memory, read_memory. cbv zeta.
  simpl. rewrite Hf. by destruct w.
Qed.

(** On a fault the clock is advanced by the access method and once more by
    [_handle_page_fault]. *)
Lemma lru_fault_clock s page w :
  Inv s → page_table s !! page = None →
  ∃ s', access_memory page w s = Done s' ∧
    current_time s' = (current_time s + 2)%Z.
Proof.
  intros HI Hf. rewrite lru_access_fault_spec by done.
  destruct (lru_handle_page_fault_spec (tick s) page w (lru_tick_inv _ HI) Hf)
    as (s' & Hrun & _ & _ & Hct & _).
  exists s'. split; [done|]. simpl in Hct. lia.
Qed.

Lemma lru_access_spec s page w :
  Inv s →
  ∃ s', access_memory page w s = Done s' ∧ Inv s' ∧ frames s' = frames s ∧
    (∀ i, holds (frame_table s) i → holds (frame_table s') i).
Proof.
  intros HI. destruct (page_table s !! page) as [f|] eqn:Hf.
  - destruct (lru_access_hit_spec s page w f HI Hf) as (i & s' & _ & _ & Hrun & Hhit & HI').
    exists s'. split_and!; [done..|apply Hhit|]. by rewrite (hit_frames _ _ _ _ Hhit).
  - rewrite lru_access_fault_spec by done.
    destruct (lru_handle_page_fault_spec (tick s) page w (lru_tick_inv _ HI) Hf)
      as (s' & Hrun & HI' & Hcap & _ & Hocc).
    by exists s'.
Qed.

Lemma lru_step_access a s : step a s = access_memory (access_page a) (access_is_write a) s.
Proof. by destruct a. Qed.

Lemma lru_run_spec trace : ∀ s,
  Inv s → ∃ s', run trace s = Done s' ∧ Inv s' ∧ frames s' = frames s.
Proof.
  induction trace as [|a trace IH]; intros s HI; simpl.
  - by exists s.
  - destruct (lru_access_spec s (access_page a) (access_is_write a) HI)
      as (s1 & Hstep & HI1 & Hcap & _).
    rewrite lru_step_access, Hstep. simpl.
    destruct (IH s1 HI1) as (s' & Hrun & HI' & Hcap').
    exists s'. split_and!; [done..|congruence].
Qed.

Lemma lru_exec_spec cap trace :
  (1 ≤ cap)%Z → ∃ s, exec cap trace = Done s ∧ Inv s ∧ frames s = cap.
Proof.
  intros Hcap. unfold exec.
  destruct (__init__ cap) as [s0| |] eqn:Hinit; try done.
  pose proof (lru_init_inv _ _ Hcap Hinit) as HI0.
  assert (frames s0 = cap) as Hc by (by injection Hinit as <-).
  simpl. destruct (lru_run_spec trace s0 HI0) as (s & Hrun & HI & Hcs).
  exists s. split_and!; [done..|congruence].
Qed.

Lemma lru_repeat_hit_spec page N : ∀ s,
  Inv s → is_Some (page_table s !! page) →
  ∃ s', run (replicate N (Read page)) s = Done s' ∧
    page_faults s' = page_faults s ∧ disk_reads s' = disk_reads s ∧
    disk_writes s' = disk_writes s.
Proof.
  induction N as [|N IH]; intros s HI [f Hf]; simpl.
  - by exists s.
  - destruct (lru_access_hit_spec s page false f HI Hf)
      as (i & s1 & _ & _ & Hrun & Hhit & HI1).
    unfold access_memory in Hrun. rewrite Hrun. simpl.
    destruct (IH s1 HI1) as (s' & Hrun' & Hpf & Hdr & Hdw).
    { rewrite (hit_map _ _ _ _ Hhit). by exists f. }
    exists s'. destruct Hhit. split_and!; [done|congruence..].
Qed.

End LruFacts.

(** * Random engine: victim choice and invariant *)

Module RandFacts.
Import Rand.

Lemma rand_init_inv cap s : (1 ≤ cap)%Z → __init__ cap = Done s → Inv s.
Proof.
  intros Hcap [= <-]. split; simpl; rewrite ?py_repeat_length; try done.
  - apply consistent_init.
  - apply free_shape_init.
Qed.

Lemma rand_inv_full s i :
  Inv s → _free s = [] → i < Z.to_nat (num_frames s) → holds (frames s) i.
Proof.
  intros HI Hfree Hi. apply (free_shape_nil _ i).
  - rewrite <- Hfree. apply HI.
  - by rewrite (inv_len _ HI).
Qed.

Section WithRandomSource.
Variable rng : nat → Z.

(** With no free frame left, the victim is found at the first draw, it is an
    occupied frame, and the only thing the choice changes is the position in
    the random stream. *)
Lemma rand_choose_victim_spec fuel s :
  (1 ≤ num_frames s)%Z →
  (∀ i, i < Z.to_nat (num_frames s) → holds (frames s) i) →
  1 ≤ fuel →
  ∃ v k,
    _choose_victim rng fuel s =
      Done (Z.of_nat v,
            mk (num_frames s) (frames s) (page_to_frame s) (_disk_reads s)
               (_disk_writes s) (_page_faults s) (_free s) k) ∧
    holds (frames s) v ∧ (num_frames s = 1%Z → v = 0).
Proof.
  intros Hcap Hfull Hfuel.
  unfold _choose_victim. case_decide as Hone.
  - exists 0, (rng_pos s). destruct s. simpl in *. split; [done|].
    split; [|done]. apply Hfull. lia.
  - destruct fuel as [|fuel]; [lia|]. unfold randrange. simpl.
    pose proof (Z.mod_pos_bound (rng (rng_pos s)) (num_frames s)) as Hmod.
    set (idx := (rng (rng_pos s) mod num_frames s)%Z) in *.
    destruct (Hfull (Z.to_nat idx)) as [en Hen]; [lia|].
    assert (py_get (frames s) idx = Done (Some en)) as ->.
    { rewrite <- (Z2Nat.id idx) by lia. by apply py_get_nat. }
    simpl. exists (Z.to_nat idx), (S (rng_pos s)). rewrite Z2Nat.id by lia.
    split; [done|]. split; [by exists en|lia].
Qed.

Lemma rand_evict_spec s v en :
  frames s !! v = Some (Some en) →
  page_to_frame s !! page en = Some (Z.of_nat v) →
  _evict (Z.of_nat v) s =
    Done (mk (num_frames s) (<[v:=None]> (frames s))
             (delete (page en) (page_to_frame s)) (_disk_reads s)
             (if is_dirty en then (_disk_writes s + 1)%Z else _disk_writes s)
             (_page_faults s) (_free s) (rng_pos s)).
Proof.
  intros Hv Hp. unfold _evict. rewrite (py_get_nat _ _ _ Hv). simpl.
  rewrite Hp. rewrite py_set_nat by (by eapply lookup_lt_Some). done.
Qed.

(** A hit can only set the dirty flag of its entry. *)
Lemma rand_access_hit_spec fuel s pg w f :
  Inv s → page_to_frame s !! pg = Some f →
  ∃ i s', f = Z.of_nat i ∧ (∃ en, frames s !! i = Some (Some en) ∧ page en = pg) ∧
    _access rng fuel pg w s = Done s' ∧ hit_effect s i w s' ∧ Inv s'.
Proof.
  intros HI Hf.
  destruct (cons_map_frame _ _ _ (inv_book _ HI) _ _ Hf) as (i & en & -> & Hi & Hpg).
  assert (i < length (frames s)) as Hlt by (by eapply lookup_lt_Some).
  exists i. unfold _access. rewrite Hf, (py_get_nat _ _ _ Hi). simpl.
  rewrite py_set_nat by done. simpl. eexists. split; [done|].
  split; [by exists en|]. split; [done|]. split.
  - split; simpl; try done. by exists en.
  - destruct HI. split; simpl; rewrite ?length_insert; try done.
    + by apply (consistent_update page _ _ i _ en).
    + apply free_shape_update; [done|by exists en].
Qed.

Lemma rand_access_spec fuel s pg w :
  Inv s → 1 ≤ fuel →
  ∃ s', _access rng fuel pg w s = Done s' ∧ Inv s' ∧
    num_frames s' = num_frames s ∧
    (∀ i, holds (frames s) i → holds (frames s') i).
Proof.
  intros HI Hfuel. destruct (page_to_frame s !! pg) as [f|] eqn:Hf.
  { destruct (rand_access_hit_spec fuel s pg w f HI Hf)
      as (i & s' & _ & _ & Hrun & Hhit & HI').
    exists s'. split_and!; [done..|apply Hhit|].
    destruct (hit_frames _ _ _ _ Hhit) as (en & Hen & ->).
    intros j Hj. apply holds_insert; [by eapply lookup_lt_Some|done]. }
  unfold _access. rewrite Hf. cbv zeta.
  pose proof (inv_free _ HI) as Hshape. simpl.
  destruct (_free s) as [|z rest] eqn:Hfree.
  - edestruct (rand_choose_victim_spec fuel (count_fault s))
      as (v & k & Hv & [en Hen] & _).
    { apply HI. }
    { simpl. intros i Hi. by apply rand_inv_full. }
    { done. }
    simpl in *. rewrite Hfree in Hv. rewrite Hv. simpl.
    assert (v < length (frames s)) as Hlt by (by eapply lookup_lt_Some).
    rewrite (rand_evict_spec _ v en) by
      (simpl; [done || apply (cons_frame_map _ _ _ (inv_book _ HI) _ _ Hen)]).
    simpl. rewrite py_set_nat by (by rewrite length_insert). simpl.
    rewrite list_insert_insert_eq.
    assert (∀ K : list (option entry) → result state,
      (if w then
         py_get (<[v:=Some (Entry pg w)]> (frames s)) (Z.of_nat v) ≫= λ e,
           match e with
           | Some en0 => py_set (<[v:=Some (Entry pg w)]> (frames s)) (Z.of_nat v)
                           (Some (Entry (page en0) true))
           | None => Done (<[v:=Some (Entry pg w)]> (frames s))
           end
       else Done (<[v:=Some (Entry pg w)]> (frames s))) ≫= K
      = K (<[v:=Some (Entry pg w)]> (frames s))) as Htail.
    { intros K. destruct w; [|done].
      rewrite (py_get_nat _ v (Some (Entry pg true)))
        by (by apply list_lookup_insert_eq).
      simpl. rewrite py_set_nat by (by rewrite length_insert). simpl.
      by rewrite list_insert_insert_eq. }
    rewrite Htail. eexists. split; [done|]. split_and!; simpl; [|done|].
    + destruct HI. split; simpl in *; rewrite ?length_insert; try done; try lia.
      * by apply (consistent_replace page _ _ v (Entry pg w) en).
      * rewrite Hfree in inv_free0. apply free_shape_update; [done|by exists en].
    + intros j Hj. by apply holds_insert.
  - destruct (free_shape_cons _ _ _ Hshape) as (j & -> & Hj & Hrest).
    assert (j < length (frames s)) as Hlt by (by eapply lookup_lt_Some).
    simpl. rewrite py_set_nat by done. simpl.
    assert (∀ K : list (option entry) → result state,
      (if w then
         py_get (<[j:=Some (Entry pg w)]> (frames s)) (Z.of_nat j) ≫= λ e,
           match e with
           | Some en0 => py_set (<[j:=Some (Entry pg w)]> (frames s)) (Z.of_nat j)
                           (Some (Entry (page en0) true))
           | None => Done (<[j:=Some (Entry pg w)]> (frames s))
           end
       else Done (<[j:=Some (Entry pg w)]> (frames s))) ≫= K
      = K (<[j:=Some (Entry pg w)]> (frames s))) as Htail.
    { intros K. destruct w; [|done].
      rewrite (py_get_nat _ j (Some (Entry pg true)))
        by (by apply list_lookup_insert_eq).
      simpl. rewrite py_set_nat by (by rewrite length_insert). simpl.
      by rewrite list_insert_insert_eq. }
    rewrite Htail. eexists. split; [done|]. split_and!; simpl; [|done|].
    + destruct HI. split; simpl in *; rewrite ?length_insert; try done; try lia.
      by apply (consistent_install_free page _ _ j (Entry pg w)).
    + intros i Hi. by apply holds_insert.
Qed.

Lemma rand_run_spec fuel trace : ∀ s,
  Inv s → 1 ≤ fuel →
  ∃ s', run rng fuel trace s = Done s' ∧ Inv s' ∧ num_frames s' = num_frames s.
Proof.
  induction trace as [|a trace IH]; intros s HI Hfuel; simpl.
  - by exists s.
  - destruct (rand_access_spec fuel s (access_page a) (access_is_write a) HI Hfuel)
      as (s1 & Hstep & HI1 & Hcap & _).
    assert (step rng fuel a s = Done s1) as -> by (by destruct a).
    simpl. destruct (IH s1 HI1 Hfuel) as (s' & Hrun & HI' & Hcap').
    exists s'. split_and!; [done..|congruence].
Qed.

Lemma rand_exec_spec fuel cap trace :
  (1 ≤ cap)%Z → 1 ≤ fuel →
  ∃ s, exec rng fuel cap trace = Done s ∧ Inv s ∧ num_frames s = cap.
Proof.
  intros Hcap Hfuel. unfold exec.
  destruct (__init__ cap) as [s0| |] eqn:Hinit; try done.
  pose proof (rand_init_inv _ _ Hcap Hinit) as HI0.
  assert (num_frames s0 = cap) as Hc by (by injection Hinit as <-).
  simpl. destruct (rand_run_spec fuel trace s0 HI0 Hfuel) as (s & Hrun & HI & Hcs).
  exists s. split_and!; [done..|congruence].
Qed.

Lemma rand_repeat_hit_spec fuel pg N : ∀ s,
  Inv s → is_Some (page_to_frame s !! pg) →
  ∃ s', run rng fuel (replicate N (Read pg)) s = Done s' ∧
    _page_faults s' = _page_faults s ∧ _disk_reads s' = _disk_reads s ∧
    _disk_writes s' = _disk_writes s.
Proof.
  induction N as [|N IH]; intros s HI [f Hf]; simpl.
  - by exists s.
  - destruct (rand_access_hit_spec fuel s pg false f HI Hf)
      as (i & s1 & _ & _ & Hrun & Hhit & HI1).
    unfold read_memory. rewrite Hrun. simpl.
    destruct (IH s1 HI1) as (s' & Hrun' & Hpf & Hdr & Hdw).
    { rewrite (hit_map _ _ _ _ Hhit). by exists f. }
    exists s'. destruct Hhit. split_and!; [done|congruence..].
Qed.

End WithRandomSource.

End RandFacts.

(** * The specification's properties *)

(** C1 — for every engine, every capacity of at least one frame and every
    finite trace of reads and writes, the run returns and the disk-read
    counter it reports equals the page-fault counter. *)
Theorem disk_reads_equal_page_faults (cap : Z) (trace : list access) :
  (1 ≤ cap)%Z →
  (∀ fuel, 2 * Z.to_nat cap ≤ fuel →
     ∃ s, Clock.exec fuel cap trace = Done s ∧
       Clock.get_total_disk_reads s = Clock.get_total_page_faults s) ∧
  (∃ s, Lru.exec cap trace = Done s ∧
     Lru.get_total_disk_reads s = Lru.get_total_page_faults s) ∧
  (∀ rng fuel, 1 ≤ fuel →
     ∃ s, Rand.exec rng fuel cap trace = Done s ∧
       Rand.get_total_disk_reads s = Rand.get_total_page_faults s).
Proof.
  intros Hcap. split_and!.
  - intros fuel Hfuel.
    destruct (ClockFacts.clock_exec_spec fuel cap trace Hcap Hfuel) as (s & Hs & HI & _).
    exists s. split; [done|]. apply HI.
  - destruct (LruFacts.lru_exec_spec cap trace Hcap) as (s & Hs & HI & _).
    exists s. split; [done|]. apply HI.
  - intros rng fuel Hfuel.
    destruct (RandFacts.rand_exec_spec rng fuel cap trace Hcap Hfuel) as (s & Hs & HI & _).
    exists s. split; [done|]. apply HI.
Qed.

Lemma disk_reads_equal_page_faults_witness :
  (∃ s, Clock.exec 6 3 [Read 1; Write 2; Read 3; Read 4; Write 1] = Done s ∧
     Clock.get_total_disk_reads s = Clock.get_total_page_faults s) ∧
  (∃ s, Lru.exec 3 [Read 1; Write 2; Read 3; Read 4; Write 1] = Done s ∧
     Lru.get_total_disk_reads s = Lru.get_total_page_faults s) ∧
  (∃ s, Rand.exec Z.of_nat 1 3 [Read 1; Write 2; Read 3; Read 4; Write 1] = Done s ∧
     Rand.get_total_disk_reads s = Rand.get_total_page_faults s).
Proof.
  destruct (disk_reads_equal_page_faults 3 [Read 1; Write 2; Read 3; Read 4; Write 1])
    as (Hclock & Hlru & Hrand); [lia|].
  split; [apply Hclock; simpl; lia|]. split; [exact Hlru|]. apply Hrand. lia.
Defined.

(** C2 — Clock, capacity of at least one frame: in every state reached by a
    trace, when a fault finds no free frame, the sweep of [_evict_clock]
    returns a victim after at least one and at most [2 * capacity]
    inspections, whatever the reference bits are. *)
Theorem clock_sweep_within_two_rounds (cap : Z) (trace : list access) (fuel : nat) :
  (1 ≤ cap)%Z → 2 * Z.to_nat cap ≤ fuel →
  ∃ s, Clock.exec fuel cap trace = Done s ∧
    (Clock._find_free_frame (Clock.count_fault s) = Done None →
     ∀ budget, 2 * Z.to_nat cap ≤ budget →
     ∃ v s' n,
       Clock.evict_sweep budget (Clock.count_fault s) = Done (Z.of_nat v, s', n) ∧
       Clock._evict_clock budget (Clock.count_fault s) = Done (Z.of_nat v, s') ∧
       1 ≤ n ≤ 2 * Z.to_nat cap ∧
       holds (Clock.frame_page s) v).
Proof.
  intros Hcap Hfuel.
  destruct (ClockFacts.clock_exec_spec fuel cap trace Hcap Hfuel) as (s & Hs & HI & Hc).
  exists s. split; [done|]. intros Hnone budget Hbudget.
  pose proof (ClockFacts.clock_count_fault_inv _ HI) as HI1.
  destruct (ClockFacts.clock_find_free_frame_spec _ HI1) as [[_ Hfull]|(i & Hsome & _)];
    [|congruence].
  destruct (ClockFacts.clock_evict_clock_spec (Clock.count_fault s) budget HI1 Hfull)
    as (v & p & s' & n & Hsweep & Hev & Hn & Hp & _).
  { simpl. by rewrite Hc. }
  simpl in Hn. rewrite Hc in Hn.
  exists v, s', n. split_and!; [done..|lia|lia|by exists p].
Qed.

Lemma clock_sweep_within_two_rounds_witness :
  ∃ s, Clock.exec 4 2 [Read 1; Read 2] = Done s ∧
    Clock._find_free_frame (Clock.count_fault s) = Done None ∧
    ∃ v s' n,
      Clock.evict_sweep 4 (Clock.count_fault s) = Done (Z.of_nat v, s', n) ∧
      Clock._evict_clock 4 (Clock.count_fault s) = Done (Z.of_nat v, s') ∧
      1 ≤ n ≤ 2 * Z.to_nat 2 ∧
      holds (Clock.frame_page s) v.
Proof.
  destruct (clock_sweep_within_two_rounds 2 [Read 1; Read 2] 4)
    as (s & Hs & Hsweep); [lia|simpl; lia|].
  exists s. split; [exact Hs|].
  assert (Clock._find_free_frame (Clock.count_fault s) = Done None) as Hfull.
  { vm_compute in Hs. injection Hs as <-. vm_compute. reflexivity. }
  split; [exact Hfull|]. apply (Hsweep Hfull). simpl. lia.
Defined.

(** C3 — LRU: in every state reached by a trace, when a fault finds no free
    frame, [_find_lru_victim] returns an occupied frame whose stamp is the
    least among the occupied frames, and the lowest-indexed one among those
    that carry that least stamp. *)
Theorem lru_victim_is_least_recent (cap : Z) (trace : list access) :
  (1 ≤ cap)%Z →
  ∃ s, Lru.exec cap trace = Done s ∧
    (Lru.free_frames s = [] →
     ∃ j tj,
       Lru._find_lru_victim (Lru.count_fault (Lru.tick s)) = Done (Z.of_nat j) ∧
       holds (Lru.frame_table s) j ∧
       Lru.access_time s !! j = Some tj ∧
       ∀ i t, holds (Lru.frame_table s) i → Lru.access_time s !! i = Some t →
         (tj ≤ t)%Z ∧ (t = tj → j ≤ i)).
Proof.
  intros Hcap.
  destruct (LruFacts.lru_exec_spec cap trace Hcap) as (s & Hs & HI & Hc).
  exists s. split; [done|]. intros Hfree.
  destruct (LruFacts.lru_find_lru_victim_spec (Lru.count_fault (Lru.tick s)))
    as (j & Hj & [Hocc (tj & Htj & Hmin)]); simpl; try apply HI.
  { intros i Hi. apply (free_shape_nil _ i); [|done].
    rewrite <- Hfree. apply HI. }
  exists j, tj. by split_and!.
Qed.

Lemma lru_victim_is_least_recent_witness :
  ∃ s, Lru.exec 2 [Read 1; Read 2; Read 1] = Done s ∧
    Lru.free_frames s = [] ∧
    ∃ j tj,
      Lru._find_lru_victim (Lru.count_fault (Lru.tick s)) = Done (Z.of_nat j) ∧
      holds (Lru.frame_table s) j ∧
      Lru.access_time s !! j = Some tj ∧
      ∀ i t, holds (Lru.frame_table s) i → Lru.access_time s !! i = Some t →
        (tj ≤ t)%Z ∧ (t = tj → j ≤ i).
Proof.
  destruct (lru_victim_is_least_recent 2 [Read 1; Read 2; Read 1])
    as (s & Hs & Hvictim); [lia|].
  exists s. split; [exact Hs|].
  assert (Lru.free_frames s = []) as Hfull.
  { vm_compute in Hs. injection Hs as <-. reflexivity. }
  split; [exact Hfull|]. exact (Hvictim Hfull).
Defined.

(** C4, as the specification states it, fails: no constructor checks its
    argument, so a capacity of zero (or a negative one) is accepted. *)
Lemma nonpositive_capacity_is_accepted :
  ¬ rejected (Clock.__init__ 0) ∧ ¬ rejected (Lru.__init__ 0) ∧
  ¬ rejected (Rand.__init__ (-1)).
Proof. split_and!; intros [e He]; discriminate He. Qed.

(** C4, amended — for every engine, a capacity of zero or less is accepted
    by the constructor, which returns an engine with no frame at all and all
    counters (page faults, disk reads, disk writes) at zero; the failure
    comes with the first access, read or write, which raises [IndexError]. *)
Theorem nonpositive_capacity_fails_on_first_access (cap : Z) (a : access) :
  (cap ≤ 0)%Z →
  (∃ s, Clock.__init__ cap = Done s ∧ Clock.frame_page s = [] ∧
     Clock.get_total_page_faults s = 0%Z ∧
     Clock.get_total_disk_reads s = 0%Z ∧
     Clock.get_total_disk_writes s = 0%Z ∧
     ∀ fuel, 1 ≤ fuel → Clock.step fuel a s = Raise IndexError) ∧
  (∃ s, Lru.__init__ cap = Done s ∧ Lru.frame_table s = [] ∧
     Lru.get_total_page_faults s = 0%Z ∧
     Lru.get_total_disk_reads s = 0%Z ∧
     Lru.get_total_disk_writes s = 0%Z ∧
     Lru.step a s = Raise IndexError) ∧
  (∃ s, Rand.__init__ cap = Done s ∧ Rand.frames s = [] ∧
     Rand.get_total_page_faults s = 0%Z ∧
     Rand.get_total_disk_reads s = 0%Z ∧
     Rand.get_total_disk_writes s = 0%Z ∧
     ∀ rng fuel, Rand.step rng fuel a s = Raise IndexError).
Proof.
  intros Hcap. split_and!; (eexists; split; [reflexivity|]); simpl;
    rewrite ?py_repeat_nonpos by done; do 4 (split; [done|]).
  - intros [|fuel] Hfuel; [lia|].
    destruct a; unfold Clock.step, Clock.read_memory, Clock.write_memory,
      Clock._access, Clock._find_free_frame; simpl;
      rewrite lookup_empty, py_range_nonpos by done; simpl;
      by rewrite ?py_get_nil.
  - destruct a; unfold Lru.step, Lru.read_memory, Lru.write_memory,
      Lru._handle_page_fault, Lru._find_lru_victim; simpl;
      rewrite lookup_empty, !py_range_nonpos by done; simpl;
      by rewrite ?py_get_nil.
  - intros rng fuel.
    destruct a; unfold Rand.step, Rand.read_memory, Rand.write_memory,
      Rand._access, Rand._choose_victim, Rand._evict; simpl;
      rewrite lookup_empty, py_range_nonpos by done; simpl;
      (rewrite ?decide_True by lia); simpl; by rewrite ?py_get_nil.
Qed.

Lemma nonpositive_capacity_fails_on_first_access_witness :
  (∃ s, Clock.__init__ 0 = Done s ∧ Clock.frame_page s = [] ∧
     Clock.get_total_page_faults s = 0%Z ∧
     Clock.get_total_disk_reads s = 0%Z ∧
     Clock.get_total_disk_writes s = 0%Z ∧
     ∀ fuel, 1 ≤ fuel → Clock.step fuel (Read 7) s = Raise IndexError) ∧
  (∃ s, Lru.__init__ 0 = Done s ∧ Lru.frame_table s = [] ∧
     Lru.get_total_page_faults s = 0%Z ∧
     Lru.get_total_disk_reads s = 0%Z ∧
     Lru.get_total_disk_writes s = 0%Z ∧
     Lru.step (Read 7) s = Raise IndexError) ∧
  (∃ s, Rand.__init__ 0 = Done s ∧ Rand.frames s = [] ∧
     Rand.get_total_page_faults s = 0%Z ∧
     Rand.get_total_disk_reads s = 0%Z ∧
     Rand.get_total_disk_writes s = 0%Z ∧
     ∀ rng fuel, Rand.step rng fuel (Read 7) s = Raise IndexError).
Proof. apply (nonpositive_capacity_fails_on_first_access 0 (Read 7)). lia. Defined.

(** C5 — the code departs from the claim: on a fault the LRU clock advances
    twice, once in [read_memory] and once more in [_handle_page_fault].  On a
    fresh one-frame engine, the first read leaves [current_time] at 2. *)
Theorem lru_fault_advances_clock_twice :
  ∃ s0 s1, Lru.__init__ 1 = Done s0 ∧ Lru.read_memory 1 s0 = Done s1 ∧
    Lru.current_time s0 = 0%Z ∧ Lru.current_time s1 = 2%Z.
Proof. do 2 eexists. split_and!; reflexivity. Qed.

(** C6 — Clock: in every state reached by a trace, when a fault finds no
    free frame, the state that [_evict_clock] returns (the new page is not
    installed yet) has the victim frame unoccupied, clean and with reference
    bit 0, and the page it held is no longer in the page-to-frame mapping. *)
Theorem clock_eviction_clears_victim (cap : Z) (trace : list access) (fuel : nat) :
  (1 ≤ cap)%Z → 2 * Z.to_nat cap ≤ fuel →
  ∃ s, Clock.exec fuel cap trace = Done s ∧
    (Clock._find_free_frame (Clock.count_fault s) = Done None →
     ∃ v p s',
       Clock._evict_clock fuel (Clock.count_fault s) = Done (Z.of_nat v, s') ∧
       Clock.frame_page s !! v = Some (Some p) ∧
       Clock.frame_page s' !! v = Some None ∧
       Clock.dirty s' !! v = Some false ∧
       Clock.ref s' !! v = Some 0%Z ∧
       Clock.page_to_frame s' !! p = None).
Proof.
  intros Hcap Hfuel.
  destruct (ClockFacts.clock_exec_spec fuel cap trace Hcap Hfuel) as (s & Hs & HI & Hc).
  exists s. split; [done|]. intros Hnone.
  pose proof (ClockFacts.clock_count_fault_inv _ HI) as HI1.
  destruct (ClockFacts.clock_find_free_frame_spec _ HI1) as [[_ Hfull]|(i & Hsome & _)];
    [|congruence].
  destruct (ClockFacts.clock_evict_clock_spec (Clock.count_fault s) fuel HI1 Hfull)
    as (v & p & s' & n & _ & Hev & _ & Hp & Hpost).
  { simpl. by rewrite Hc. }
  simpl in Hp. destruct Hpost. simpl in *.
  assert (v < Z.to_nat (Clock.frames_capacity s)) as Hlt.
  { rewrite <- (Clock.inv_len_fp _ HI). by eapply lookup_lt_Some. }
  exists v, p, s'. split_and!; [done..| | |done|].
  - rewrite ev_fp. apply list_lookup_insert_eq. by rewrite (Clock.inv_len_fp _ HI).
  - rewrite ev_dirty. apply list_lookup_insert_eq.
    by rewrite (Clock.inv_len_dirty _ HI).
  - rewrite ev_map. apply lookup_delete_eq.
Qed.

Lemma clock_eviction_clears_victim_witness :
  ∃ s, Clock.exec 4 2 [Read 1; Write 2] = Done s ∧
    Clock._find_free_frame (Clock.count_fault s) = Done None ∧
    ∃ v p s',
      Clock._evict_clock 4 (Clock.count_fault s) = Done (Z.of_nat v, s') ∧
      Clock.frame_page s !! v = Some (Some p) ∧
      Clock.frame_page s' !! v = Some None ∧
      Clock.dirty s' !! v = Some false ∧
      Clock.ref s' !! v = Some 0%Z ∧
      Clock.page_to_frame s' !! p = None.
Proof.
  destruct (clock_eviction_clears_victim 2 [Read 1; Write 2] 4)
    as (s & Hs & Hevict); [lia|simpl; lia|].
  exists s. split; [exact Hs|].
  assert (Clock._find_free_frame (Clock.count_fault s) = Done None) as Hfull.
  { vm_compute in Hs. injection Hs as <-. vm_compute. reflexivity. }
  split; [exact Hfull|]. exact (Hevict Hfull).
Defined.

(** C7 — Random: in every state reached by a trace, when a fault finds the
    free list empty, [_choose_victim] returns an occupied frame, whatever the
    random source; with a capacity of one frame it returns frame 0. *)
Theorem random_victim_is_occupied (cap : Z) (trace : list access)
    (rng : nat → Z) (fuel : nat) :
  (1 ≤ cap)%Z → 1 ≤ fuel →
  ∃ s, Rand.exec rng fuel cap trace = Done s ∧
    (Rand._free s = [] →
     ∀ (rng' : nat → Z) budget, 1 ≤ budget →
     ∃ v s',
       Rand._choose_victim rng' budget (Rand.count_fault s) = Done (Z.of_nat v, s') ∧
       holds (Rand.frames s) v ∧
       (cap = 1%Z → v = 0)).
Proof.
  intros Hcap Hfuel.
  destruct (RandFacts.rand_exec_spec rng fuel cap trace Hcap Hfuel) as (s & Hs & HI & Hc).
  exists s. split; [done|]. intros Hfree rng' budget Hbudget.
  destruct (RandFacts.rand_choose_victim_spec rng' budget (Rand.count_fault s))
    as (v & k & Hv & Hocc & Hone); simpl.
  - apply HI.
  - intros i Hi. by apply RandFacts.rand_inv_full.
  - done.
  - simpl in *. eexists v, _. split; [exact Hv|]. split; [done|].
    intros ->. by apply Hone.
Qed.

Lemma random_victim_is_occupied_witness :
  ∃ s, Rand.exec Z.of_nat 1 1 [Write 1] = Done s ∧
    Rand._free s = [] ∧
    ∃ v s',
      Rand._choose_victim (λ n, 5 + Z.of_nat n)%Z 1 (Rand.count_fault s)
        = Done (Z.of_nat v, s') ∧
      holds (Rand.frames s) v ∧
      (1%Z = 1%Z → v = 0).
Proof.
  destruct (random_victim_is_occupied 1 [Write 1] Z.of_nat 1)
    as (s & Hs & Hchoose); [lia|lia|].
  exists s. split; [exact Hs|].
  assert (Rand._free s = []) as Hfull.
  { vm_compute in Hs. injection Hs as <-. reflexivity. }
  split; [exact Hfull|]. apply (Hchoose Hfull). lia.
Defined.

(** C8 — for every engine, every capacity of at least one frame and every
    prefix of every trace: after the prefix, the resident pages are as many
    as the occupied frames, and never more than the capacity, which is the
    one given at construction. *)
Theorem resident_pages_within_capacity (cap : Z) (trace : list access) (k : nat) :
  (1 ≤ cap)%Z →
  (∀ fuel, 2 * Z.to_nat cap ≤ fuel →
     ∃ s, Clock.exec fuel cap (take k trace) = Done s ∧
       Clock.frames_capacity s = cap ∧
       size (Clock.page_to_frame s) = occupied (Clock.frame_page s) ∧
       occupied (Clock.frame_page s) ≤ Z.to_nat cap) ∧
  (∃ s, Lru.exec cap (take k trace) = Done s ∧
     Lru.frames s = cap ∧
     size (Lru.page_table s) = occupied (Lru.frame_table s) ∧
     occupied (Lru.frame_table s) ≤ Z.to_nat cap) ∧
  (∀ rng fuel, 1 ≤ fuel →
     ∃ s, Rand.exec rng fuel cap (take k trace) = Done s ∧
       Rand.num_frames s = cap ∧
       size (Rand.page_to_frame s) = occupied (Rand.frames s) ∧
       occupied (Rand.frames s) ≤ Z.to_nat cap).
Proof.
  intros Hcap. split_and!.
  - intros fuel Hfuel.
    destruct (ClockFacts.clock_exec_spec fuel cap (take k trace) Hcap Hfuel)
      as (s & Hs & HI & Hc).
    exists s. split_and!; [done..|apply (cons_size _ _ _ (Clock.inv_book _ HI))|].
    rewrite <- Hc, <- (Clock.inv_len_fp _ HI). apply occupied_le_length.
  - destruct (LruFacts.lru_exec_spec cap (take k trace) Hcap) as (s & Hs & HI & Hc).
    exists s. split_and!; [done..|apply (cons_size _ _ _ (Lru.inv_book _ HI))|].
    rewrite <- Hc, <- (Lru.inv_len_ft _ HI). apply occupied_le_length.
  - intros rng fuel Hfuel.
    destruct (RandFacts.rand_exec_spec rng fuel cap (take k trace) Hcap Hfuel)
      as (s & Hs & HI & Hc).
    exists s. split_and!; [done..|apply (cons_size _ _ _ (Rand.inv_book _ HI))|].
    rewrite <- Hc, <- (Rand.inv_len _ HI). apply occupied_le_length.
Qed.

Lemma resident_pages_within_capacity_witness :
  (∃ s, Clock.exec 4 2 (take 3 [Read 1; Write 2; Read 3; Read 1]) = Done s ∧
     Clock.frames_capacity s = 2%Z ∧
     size (Clock.page_to_frame s) = occupied (Clock.frame_page s) ∧
     occupied (Clock.frame_page s) ≤ Z.to_nat 2) ∧
  (∃ s, Lru.exec 2 (take 3 [Read 1; Write 2; Read 3; Read 1]) = Done s ∧
     Lru.frames s = 2%Z ∧
     size (Lru.page_table s) = occupied (Lru.frame_table s) ∧
     occupied (Lru.frame_table s) ≤ Z.to_nat 2) ∧
  (∃ s, Rand.exec Z.of_nat 1 2 (take 3 [Read 1; Write 2; Read 3; Read 1]) = Done s ∧
     Rand.num_frames s = 2%Z ∧
     size (Rand.page_to_frame s) = occupied (Rand.frames s) ∧
     occupied (Rand.frames s) ≤ Z.to_nat 2).
Proof.
  destruct (resident_pages_within_capacity 2 [Read 1; Write 2; Read 3; Read 1] 3)
    as (Hclock & Hlru & Hrand); [lia|].
  split; [apply Hclock; simpl; lia|]. split; [exact Hlru|]. apply Hrand. lia.
Defined.

(** C9 — for every engine, in every state reached by a trace, an access
    to a resident page returns and leaves the three counters, the occupancy
    and page of every frame and the page-to-frame mapping as they were; it
    can only change the dirty flag and the recency data of the frame that
    holds the page (for LRU, its stamp, taken from the clock that the access
    advances).  Hence any number of reads of that page leaves the three
    counters unchanged. *)
Theorem hit_changes_only_frame_metadata (cap : Z) (trace : list access)
    (a : access) (N : nat) :
  (1 ≤ cap)%Z →
  (∀ fuel, 2 * Z.to_nat cap ≤ fuel →
     ∃ s, Clock.exec fuel cap trace = Done s ∧
       (is_Some (Clock.page_to_frame s !! access_page a) →
        (∃ i s', Clock.step fuel a s = Done s' ∧
           Clock.frame_page s !! i = Some (Some (access_page a)) ∧
           Clock.hit_effect s i (access_is_write a) s') ∧
        (∃ s', Clock.run fuel (replicate N (Read (access_page a))) s = Done s' ∧
           Clock.get_total_page_faults s' = Clock.get_total_page_faults s ∧
           Clock.get_total_disk_reads s' = Clock.get_total_disk_reads s ∧
           Clock.get_total_disk_writes s' = Clock.get_total_disk_writes s))) ∧
  (∃ s, Lru.exec cap trace = Done s ∧
     (is_Some (Lru.page_table s !! access_page a) →
      (∃ i s', Lru.step a s = Done s' ∧
         Lru.frame_table s !! i = Some (Some (access_page a)) ∧
         Lru.hit_effect s i (access_is_write a) s') ∧
      (∃ s', Lru.run (replicate N (Read (access_page a))) s = Done s' ∧
         Lru.get_total_page_faults s' = Lru.get_total_page_faults s ∧
         Lru.get_total_disk_reads s' = Lru.get_total_disk_reads s ∧
         Lru.get_total_disk_writes s' = Lru.get_total_disk_writes s))) ∧
  (∀ rng fuel, 1 ≤ fuel →
     ∃ s, Rand.exec rng fuel cap trace = Done s ∧
       (is_Some (Rand.page_to_frame s !! access_page a) →
        (∃ i s', Rand.step rng fuel a s = Done s' ∧
           (∃ en, Rand.frames s !! i = Some (Some en) ∧
              Rand.page en = access_page a) ∧
           Rand.hit_effect s i (access_is_write a) s') ∧
        (∃ s', Rand.run rng fuel (replicate N (Read (access_page a))) s = Done s' ∧
           Rand.get_total_page_faults s' = Rand.get_total_page_faults s ∧
           Rand.get_total_disk_reads s' = Rand.get_total_disk_reads s ∧
           Rand.get_total_disk_writes s' = Rand.get_total_disk_writes s))).
Proof.
  intros Hcap. split_and!.
  - intros fuel Hfuel.
    destruct (ClockFacts.clock_exec_spec fuel cap trace Hcap Hfuel) as (s & Hs & HI & _).
    exists s. split; [done|]. intros [f Hf]. split.
    + destruct (ClockFacts.clock_access_hit_spec fuel s (access_page a)
                  (access_is_write a) f HI Hf) as (i & s' & _ & Hi & Hrun & Hhit & _).
      exists i, s'. split_and!; [by destruct a|done..].
    + apply ClockFacts.clock_repeat_hit_spec; [done|by exists f].
  - destruct (LruFacts.lru_exec_spec cap trace Hcap) as (s & Hs & HI & _).
    exists s. split; [done|]. intros [f Hf]. split.
    + destruct (LruFacts.lru_access_hit_spec s (access_page a)
                  (access_is_write a) f HI Hf) as (i & s' & _ & Hi & Hrun & Hhit & _).
      exists i, s'. split_and!; [by rewrite LruFacts.lru_step_access|done..].
    + apply LruFacts.lru_repeat_hit_spec; [done|by exists f].
  - intros rng fuel Hfuel.
    destruct (RandFacts.rand_exec_spec rng fuel cap trace Hcap Hfuel) as (s & Hs & HI & _).
    exists s. split; [done|]. intros [f Hf]. split.
    + destruct (RandFacts.rand_access_hit_spec rng fuel s (access_page a)
                  (access_is_write a) f HI Hf) as (i & s' & _ & Hi & Hrun & Hhit & _).
      exists i, s'. split_and!; [by destruct a|done..].
    + apply RandFacts.rand_repeat_hit_spec; [done|by exists f].
Qed.

Lemma hit_changes_only_frame_metadata_witness :
  (∃ s, Clock.exec 4 2 [Read 1; Read 2] = Done s ∧
     is_Some (Clock.page_to_frame s !! 1%Z) ∧
     (∃ i s', Clock.step 4 (Write 1) s = Done s' ∧
        Clock.frame_page s !! i = Some (Some 1%Z) ∧
        Clock.hit_effect s i true s') ∧
     (∃ s', Clock.run 4 (replicate 3 (Read 1)) s = Done s' ∧
        Clock.get_total_page_faults s' = Clock.get_total_page_faults s ∧
        Clock.get_total_disk_reads s' = Clock.get_total_disk_reads s ∧
        Clock.get_total_disk_writes s' = Clock.get_total_disk_writes s)) ∧
  (∃ s, Lru.exec 2 [Read 1; Read 2] = Done s ∧
     is_Some (Lru.page_table s !! 1%Z) ∧
     (∃ i s', Lru.step (Write 1) s = Done s' ∧
        Lru.frame_table s !! i = Some (Some 1%Z) ∧
        Lru.hit_effect s i true s') ∧
     (∃ s', Lru.run (replicate 3 (Read 1)) s = Done s' ∧
        Lru.get_total_page_faults s' = Lru.get_total_page_faults s ∧
        Lru.get_total_disk_reads s' = Lru.get_total_disk_reads s ∧
        Lru.get_total_disk_writes s' = Lru.get_total_disk_writes s)) ∧
  (∃ s, Rand.exec Z.of_nat 1 2 [Read 1; Read 2] = Done s ∧
     is_Some (Rand.page_to_frame s !! 1%Z) ∧
     (∃ i s', Rand.step Z.of_nat 1 (Write 1) s = Done s' ∧
        (∃ en, Rand.frames s !! i = Some (Some en) ∧ Rand.page en = 1%Z) ∧
        Rand.hit_effect s i true s') ∧
     (∃ s', Rand.run Z.of_nat 1 (replicate 3 (Read 1)) s = Done s' ∧
        Rand.get_total_page_faults s' = Rand.get_total_page_faults s ∧
        Rand.get_total_disk_reads s' = Rand.get_total_disk_reads s ∧
        Rand.get_total_disk_writes s' = Rand.get_total_disk_writes s)).
Proof.
  destruct (hit_changes_only_frame_metadata 2 [Read 1; Read 2] (Write 1) 3)
    as (Hclock & Hlru & Hrand); [lia|].
  split; [|split].
  - destruct (Hclock 4) as (s & Hs & Hhit); [simpl; lia|].
    exists s. split; [exact Hs|].
    assert (is_Some (Clock.page_to_frame s !! 1%Z)) as Hres.
    { vm_compute in Hs. injection Hs as <-. vm_compute. eexists. reflexivity. }
    split; [exact Hres|]. exact (Hhit Hres).
  - destruct Hlru as (s & Hs & Hhit).
    exists s. split; [exact Hs|].
    assert (is_Some (Lru.page_table s !! 1%Z)) as Hres.
    { vm_compute in Hs. injection Hs as <-. vm_compute. eexists. reflexivity. }
    split; [exact Hres|]. exact (Hhit Hres).
  - destruct (Hrand Z.of_nat 1) as (s & Hs & Hhit); [lia|].
    exists s. split; [exact Hs|].
    assert (is_Some (Rand.page_to_frame s !! 1%Z)) as Hres.
    { vm_compute in Hs. injection Hs as <-. vm_compute. eexists. reflexivity. }
    split; [exact Hres|]. exact (Hhit Hres).
Defined.

(** C10 — for every engine, an access never lowers the number of occupied
    frames: every frame occupied before the access is occupied after it
    (an evicted frame is refilled within the same call), so the count of
    occupied frames cannot decrease, and a full memory stays full. *)
Theorem occupied_frames_never_decrease (cap : Z) (trace : list access) (a : access) :
  (1 ≤ cap)%Z →
  (∀ fuel, 2 * Z.to_nat cap ≤ fuel →
     ∃ s s', Clock.exec fuel cap trace = Done s ∧ Clock.step fuel a s = Done s' ∧
       (∀ i, holds (Clock.frame_page s) i → holds (Clock.frame_page s') i) ∧
       occupied (Clock.frame_page s) ≤ occupied (Clock.frame_page s') ∧
       (occupied (Clock.frame_page s) = Z.to_nat cap →
        occupied (Clock.frame_page s') = Z.to_nat cap)) ∧
  (∃ s s', Lru.exec cap trace = Done s ∧ Lru.step a s = Done s' ∧
     (∀ i, holds (Lru.frame_table s) i → holds (Lru.frame_table s') i) ∧
     occupied (Lru.frame_table s) ≤ occupied (Lru.frame_table s') ∧
     (occupied (Lru.frame_table s) = Z.to_nat cap →
      occupied (Lru.frame_table s') = Z.to_nat cap)) ∧
  (∀ rng fuel, 1 ≤ fuel →
     ∃ s s', Rand.exec rng fuel cap trace = Done s ∧ Rand.step rng fuel a s = Done s' ∧
       (∀ i, holds (Rand.frames s) i → holds (Rand.frames s') i) ∧
       occupied (Rand.frames s) ≤ occupied (Rand.frames s') ∧
       (occupied (Rand.frames s) = Z.to_nat cap →
        occupied (Rand.frames s') = Z.to_nat cap)).
Proof.
  intros Hcap. split_and!.
  - intros fuel Hfuel.
    destruct (ClockFacts.clock_exec_spec fuel cap trace Hcap Hfuel) as (s & Hs & HI & Hc).
    destruct (ClockFacts.clock_access_spec fuel s (access_page a) (access_is_write a) HI)
      as (s' & Hstep & HI' & Hc' & Hocc); [by rewrite Hc|].
    exists s, s'. split; [done|]. split; [by destruct a|]. split; [done|].
    apply occupied_step; [|  |done].
    + by rewrite (Clock.inv_len_fp _ HI), Hc.
    + by rewrite (Clock.inv_len_fp _ HI'), Hc', Hc.
  - destruct (LruFacts.lru_exec_spec cap trace Hcap) as (s & Hs & HI & Hc).
    destruct (LruFacts.lru_access_spec s (access_page a) (access_is_write a) HI)
      as (s' & Hstep & HI' & Hc' & Hocc).
    exists s, s'. split; [done|]. split; [by rewrite LruFacts.lru_step_access|].
    split; [done|]. apply occupied_step; [|  |done].
    + by rewrite (Lru.inv_len_ft _ HI), Hc.
    + by rewrite (Lru.inv_len_ft _ HI'), Hc', Hc.
  - intros rng fuel Hfuel.
    destruct (RandFacts.rand_exec_spec rng fuel cap trace Hcap Hfuel) as (s & Hs & HI & Hc).
    destruct (RandFacts.rand_access_spec rng fuel s (access_page a) (access_is_write a) HI)
      as (s' & Hstep & HI' & Hc' & Hocc); [done|].
    exists s, s'. split; [done|]. split; [by destruct a|]. split; [done|].
    apply occupied_step; [|  |done].
    + by rewrite (Rand.inv_len _ HI), Hc.
    + by rewrite (Rand.inv_len _ HI'), Hc', Hc.
Qed.

Lemma occupied_frames_never_decrease_witness :
  (∃ s s', Clock.exec 4 2 [Read 1; Write 2] = Done s ∧
     Clock.step 4 (Read 3) s = Done s' ∧
     (∀ i, holds (Clock.frame_page s) i → holds (Clock.frame_page s') i) ∧
     occupied (Clock.frame_page s) ≤ occupied (Clock.frame_page s') ∧
     (occupied (Clock.frame_page s) = Z.to_nat 2 →
      occupied (Clock.frame_page s') = Z.to_nat 2)) ∧
  (∃ s s', Lru.exec 2 [Read 1; Write 2] = Done s ∧ Lru.step (Read 3) s = Done s' ∧
     (∀ i, holds (Lru.frame_table s) i → holds (Lru.frame_table s') i) ∧
     occupied (Lru.frame_table s) ≤ occupied (Lru.frame_table s') ∧
     (occupied (Lru.frame_table s) = Z.to_nat 2 →
      occupied (Lru.frame_table s') = Z.to_nat 2)) ∧
  (∃ s s', Rand.exec Z.of_nat 1 2 [Read 1; Write 2] = Done s ∧
     Rand.step Z.of_nat 1 (Read 3) s = Done s' ∧
     (∀ i, holds (Rand.frames s) i → holds (Rand.frames s') i) ∧
     occupied (Rand.frames s) ≤ occupied (Rand.frames s') ∧
     (occupied (Rand.frames s) = Z.to_nat 2 →
      occupied (Rand.frames s') = Z.to_nat 2)).
Proof.
  destruct (occupied_frames_never_decrease 2 [Read 1; Write 2] (Read 3))
    as (Hclock & Hlru & Hrand); [lia|].
  split; [apply Hclock; simpl; lia|]. split; [exact Hlru|]. apply Hrand. lia.
Defined.

(** * Further properties of the engines *)

(** ** What holds of every engine, whatever its policy *)

Module ViewFacts.
Import View.

Lemma dirty_count_insert l i o o' :
  l !! i = Some o →
  dirty_count (<[i:=o']> l) + flag o = dirty_count l + flag o'.
Proof.
  revert i. induction l as [|x l IH]; intros [|i]; simpl; try done.
  - intros [= ->]. destruct o as [[? []]|], o' as [[? []]|]; simpl; lia.
  - intros Hi. specialize (IH i Hi). destruct x as [[? []]|]; simpl; lia.
Qed.

Lemma occupied_insert l i o o' :
  l !! i = Some o →
  occupied (<[i:=o']> l) + used o = occupied l + used o'.
Proof.
  revert i. induction l as [|x l IH]; intros [|i]; simpl; try done.
  - intros [= ->]. destruct o, o'; simpl; lia.
  - intros Hi. specialize (IH i Hi). destruct x; simpl; lia.
Qed.

Lemma dirty_count_replicate n : dirty_count (replicate n None) = 0.
Proof. induction n; simpl; done. Qed.

Lemma occupied_all {A} (l : list (option A)) :
  (∀ i, i < length l → holds l i) → occupied l = length l.
Proof.
  induction l as [|o l IH]; simpl; [done|]. intros H.
  destruct (H 0) as [x Hx]; [lia|]. simpl in Hx. injection Hx as ->.
  f_equal. apply IH. intros i Hi. apply (H (S i)). lia.
Qed.

Lemma writes_in_snoc tr a :
  writes_in (tr ++ [a]) = writes_in tr + (if access_is_write a then 1 else 0).
Proof.
  induction tr as [|b tr IH]; simpl.
  - destruct a; simpl; lia.
  - destruct b; simpl; lia.
Qed.

Lemma pages_of_snoc tr a : pages_of (tr ++ [a]) = pages_of tr ∪ {[access_page a]}.
Proof.
  unfold pages_of. rewrite fmap_app, list_to_set_app_L. simpl.
  by rewrite union_empty_r_L.
Qed.

Lemma vstep_length page w a a' :
  vstep page w a a' → length (frames a') = length (frames a).
Proof. intros []; simpl; by rewrite length_insert. Qed.

Lemma reach_length n tr v : reach n tr v → length (frames v) = n.
Proof.
  induction 1 as [|tr a v v' _ IH Hstep]; simpl.
  - apply length_replicate.
  - by rewrite (vstep_length _ _ _ _ Hstep).
Qed.

(** After an access its page is resident. *)
Lemma vstep_resident page w a a' : vstep page w a a' → resident a' page.
Proof.
  intros [i d Hi|i Hfresh Hi|i p d Hfresh Hfull Hi]; simpl;
    exists i; eexists; simpl; apply list_lookup_insert_eq; by eapply lookup_lt_Some.
Qed.

(** The counters of a view reached by [tr]. *)
Lemma reach_counters n tr v :
  reach n tr v →
  reads v = faults v ∧
  (0 ≤ writes v)%Z ∧
  (faults v ≤ Z.of_nat (length tr))%Z ∧
  (writes v + Z.of_nat (occupied (frames v)) ≤ faults v)%Z ∧
  (writes v + Z.of_nat (dirty_count (frames v)) ≤ Z.of_nat (writes_in tr))%Z.
Proof.
  induction 1 as [|tr a v v' _ (IHr & IH0 & IHf & IHo & IHd) Hstep].
  - simpl. rewrite occupied_replicate_None, dirty_count_replicate. lia.
  - rewrite length_app, writes_in_snoc. simpl.
    destruct Hstep as [i d Hi|i Hfresh Hi|i p d Hfresh Hfull Hi]; simpl.
    + pose proof (occupied_insert _ _ _ (Some (access_page a, d || access_is_write a)) Hi).
      pose proof (dirty_count_insert _ _ _ (Some (access_page a, d || access_is_write a)) Hi).
      destruct d, (access_is_write a); simpl in *; lia.
    + pose proof (occupied_insert _ _ _ (Some (access_page a, access_is_write a)) Hi).
      pose proof (dirty_count_insert _ _ _ (Some (access_page a, access_is_write a)) Hi).
      destruct (access_is_write a); simpl in *; lia.
    + pose proof (occupied_insert _ _ _ (Some (access_page a, access_is_write a)) Hi).
      pose proof (dirty_count_insert _ _ _ (Some (access_page a, access_is_write a)) Hi).
      destruct d, (access_is_write a); simpl in *; lia.
Qed.

Lemma insert_one_frame (l : list (option (Z * bool))) i pg b :
  (∀ i j p d d', l !! i = Some (Some (p, d)) → l !! j = Some (Some (p, d')) → i = j) →
  (∀ k e, l !! k = Some (Some (pg, e)) → k = i) →
  ∀ k1 k2 p d d', <[i:=Some (pg, b)]> l !! k1 = Some (Some (p, d)) →
    <[i:=Some (pg, b)]> l !! k2 = Some (Some (p, d')) → k1 = k2.
Proof.
  intros Hone Hpg k1 k2 p d d' H1 H2.
  apply list_lookup_insert_Some in H1 as [(<- & Heq1 & _)|[Hne1 H1]];
    apply list_lookup_insert_Some in H2 as [(<- & Heq2 & _)|[Hne2 H2]];
    simplify_eq; try done.
  - symmetry. by eapply Hpg.
  - by eapply Hpg.
  - by eapply Hone.
Qed.

(** Only pages of the trace are resident, each in one frame. *)
Lemma reach_resident n tr v :
  reach n tr v →
  (∀ p, resident v p → p ∈ pages_of tr) ∧
  (∀ i j p d d', frames v !! i = Some (Some (p, d)) →
     frames v !! j = Some (Some (p, d')) → i = j).
Proof.
  induction 1 as [|tr a v v' _ [IHin IHone] Hstep].
  - split.
    + intros p (i & d & [[=] _]%lookup_replicate).
    + intros i j p d d' [[=] _]%lookup_replicate.
  - rewrite pages_of_snoc. split.
    + intros q (k & e & Hk).
      assert (q = access_page a ∨ resident v q) as [->|Hq].
      { destruct Hstep as [i d Hi|i Hfresh Hi|i p d Hfresh Hfull Hi]; simpl in Hk;
          apply list_lookup_insert_Some in Hk as [(<- & Heq & _)|[Hne Hk]];
          simplify_eq; (by left) || (right; by exists k, e). }
      * apply elem_of_union_r. by apply elem_of_singleton.
      * by apply elem_of_union_l, IHin.
    + destruct Hstep as [i d Hi|i Hfresh Hi|i p d Hfresh Hfull Hi]; simpl;
        apply insert_one_frame; try done.
      * intros k e Hk. by eapply IHone.
      * intros k e Hk. exfalso. apply Hfresh. by exists k, e.
      * intros k e Hk. exfalso. apply Hfresh. by exists k, e.
Qed.

(** While the pages of the trace fit in the frames, every one of them is
    resident, each access to a new page is the only kind of fault, and
    nothing is written back. *)
Lemma reach_cold n tr v :
  reach n tr v → size (pages_of tr) ≤ n →
  (∀ p, p ∈ pages_of tr → resident v p) ∧
  occupied (frames v) = size (pages_of tr) ∧
  faults v = Z.of_nat (size (pages_of tr)) ∧
  writes v = 0%Z.
Proof.
  induction 1 as [|tr a v v' Hreach IH Hstep].
  - intros _. change (pages_of []) with (∅ : gset Z). rewrite size_empty.
    cbn [initial frames faults writes]. rewrite occupied_replicate_None.
    split; [|done]. intros p Hp. by apply elem_of_empty in Hp.
  - rewrite pages_of_snoc. intros Hsize.
    assert (size (pages_of tr) ≤ size (pages_of tr ∪ {[access_page a]})) as Hle.
    { apply subseteq_size, union_subseteq_l. }
    destruct IH as (IHres & IHocc & IHf & IHw); [lia|].
    pose proof (reach_resident _ _ _ Hreach) as [Hin _].
    pose proof (reach_length _ _ _ Hreach) as Hlen.
    destruct Hstep as [i d Hi|i Hfresh Hi|i p d Hfresh Hfull Hi]; simpl.
    + assert (access_page a ∈ pages_of tr) as Hold.
      { apply Hin. by exists i, d. }
      assert (pages_of tr ∪ {[access_page a]} = pages_of tr) as ->.
      { rewrite (comm_L (∪)). apply subseteq_union_1_L.
        by apply singleton_subseteq_l. }
      pose proof (occupied_insert _ _ _ (Some (access_page a, d || access_is_write a)) Hi)
        as Hocc. simpl in Hocc.
      split_and!; [|lia|done..].
      intros q Hq. destruct (IHres q Hq) as (k & e & Hk).
      destruct (decide (i = k)) as [<-|Hne].
      * exists i. eexists. simplify_eq. apply list_lookup_insert_eq.
        by eapply lookup_lt_Some.
      * exists k, e. simpl. by rewrite list_lookup_insert_ne.
    + assert (access_page a ∉ pages_of tr) as Hnew.
      { intros Hold. by apply Hfresh, IHres. }
      rewrite size_union by (by apply disjoint_singleton_r).
      rewrite size_singleton.
      pose proof (occupied_insert _ _ _ (Some (access_page a, access_is_write a)) Hi)
        as Hocc. simpl in Hocc.
      split_and!; [|lia|lia|done].
      intros q [Hq|Hq%elem_of_singleton]%elem_of_union.
      * destruct (IHres q Hq) as (k & e & Hk). exists k, e. simpl.
        rewrite list_lookup_insert_ne; [done|]. intros ->. by rewrite Hi in Hk.
      * subst q. exists i. eexists. apply list_lookup_insert_eq.
        by eapply lookup_lt_Some.
    + assert (access_page a ∉ pages_of tr) as Hnew.
      { intros Hold. by apply Hfresh, IHres. }
      rewrite size_union in Hsize by (by apply disjoint_singleton_r).
      rewrite size_singleton in Hsize.
      pose proof (occupied_all _ Hfull). lia.
Qed.

(** With a single frame there is nothing to choose: the view after an
    access is determined. *)
Lemma vstep_one_frame page w a a1 a2 :
  length (frames a) = 1 → vstep page w a a1 → vstep page w a a2 → a1 = a2.
Proof.
  intros Hlen H1 H2.
  assert (∀ i o, frames a !! i = Some o → i = 0) as Hzero.
  { intros i o Hi%lookup_lt_Some. lia. }
  destruct H1 as [i d Hi|i Hfresh Hi|i p d Hfresh Hfull Hi];
    destruct H2 as [i' d' Hi'|i' Hfresh' Hi'|i' p' d' Hfresh' Hfull' Hi'];
    pose proof (Hzero _ _ Hi); pose proof (Hzero _ _ Hi'); subst i i';
    first [ by (rewrite Hi in Hi'; simplify_eq)
          | by (exfalso; apply Hfresh; eexists 0, _)
          | by (exfalso; apply Hfresh'; eexists 0, _) ].
Qed.

Lemma reach_one_frame tr : ∀ v v', reach 1 tr v → reach 1 tr v' → v = v'.
Proof.
  induction tr as [|a tr IH] using rev_ind; intros v v' H1 H2.
  - inversion H1 as [|tr1 a1 u1 ? ? ? Heq1]; [|by destruct tr1].
    inversion H2 as [|tr2 a2 u2 ? ? ? Heq2]; [done|by destruct tr2].
  - inversion H1 as [Heq1|tr1 a1 u1 ? Hr1 Hs1 Heq1]; [by destruct tr|].
    inversion H2 as [Heq2|tr2 a2 u2 ? Hr2 Hs2 Heq2]; [by destruct tr|].
    apply app_inj_tail in Heq1 as [-> ->]. apply app_inj_tail in Heq2 as [-> ->].
    assert (u1 = u2) as -> by (by apply IH).
    eapply vstep_one_frame; [|done..]. by eapply reach_length.
Qed.

(** The three steps, for a view given by its components. *)
Lemma vstep_hit_to page w a a' i d :
  frames a !! i = Some (Some (page, d)) →
  frames a' = <[i:=Some (page, d || w)]> (frames a) →
  faults a' = faults a → reads a' = reads a → writes a' = writes a →
  vstep page w a a'.
Proof.
  destruct a' as [fr pf dr dw]. simpl. intros Hi -> -> -> ->. by constructor.
Qed.

Lemma vstep_fill_to page w a a' i :
  ¬ resident a page → frames a !! i = Some None →
  frames a' = <[i:=Some (page, w)]> (frames a) →
  faults a' = (faults a + 1)%Z → reads a' = (reads a + 1)%Z →
  writes a' = writes a →
  vstep page w a a'.
Proof.
  destruct a' as [fr pf dr dw]. simpl. intros Hfresh Hi -> -> -> ->.
  by constructor.
Qed.

Lemma vstep_evict_to page w a a' i p (d : bool) :
  ¬ resident a page →
  (∀ j, j < length (frames a) → holds (frames a) j) →
  frames a !! i = Some (Some (p, d)) →
  frames a' = <[i:=Some (page, w)]> (frames a) →
  faults a' = (faults a + 1)%Z → reads a' = (reads a + 1)%Z →
  writes a' = (if d then (writes a + 1)%Z else writes a) →
  vstep page w a a'.
Proof.
  destruct a' as [fr pf dr dw]. simpl. intros Hfresh Hfull Hi -> -> -> ->.
  by econstructor.
Qed.

(** Two parallel arrays as one array of frames. *)
Lemma zip_frames_length fp dl :
  length dl = length fp → length (zip_frames fp dl) = length fp.
Proof. intros Hlen. unfold zip_frames. rewrite length_zip_with. lia. Qed.

Lemma zip_frames_lookup fp dl i o d :
  fp !! i = Some o → dl !! i = Some d →
  zip_frames fp dl !! i = Some ((λ p, (p, d)) <$> o).
Proof.
  intros Ho Hd. unfold zip_frames. rewrite lookup_zip_with, Ho. simpl.
  by rewrite Hd.
Qed.

Lemma zip_frames_lookup_inv fp dl i p d :
  zip_frames fp dl !! i = Some (Some (p, d)) →
  fp !! i = Some (Some p) ∧ dl !! i = Some d.
Proof.
  unfold zip_frames. intros (o & e & Heq & Ho & He)%lookup_zip_with_Some.
  destruct o as [q|]; simpl in Heq; [|done]. by injection Heq as -> ->.
Qed.

Lemma zip_frames_insert fp dl i p d :
  zip_frames (<[i:=Some p]> fp) (<[i:=d]> dl) = <[i:=Some (p, d)]> (zip_frames fp dl).
Proof. unfold zip_frames. by rewrite <- insert_zip_with. Qed.

Lemma zip_frames_full fp dl :
  length dl = length fp →
  (∀ i, i < length fp → holds fp i) →
  ∀ j, j < length (zip_frames fp dl) → holds (zip_frames fp dl) j.
Proof.
  intros Hlen Hfull j Hj. rewrite zip_frames_length in Hj by done.
  destruct (Hfull j Hj) as [p Hp].
  destruct (lookup_lt_is_Some_2 dl j) as [d Hd]; [lia|].
  exists (p, d). by rewrite (zip_frames_lookup _ _ _ _ _ Hp Hd).
Qed.

Lemma zip_frames_replicate n d :
  zip_frames (replicate n None) (replicate n d) = replicate n None.
Proof. induction n as [|n IH]; simpl; [done|]. unfold zip_frames in *. simpl. by rewrite IH. Qed.

Lemma bind_Done {A} (m : result A) : m ≫= Done = m.
Proof. by destruct m. Qed.

Lemma zip_frames_occupied fp : ∀ dl,
  length dl = length fp → occupied (zip_frames fp dl) = occupied fp.
Proof.
  induction fp as [|o fp IH]; intros [|d dl] Hlen; simpl in *; try done.
  rewrite <- (IH dl) by lia. by destruct o.
Qed.

End ViewFacts.

(** ** Clock: the sweep, step by step *)

Module ClockSweepFacts.
Import Clock ClockRef.

Lemma mod_shift_ne cap h e : 0 < e < cap → (h + e) mod cap ≠ h mod cap.
Proof.
  intros He Heq.
  pose proof (Nat.div_mod_eq (h + e) cap) as H1.
  pose proof (Nat.div_mod_eq h cap) as H0.
  rewrite Heq in H1.
  assert ((h + e) / cap = h / cap ∨ (h + e) / cap < h / cap ∨ h / cap < (h + e) / cap)
    as [Hq|[Hq|Hq]] by lia; nia.
Qed.

Lemma hand_next cap h :
  0 < cap →
  ((Z.of_nat (h mod cap) + 1) mod Z.of_nat cap)%Z = Z.of_nat (S h mod cap).
Proof.
  intros Hcap. rewrite !Nat2Z.inj_mod, Nat2Z.inj_succ.
  rewrite <- Z.add_1_r. by rewrite Zplus_mod_idemp_l.
Qed.

Lemma set_run_insert_other cap j r n : ∀ h,
  (∀ d, d < n → (h + d) mod cap ≠ j) →
  set_run n cap h (<[j:=0%Z]> r) = set_run n cap h r.
Proof.
  induction n as [|n IH]; intros h Hne; simpl; [done|].
  rewrite list_lookup_insert_ne.
  2: { specialize (Hne 0). rewrite Nat.add_0_r in Hne. intros Heq. apply Hne; [lia|done]. }
  destruct (r !! (h mod cap)) as [x|]; [|done]. case_decide; [done|].
  f_equal. apply IH. intros d Hd. replace (S h + d) with (h + S d) by lia.
  apply Hne. lia.
Qed.

Lemma set_run_le n cap h r : set_run n cap h r ≤ n.
Proof.
  revert h. induction n as [|n IH]; intros h; simpl; [done|].
  destruct (r !! (h mod cap)) as [x|]; [|lia]. case_decide; [lia|].
  specialize (IH (S h)). lia.
Qed.

Lemma clear_run_length m cap r : ∀ h, length (clear_run m cap h r) = length r.
Proof.
  revert r. induction m as [|m IH]; intros r h; simpl; [done|].
  by rewrite IH, length_insert.
Qed.

(** One inspection of an occupied frame whose reference bit is 0. *)
Lemma sweep_evicts_now fuel s h p (d : bool) :
  (1 ≤ frames_capacity s)%Z → hand s = Z.of_nat h →
  frame_page s !! h = Some (Some p) → ref s !! h = Some 0%Z →
  dirty s !! h = Some d → page_to_frame s !! p = Some (Z.of_nat h) →
  evict_sweep (S fuel) s =
    Done (Z.of_nat h,
          mk (frames_capacity s) (_page_faults s) (_disk_reads s)
             (if d then (_disk_writes s + 1)%Z else _disk_writes s)
             (<[h:=None]> (frame_page s)) (<[h:=false]> (dirty s)) (ref s)
             (delete p (page_to_frame s))
             ((Z.of_nat h + 1) mod frames_capacity s)%Z,
          1).
Proof.
  intros Hcap Hh Hp Hr Hd Hmap. simpl. rewrite Hh.
  rewrite (py_get_nat _ _ _ Hp). simpl. rewrite (py_get_nat _ _ _ Hr). simpl.
  rewrite (py_get_nat _ _ _ Hd). simpl. unfold py_del. rewrite Hmap. simpl.
  rewrite !py_set_nat by (by eapply lookup_lt_Some). simpl.
  rewrite ClockFacts.clock_advance_hand_spec by done. done.
Qed.

(** One inspection of an occupied frame whose reference bit is set. *)
Lemma sweep_second_chance fuel s h p x :
  (1 ≤ frames_capacity s)%Z → hand s = Z.of_nat h →
  frame_page s !! h = Some (Some p) → ref s !! h = Some x → x ≠ 0%Z →
  evict_sweep (S fuel) s =
    '(v, s', n) ← evict_sweep fuel
        (set_hand (set_ref s (<[h:=0%Z]> (ref s)))
           ((Z.of_nat h + 1) mod frames_capacity s)%Z);
    Done (v, s', S n).
Proof.
  intros Hcap Hh Hp Hr Hx. simpl. rewrite Hh.
  rewrite (py_get_nat _ _ _ Hp). simpl. rewrite (py_get_nat _ _ _ Hr). simpl.
  rewrite decide_False by done.
  rewrite py_set_nat by (by eapply lookup_lt_Some). simpl.
  rewrite ClockFacts.clock_advance_hand_spec by done. simpl. by rewrite Hh.
Qed.

(** The sweep against its reference description, with [n] frames still to
    be looked at and the other frames, already passed, cleared. *)
Lemma sweep_run n : ∀ s fuel h,
  let cap := Z.to_nat (frames_capacity s) in
  Inv s → full s → n ≤ cap → hand s = Z.of_nat (h mod cap) →
  (∀ d, n ≤ d < cap → ref s !! ((h + d) mod cap) = Some 0%Z) →
  set_run n cap h (ref s) < fuel →
  let m := set_run n cap h (ref s) in
  let v := (h + m) mod cap in
  ∃ p d,
    frame_page s !! v = Some (Some p) ∧ dirty s !! v = Some d ∧
    evict_sweep fuel s =
      Done (Z.of_nat v,
            mk (frames_capacity s) (_page_faults s) (_disk_reads s)
               (if (d : bool) then (_disk_writes s + 1)%Z else _disk_writes s)
               (<[v:=None]> (frame_page s)) (<[v:=false]> (dirty s))
               (clear_run m cap h (ref s)) (delete p (page_to_frame s))
               ((Z.of_nat v + 1) mod frames_capacity s)%Z,
            S m).
Proof.
  induction n as [|n IH]; intros s fuel h cap HI Hfull Hn Hh Hzero Hfuel;
    pose proof (inv_cap _ HI) as Hcap;
    assert (0 < cap) as Hpos by (unfold cap; lia);
    assert (h mod cap < cap) as Hlt by (by apply Nat.mod_upper_bound; lia);
    (destruct (Hfull (h mod cap)) as [p Hp]; [by rewrite (inv_len_fp _ HI)|]);
    (destruct (lookup_lt_is_Some_2 (dirty s) (h mod cap)) as [d Hd];
      [by rewrite (inv_len_dirty _ HI)|]);
    (destruct (lookup_lt_is_Some_2 (ref s) (h mod cap)) as [x Hx];
      [by rewrite (inv_len_ref _ HI)|]);
    pose proof (ClockFacts.clock_inv_frame_map _ _ _ HI Hp) as Hmap;
    (destruct fuel as [|fuel]; [lia|]).
  - simpl. rewrite Nat.add_0_r. exists p, d. split; [done|]. split; [done|].
    apply sweep_evicts_now; try done.
    rewrite <- (Hzero 0) by lia. by rewrite Nat.add_0_r.
  - cbn [set_run] in Hfuel |- *. rewrite Hx in Hfuel |- *.
    destruct (decide (x = 0%Z)) as [->|Hnz].
    + rewrite Nat.add_0_r. exists p, d. split; [done|]. split; [done|].
      by apply sweep_evicts_now.
    + rewrite (sweep_second_chance fuel s (h mod cap) p x) by done.
      set (s1 := set_hand (set_ref s (<[h mod cap:=0%Z]> (ref s)))
                   ((Z.of_nat (h mod cap) + 1) mod frames_capacity s)%Z).
      assert (set_run n cap (S h) (<[h mod cap:=0%Z]> (ref s))
              = set_run n cap (S h) (ref s)) as Hrun.
      { apply set_run_insert_other. intros e He.
        replace (S h + e) with (h + S e) by lia. apply mod_shift_ne. lia. }
      destruct (IH s1 fuel (S h)) as (q & dq & Hq & Hdq & Hsweep).
      * apply ClockFacts.clock_sweep_step_inv; [done|by rewrite length_insert|].
        pose proof (Z.mod_pos_bound (Z.of_nat (h mod cap) + 1) (frames_capacity s)).
        lia.
      * done.
      * simpl. fold cap. lia.
      * simpl. fold cap. replace (frames_capacity s) with (Z.of_nat cap)
          by (unfold cap; lia). by apply hand_next.
      * simpl. fold cap. intros e He.
        destruct (decide (e = cap - 1)) as [->|Hne].
        -- replace (S (h + (cap - 1))) with (h + 1 * cap) by lia.
           rewrite Nat.Div0.mod_add. by apply list_lookup_insert_eq;
             rewrite (inv_len_ref _ HI).
        -- replace (S (h + e)) with (h + S e) by lia.
           rewrite list_lookup_insert_ne by (apply not_eq_sym, mod_shift_ne; lia).
           apply Hzero. lia.
      * simpl. fold cap. rewrite Hrun. lia.
      * simpl in Hq, Hdq, Hsweep. fold cap in Hq, Hdq, Hsweep.
        rewrite Hrun in Hq, Hdq, Hsweep.
        replace (S (h + set_run n cap (S h) (ref s)))
          with (h + S (set_run n cap (S h) (ref s))) in Hq, Hdq, Hsweep by lia.
        exists q, dq. split; [done|]. split; [done|].
        rewrite Hsweep. simpl. done.
Qed.

(** The sweep of a full engine returns what [sweep_result] describes. *)
Lemma sweep_matches s fuel :
  Inv s → full s → Z.to_nat (frames_capacity s) < fuel →
  ∃ r, sweep_result s = Some r ∧ evict_sweep fuel s = Done r.
Proof.
  intros HI Hfull Hfuel.
  pose proof (inv_cap _ HI) as Hcap. pose proof (inv_hand _ HI) as Hhand.
  set (cap := Z.to_nat (frames_capacity s)) in *.
  set (h := Z.to_nat (hand s)).
  assert (h mod cap = h) as Hmod by (apply Nat.mod_small; unfold h, cap; lia).
  destruct (sweep_run cap s fuel h) as (p & d & Hp & Hd & Hsweep); try done.
  - fold cap. rewrite Hmod. unfold h. lia.
  - fold cap. intros e He. lia.
  - fold cap. pose proof (set_run_le cap cap h (ref s)). lia.
  - fold cap in Hp, Hd, Hsweep. eexists. split; [|exact Hsweep].
    unfold sweep_result, victim_of. fold cap h. by rewrite Hp, Hd.
Qed.

(** Up to the frame that stops it, the sweep only meets set bits; the frame
    that stops it has its bit at 0, unless the sweep went all the way round. *)
Lemma set_run_spec cap r n : ∀ h,
  0 < cap → length r = cap →
  (∀ e, e < set_run n cap h r →
     ∃ x, r !! ((h + e) mod cap) = Some x ∧ x ≠ 0%Z) ∧
  (set_run n cap h r < n → r !! ((h + set_run n cap h r) mod cap) = Some 0%Z).
Proof.
  induction n as [|n IH]; intros h Hcap Hlen; simpl.
  { split; intros; lia. }
  destruct (lookup_lt_is_Some_2 r (h mod cap)) as [x Hx].
  { rewrite Hlen. by apply Nat.mod_upper_bound; lia. }
  rewrite Hx. destruct (decide (x = 0%Z)) as [->|Hnz].
  - split; [intros; lia|]. intros _. by rewrite Nat.add_0_r.
  - destruct (IH (S h) Hcap Hlen) as [Hset Hstop]. split.
    + intros [|e] He.
      * rewrite Nat.add_0_r. by exists x.
      * replace (h + S e) with (S h + e) by lia. apply Hset. lia.
    + intros Hlt. replace (h + S (set_run n cap (S h) r))
        with (S h + set_run n cap (S h) r) by lia. apply Hstop. lia.
Qed.

Lemma clear_run_zero m cap r j : ∀ h,
  r !! j = Some 0%Z → clear_run m cap h r !! j = Some 0%Z.
Proof.
  revert r. induction m as [|m IH]; intros r h Hj; simpl; [done|].
  apply IH. destruct (decide (h mod cap = j)) as [<-|Hne].
  - apply list_lookup_insert_eq. by eapply lookup_lt_Some.
  - by rewrite list_lookup_insert_ne.
Qed.

Lemma clear_run_passed m cap r : ∀ h e,
  e < m → (h + e) mod cap < length r →
  clear_run m cap h r !! ((h + e) mod cap) = Some 0%Z.
Proof.
  revert r. induction m as [|m IH]; intros r h e He Hlen; [lia|]. simpl.
  destruct e as [|e].
  - rewrite Nat.add_0_r in *. apply clear_run_zero.
    by apply list_lookup_insert_eq.
  - replace (h + S e) with (S h + e) in * by lia.
    apply IH; [lia|]. by rewrite length_insert.
Qed.

Lemma clear_run_other m cap r j : ∀ h,
  (∀ e, e < m → j ≠ (h + e) mod cap) →
  clear_run m cap h r !! j = r !! j.
Proof.
  revert r. induction m as [|m IH]; intros r h Hne; simpl; [done|].
  rewrite IH.
  - apply list_lookup_insert_ne. specialize (Hne 0). rewrite Nat.add_0_r in Hne.
    apply not_eq_sym, Hne. lia.
  - intros e He. replace (S h + e) with (h + S e) by lia. apply Hne. lia.
Qed.

(** The lowest free frame, or [None] when no frame of the range is free. *)
Lemma find_free_scan_lowest s len : ∀ a,
  a + len ≤ length (frame_page s) →
  (find_free_scan (Z.of_nat <$> seq a len) s = Done None ∧
     ∀ i, a ≤ i < a + len → holds (frame_page s) i) ∨
  (∃ i, find_free_scan (Z.of_nat <$> seq a len) s = Done (Some (Z.of_nat i)) ∧
     a ≤ i < a + len ∧ frame_page s !! i = Some None ∧
     ∀ j, a ≤ j < i → holds (frame_page s) j).
Proof.
  induction len as [|len IH]; intros a Hlen; simpl.
  { left. split; [done|]. intros; lia. }
  destruct (lookup_lt_is_Some_2 (frame_page s) a) as [o Ho]; [lia|].
  rewrite (py_get_nat _ _ _ Ho). simpl. destruct o as [p|].
  - destruct (IH (S a)) as [[Hnone Hall]|(i & Hi & Hrange & Hfree & Hlow)]; [lia| |].
    + left. split; [done|]. intros i Hi.
      destruct (decide (i = a)) as [->|Hne]; [by exists p|]. apply Hall. lia.
    + right. exists i. split; [done|]. split; [lia|]. split; [done|].
      intros j Hj. destruct (decide (j = a)) as [->|Hne]; [by exists p|].
      apply Hlow. lia.
  - right. exists a. split; [done|]. split; [lia|]. split; [done|]. intros; lia.
Qed.

Lemma find_free_frame_lowest s :
  length (frame_page s) = Z.to_nat (frames_capacity s) →
  (_find_free_frame s = Done None ∧ full s) ∨
  (∃ i, _find_free_frame s = Done (Some (Z.of_nat i)) ∧
     frame_page s !! i = Some None ∧ ∀ j, j < i → holds (frame_page s) j).
Proof.
  intros Hlen. unfold _find_free_frame, py_range.
  destruct (find_free_scan_lowest s (Z.to_nat (frames_capacity s)) 0)
    as [[Hnone Hall]|(i & Hi & _ & Hfree & Hlow)]; [lia| |].
  - left. split; [done|]. intros i Hi. apply Hall. lia.
  - right. exists i. split; [done|]. split; [done|]. intros j Hj. apply Hlow. lia.
Qed.

(** A fault that finds a free frame, in full. *)
Lemma access_fill budget s page w i :
  Inv s → page_to_frame s !! page = None →
  frame_page s !! i = Some None → (∀ j, j < i → holds (frame_page s) j) →
  _access budget page w s =
    Done (mk (frames_capacity s) (_page_faults s + 1) (_disk_reads s + 1)
             (_disk_writes s)
             (<[i:=Some page]> (frame_page s)) (<[i:=w]> (dirty s))
             (<[i:=1%Z]> (ref s)) (<[page:=Z.of_nat i]> (page_to_frame s))
             (hand s)).
Proof.
  intros HI Hfresh Hfree Hlow. unfold _access. rewrite Hfresh. cbv zeta.
  destruct (find_free_frame_lowest (count_fault s))
    as [[_ Hfull]|(k & Hsome & Hk & Hklow)]; [apply HI| |].
  - destruct (Hfull i) as [p Hp]; [by eapply lookup_lt_Some|].
    simpl in Hp. by rewrite Hfree in Hp.
  - simpl in Hk, Hklow. assert (k = i) as ->.
    { destruct (decide (k < i)) as [Hlt|Hge].
      - destruct (Hlow k Hlt) as [p Hp]. by rewrite Hk in Hp.
      - destruct (decide (i < k)) as [Hlt|Hge']; [|lia].
        destruct (Hklow i Hlt) as [p Hp]. by rewrite Hfree in Hp. }
    rewrite Hsome. simpl.
    assert (i < Z.to_nat (frames_capacity s)) as Hlt.
    { rewrite <- (inv_len_fp _ HI). by eapply lookup_lt_Some. }
    rewrite ClockFacts.clock_install_spec; simpl; [done|..].
    + by rewrite (inv_len_fp _ HI).
    + by rewrite (inv_len_dirty _ HI).
    + by rewrite (inv_len_ref _ HI).
Qed.

(** Every access of an engine that satisfies the invariant is one of the
    three cases of [effect]. *)
Lemma clock_access_effect fuel s page w :
  Inv s → 2 * Z.to_nat (frames_capacity s) ≤ fuel →
  ∃ s', _access fuel page w s = Done s' ∧ Inv s' ∧ effect s page w s'.
Proof.
  intros HI Hfuel. pose proof (inv_cap _ HI) as Hcap.
  destruct (page_to_frame s !! page) as [f|] eqn:Hf.
  { destruct (ClockFacts.clock_access_hit_spec fuel s page w f HI Hf)
      as (i & s' & -> & Hi & Hrun & Hhit & HI').
    exists s'. split; [done|]. split; [done|]. by eapply effect_hit. }
  destruct (ClockFacts.clock_access_spec fuel s page w HI Hfuel)
    as (s' & Hrun & HI' & _). exists s'. split; [done|]. split; [done|].
  revert Hrun. unfold _access. rewrite Hf. cbv zeta.
  pose proof (ClockFacts.clock_count_fault_inv _ HI) as HI1.
  destruct (find_free_frame_lowest (count_fault s))
    as [[Hnone Hfull]|(i & Hsome & Hfree & Hlow)]; [apply HI1| |].
  - rewrite Hnone. simpl.
    destruct (sweep_matches (count_fault s) fuel HI1 Hfull) as (r & Hr & Hsweep).
    { simpl. lia. }
    unfold _evict_clock. rewrite Hsweep.
    unfold sweep_result in Hr.
    destruct (frame_page (count_fault s) !! victim_of (count_fault s))
      as [[p|]|] eqn:Hp; try done.
    destruct (dirty (count_fault s) !! victim_of (count_fault s))
      as [d|] eqn:Hd; try done.
    injection Hr as <-. simpl.
    change (victim_of (count_fault s)) with (victim_of s) in *. simpl in Hp, Hd.
    assert (victim_of s < Z.to_nat (frames_capacity s)) as Hlt.
    { rewrite <- (inv_len_fp _ HI). by eapply lookup_lt_Some. }
    rewrite ClockFacts.clock_install_spec; simpl.
    2: by rewrite length_insert, (inv_len_fp _ HI).
    2: by rewrite length_insert, (inv_len_dirty _ HI).
    2: by rewrite clear_run_length, (inv_len_ref _ HI).
    rewrite !list_insert_insert_eq. intros [= <-].
    by eapply (effect_evict _ _ _ _ p d).
  - rewrite Hsome. simpl. simpl in Hfree, Hlow.
    assert (i < Z.to_nat (frames_capacity s)) as Hlt.
    { rewrite <- (inv_len_fp _ HI). by eapply lookup_lt_Some. }
    rewrite ClockFacts.clock_install_spec; simpl.
    2: by rewrite (inv_len_fp _ HI).
    2: by rewrite (inv_len_dirty _ HI).
    2: by rewrite (inv_len_ref _ HI).
    intros [= <-]. by eapply effect_fill.
Qed.

(** After an access its page is resident, referenced, and dirty as the
    access leaves it. *)
Lemma effect_resident s page w s' :
  Inv s → effect s page w s' →
  ∃ i, page_to_frame s' !! page = Some (Z.of_nat i) ∧
    frame_page s' !! i = Some (Some page) ∧
    ref s' !! i = Some 1%Z ∧
    (w = true → dirty s' !! i = Some true) ∧
    (page_to_frame s !! page = None → dirty s' !! i = Some w) ∧
    (w = false → page_to_frame s !! page = Some (Z.of_nat i) →
     dirty s' !! i = dirty s !! i).
Proof.
  intros HI Heff.
  destruct Heff as [i Hmap Hi Hhit|i Hfresh Hi Hlow ->|p d Hfresh Hfull Hp Hd ->].
  - destruct Hhit as [Hc Hpf Hdr Hdw Hfr Hmp Hhd Hdirty Href].
    assert (i < Z.to_nat (frames_capacity s)) as Hlt.
    { rewrite <- (inv_len_fp _ HI). by eapply lookup_lt_Some. }
    exists i. rewrite Hmp, Hfr, Href, Hdirty. split_and!; try done.
    + apply list_lookup_insert_eq. by rewrite (inv_len_ref _ HI).
    + intros ->. apply list_lookup_insert_eq. by rewrite (inv_len_dirty _ HI).
    + intros Hnone. by rewrite Hnone in Hmap.
    + by intros ->.
  - assert (i < Z.to_nat (frames_capacity s)) as Hlt.
    { rewrite <- (inv_len_fp _ HI). by eapply lookup_lt_Some. }
    exists i. simpl. split_and!.
    + apply lookup_insert_eq.
    + apply list_lookup_insert_eq. by rewrite (inv_len_fp _ HI).
    + apply list_lookup_insert_eq. by rewrite (inv_len_ref _ HI).
    + intros ->. apply list_lookup_insert_eq. by rewrite (inv_len_dirty _ HI).
    + intros _. apply list_lookup_insert_eq. by rewrite (inv_len_dirty _ HI).
    + intros _ Hsome. by rewrite Hfresh in Hsome.
  - assert (victim_of s < Z.to_nat (frames_capacity s)) as Hlt.
    { rewrite <- (inv_len_fp _ HI). by eapply lookup_lt_Some. }
    exists (victim_of s). simpl. split_and!.
    + apply lookup_insert_eq.
    + apply list_lookup_insert_eq. by rewrite (inv_len_fp _ HI).
    + apply list_lookup_insert_eq.
      by rewrite clear_run_length, (inv_len_ref _ HI).
    + intros ->. apply list_lookup_insert_eq. by rewrite (inv_len_dirty _ HI).
    + intros _. apply list_lookup_insert_eq. by rewrite (inv_len_dirty _ HI).
    + intros _ Hsome. by rewrite Hfresh in Hsome.
Qed.

End ClockSweepFacts.

(** ** LRU: one access, case by case *)

Module LruStepFacts.
Import Lru LruRef.

Lemma lru_access_effect s page w :
  Inv s →
  ∃ s', access_memory page w s = Done s' ∧ Inv s' ∧ effect s page w s'.
Proof.
  intros HI. destruct (page_table s !! page) as [f|] eqn:Hf.
  { destruct (LruFacts.lru_access_hit_spec s page w f HI Hf)
      as (i & s' & -> & Hi & Hrun & Hhit & HI').
    exists s'. split; [done|]. split; [done|]. by eapply effect_hit. }
  destruct (LruFacts.lru_access_spec s page w HI) as (s' & Hrun & HI' & _).
  exists s'. split; [done|]. split; [done|].
  revert Hrun. rewrite LruFacts.lru_access_fault_spec by done.
  unfold _handle_page_fault. cbv zeta. simpl.
  pose proof (inv_free _ HI) as Hshape.
  replace (current_time s + 1 + 1)%Z with (current_time s + 2)%Z by lia.
  destruct (free_frames s) as [|z rest] eqn:Hfree.
  - assert (∀ i, i < length (frame_table s) → holds (frame_table s) i) as Hfull.
    { intros i Hi. by apply free_shape_nil. }
    destruct (LruFacts.lru_find_lru_victim_spec (count_fault (tick s)))
      as (j & Hj & [[q Hq] Hstamp]); [apply HI..|done|].
    simpl in Hq, Hstamp. rewrite Hj. simpl.
    assert (j < Z.to_nat (frames s)) as Hlt.
    { rewrite <- (inv_len_ft _ HI). by eapply lookup_lt_Some. }
    destruct (lookup_lt_is_Some_2 (dirty_bits s) j) as [d Hd];
      [by rewrite (inv_len_db _ HI)|].
    rewrite (py_get_nat _ _ _ Hq), (py_get_nat _ _ _ Hd). simpl.
    unfold py_del. rewrite (LruFacts.lru_inv_frame_map _ _ _ HI Hq). simpl.
    rewrite !py_set_nat
      by (by rewrite ?(inv_len_ft _ HI), ?(inv_len_db _ HI), ?(inv_len_at _ HI)).
    simpl. intros [= <-].
    eapply (effect_evict _ _ _ _ j q d); try done.
    split; [by exists q|done].
  - destruct (free_shape_cons _ _ _ Hshape) as (j & -> & Hj & Hrest).
    assert (j < Z.to_nat (frames s)) as Hlt.
    { rewrite <- (inv_len_ft _ HI). by eapply lookup_lt_Some. }
    simpl. rewrite !py_set_nat
      by (by rewrite ?(inv_len_ft _ HI), ?(inv_len_db _ HI), ?(inv_len_at _ HI)).
    simpl. intros [= <-]. by eapply effect_fill.
Qed.

(** Putting [page] in frame [i] with a stamp above the clock keeps the
    stamps in order. *)
Lemma stamped_touch s s' i page c :
  stamped s → (current_time s < c)%Z → i < length (frame_table s) →
  length (access_time s) = length (frame_table s) →
  frame_table s' = <[i:=Some page]> (frame_table s) →
  access_time s' = <[i:=c]> (access_time s) →
  current_time s' = c →
  stamped s' ∧ recent s' page.
Proof.
  intros [Hclock Hbounds Hdist] Hc Hi Hlen Hft Hat Hct. split; [split|].
  - lia.
  - rewrite Hft, Hat, Hct. intros k p t Hk Ht.
    destruct (decide (i = k)) as [<-|Hne].
    + rewrite list_lookup_insert_eq in Ht by lia. injection Ht as <-. lia.
    + rewrite list_lookup_insert_ne in Hk by done.
      rewrite list_lookup_insert_ne in Ht by done.
      specialize (Hbounds k p t Hk Ht). lia.
  - rewrite Hft, Hat. intros k1 k2 p q t Hk1 Hk2 Ht1 Ht2.
    destruct (decide (i = k1)) as [<-|Hne1]; destruct (decide (i = k2)) as [<-|Hne2];
      try done.
    + rewrite list_lookup_insert_eq in Ht1 by lia. injection Ht1 as <-.
      rewrite list_lookup_insert_ne in Hk2 by done.
      rewrite list_lookup_insert_ne in Ht2 by done.
      specialize (Hbounds k2 q c Hk2 Ht2). lia.
    + rewrite list_lookup_insert_eq in Ht2 by lia. injection Ht2 as <-.
      rewrite list_lookup_insert_ne in Hk1 by done.
      rewrite list_lookup_insert_ne in Ht1 by done.
      specialize (Hbounds k1 p c Hk1 Ht1). lia.
    + rewrite list_lookup_insert_ne in Hk1 by done.
      rewrite list_lookup_insert_ne in Ht1 by done.
      rewrite list_lookup_insert_ne in Hk2 by done.
      rewrite list_lookup_insert_ne in Ht2 by done.
      by eapply Hdist.
  - exists i. rewrite Hft, Hat, Hct. split; apply list_lookup_insert_eq; lia.
Qed.

Lemma effect_stamped s page w s' :
  Inv s → stamped s → effect s page w s' → stamped s' ∧ recent s' page.
Proof.
  intros HI Hst Heff.
  assert (length (access_time s) = length (frame_table s)) as Hlen.
  { by rewrite (inv_len_at _ HI), (inv_len_ft _ HI). }
  destruct Heff as [i Hmap Hi Hhit|i rest Hfresh Hfree Hi ->
                   |j p d Hfresh Hfree Hlr Hp Hd ->].
  - destruct Hhit as [Hc Hpf Hdr Hdw Hfr Hmp Hfree Hdirty Hclock Hstamp].
    apply (stamped_touch s s' i page (current_time s + 1)%Z); try done.
    + lia.
    + by eapply lookup_lt_Some.
    + rewrite Hfr. symmetry. by apply list_insert_id.
  - apply (stamped_touch s _ i page (current_time s + 2)%Z); try done.
    + lia.
    + by eapply lookup_lt_Some.
  - apply (stamped_touch s _ j page (current_time s + 2)%Z); try done.
    + lia.
    + by eapply lookup_lt_Some.
Qed.

Lemma init_stamped cap s : __init__ cap = Done s → stamped s.
Proof.
  intros [= <-]. split; simpl; [done|..].
  - intros i p t. unfold py_repeat. by intros [[=] _]%lookup_replicate.
  - intros i j p q t. unfold py_repeat. by intros [[=] _]%lookup_replicate.
Qed.

(** With two frames or more, the page that was accessed last is not the one
    that the next fault evicts. *)
Lemma effect_keeps_recent s page w s' q :
  Inv s → (2 ≤ frames s)%Z → stamped s → recent s q →
  effect s page w s' → is_Some (page_table s' !! q).
Proof.
  intros HI Hcap Hst (i & Hi & Hti) Heff.
  pose proof (LruFacts.lru_inv_frame_map _ _ _ HI Hi) as Hq.
  destruct Heff as [k Hmap Hk Hhit|k rest Hfresh Hfree Hk ->
                   |j p d Hfresh Hfree Hlr Hp Hd ->].
  - rewrite (hit_map _ _ _ _ Hhit). by eexists.
  - simpl. destruct (decide (page = q)) as [->|Hne].
    + rewrite lookup_insert_eq. by eexists.
    + rewrite lookup_insert_ne by done. by eexists.
  - simpl. destruct (decide (page = q)) as [->|Hne].
    + rewrite lookup_insert_eq. by eexists.
    + rewrite lookup_insert_ne by done.
      assert (p ≠ q) as Hpq.
      { intros ->. pose proof (LruFacts.lru_inv_frame_map _ _ _ HI Hp) as Hq'.
        rewrite Hq in Hq'. injection Hq' as Hij. apply Nat2Z.inj in Hij as <-.
        destruct Hlr as [_ (tj & Htj & Hmin)]. rewrite Hti in Htj.
        injection Htj as <-.
        set (k := if decide (i = 0) then 1 else 0).
        assert (k ≠ i ∧ k < Z.to_nat (frames s)) as [Hki Hk].
        { unfold k. case_decide; lia. }
        destruct (free_shape_nil (frame_table s) k) as [pk Hpk].
        { rewrite <- Hfree. apply HI. }
        { by rewrite (inv_len_ft _ HI). }
        destruct (lookup_lt_is_Some_2 (access_time s) k) as [tk Htk].
        { by rewrite (inv_len_at _ HI). }
        destruct (Hmin k tk) as [Hle _]; [by exists pk|done|].
        pose proof (st_bounds _ Hst k pk tk Hpk Htk) as Hb.
        assert (tk = current_time s) as -> by lia.
        apply Hki. by eapply (st_distinct _ Hst k i). }
      rewrite lookup_delete_ne by done. by eexists.
Qed.

(** The scan of an engine with no occupied frame keeps its first candidate. *)
Lemma scan_of_free_frames s len : ∀ a b v0,
  a + len ≤ length (frame_table s) →
  (∀ i p, frame_table s !! i ≠ Some (Some p)) →
  lru_scan (Z.of_nat <$> seq a len) b v0 s = Done v0.
Proof.
  induction len as [|len IH]; intros a b v0 Hlen Hfree; simpl; [done|].
  destruct (lookup_lt_is_Some_2 (frame_table s) a) as [o Ho]; [lia|].
  rewrite (py_get_nat _ _ _ Ho). simpl. destruct o as [p|].
  - by destruct (Hfree a p).
  - apply IH; [lia|done].
Qed.

End LruStepFacts.

(** ** Random: one access, case by case *)

Module RandStepFacts.
Import Rand RandRef.

Section WithRandomSource.
Variable rng : nat → Z.

(** With every frame occupied the victim is frame 0 or the first draw: the
    redraw loop ends at its first test. *)
Lemma choose_victim_exact fuel s :
  (1 ≤ num_frames s)%Z →
  (∀ i, i < Z.to_nat (num_frames s) → holds (frames s) i) →
  1 ≤ fuel →
  _choose_victim rng fuel s =
    Done (Z.of_nat (victim_of rng s).1,
          mk (num_frames s) (frames s) (page_to_frame s) (_disk_reads s)
             (_disk_writes s) (_page_faults s) (_free s) (victim_of rng s).2) ∧
  (victim_of rng s).1 < Z.to_nat (num_frames s).
Proof.
  intros Hcap Hfull Hfuel.
  unfold _choose_victim, victim_of. case_decide as Hone; simpl.
  - split; [by destruct s|lia].
  - destruct fuel as [|fuel]; [lia|]. unfold randrange. simpl.
    pose proof (Z.mod_pos_bound (rng (rng_pos s)) (num_frames s)) as Hmod.
    set (idx := (rng (rng_pos s) mod num_frames s)%Z) in *.
    destruct (Hfull (Z.to_nat idx)) as [en Hen]; [lia|].
    assert (py_get (frames s) idx = Done (Some en)) as ->.
    { rewrite <- (Z2Nat.id idx) by lia. by apply py_get_nat. }
    simpl. rewrite Z2Nat.id by lia. split; [done|lia].
Qed.

Lemma rand_access_effect fuel s pg w :
  Inv s → 1 ≤ fuel →
  ∃ s', _access rng fuel pg w s = Done s' ∧ Inv s' ∧ effect rng s pg w s'.
Proof.
  intros HI Hfuel. destruct (page_to_frame s !! pg) as [f|] eqn:Hf.
  { destruct (RandFacts.rand_access_hit_spec rng fuel s pg w f HI Hf)
      as (i & s' & -> & (en & Hen & Hpg) & Hrun & Hhit & HI').
    exists s'. split; [done|]. split; [done|]. by eapply effect_hit. }
  destruct (RandFacts.rand_access_spec rng fuel s pg w HI Hfuel)
    as (s' & Hrun & HI' & _).
  exists s'. split; [done|]. split; [done|].
  revert Hrun. unfold _access. rewrite Hf. cbv zeta.
  pose proof (inv_free _ HI) as Hshape. simpl.
  assert (∀ v K, v < length (frames s) →
    (if w then
       py_get (<[v:=Some (Entry pg w)]> (frames s)) (Z.of_nat v) ≫= λ e,
         match e with
         | Some en0 => py_set (<[v:=Some (Entry pg w)]> (frames s)) (Z.of_nat v)
                         (Some (Entry (page en0) true))
         | None => Done (<[v:=Some (Entry pg w)]> (frames s))
         end
     else Done (<[v:=Some (Entry pg w)]> (frames s))) ≫= K
    = (K (<[v:=Some (Entry pg w)]> (frames s)) : result state)) as Htail.
  { intros v K Hv. destruct w; [|done].
    rewrite (py_get_nat _ v (Some (Entry pg true)))
      by (by apply list_lookup_insert_eq).
    simpl. rewrite py_set_nat by (by rewrite length_insert). simpl.
    by rewrite list_insert_insert_eq. }
  destruct (_free s) as [|z rest] eqn:Hfree.
  - destruct (choose_victim_exact fuel (count_fault s)) as [Hv Hlt]; simpl.
    { apply HI. }
    { intros i Hi. by apply RandFacts.rand_inv_full. }
    { done. }
    change (victim_of rng (count_fault s)) with (victim_of rng s) in *.
    simpl in Hv, Hlt. rewrite Hfree in Hv. rewrite Hv. simpl.
    rewrite <- (inv_len _ HI) in Hlt.
    destruct (lookup_lt_is_Some_2 _ _ Hlt) as [o Ho].
    destruct (RandFacts.rand_inv_full s (victim_of rng s).1 HI Hfree) as [en Hen].
    { by rewrite <- (inv_len _ HI). }
    rewrite (RandFacts.rand_evict_spec _ (victim_of rng s).1 en) by
      (simpl; [done || apply (cons_frame_map _ _ _ (inv_book _ HI) _ _ Hen)]).
    simpl. rewrite py_set_nat by (by rewrite length_insert). simpl.
    rewrite list_insert_insert_eq, Htail by done.
    intros [= <-]. by eapply effect_evict.
  - destruct (free_shape_cons _ _ _ Hshape) as (j & -> & Hj & Hrest).
    assert (j < length (frames s)) as Hlt by (by eapply lookup_lt_Some).
    simpl. rewrite py_set_nat by done. simpl. rewrite Htail by done.
    intros [= <-]. by eapply effect_fill.
Qed.

End WithRandomSource.

(** With one frame the effect of an access does not depend on the random
    source, and no number is drawn. *)
Lemma effect_one_frame rng rng' s pg w s1 s2 :
  (num_frames s ≤ 1)%Z →
  effect rng s pg w s1 → effect rng' s pg w s2 →
  s1 = s2 ∧ rng_pos s1 = rng_pos s.
Proof.
  intros Hone H1 H2.
  assert (victim_of rng s = (0, rng_pos s)) as Hv1.
  { unfold victim_of. by rewrite decide_True. }
  assert (victim_of rng' s = (0, rng_pos s)) as Hv2.
  { unfold victim_of. by rewrite decide_True. }
  destruct H1 as [i en Hmap Hi Hpg Hhit|i rest Hfresh Hfree Hi ->|en Hfresh Hfree Hv ->];
    destruct H2 as [i' en' Hmap' Hi' Hpg' Hhit'|i' rest' Hfresh' Hfree' Hi' ->
                   |en' Hfresh' Hfree' Hv' ->];
    try congruence.
  - rewrite Hmap in Hmap'. injection Hmap' as Hii. apply Nat2Z.inj in Hii as <-.
    destruct Hhit as [Hc Hpf Hdr Hdw Hmp Hfr Hrng (e & He & Hfs)].
    destruct Hhit' as [Hc' Hpf' Hdr' Hdw' Hmp' Hfr' Hrng' (e' & He' & Hfs')].
    rewrite He in He'. injection He' as <-.
    split; [|done]. destruct s1, s2. simpl in *. congruence.
  - rewrite Hfree in Hfree'. injection Hfree' as Hii <-.
    apply Nat2Z.inj in Hii as <-. done.
  - rewrite Hv1 in *. rewrite Hv2 in *. simpl in *.
    rewrite Hv in Hv'. injection Hv' as <-. done.
Qed.

End RandStepFacts.

(** ** Every engine is an instance of the common view *)

Module ClockViewFacts.
Import Clock ClockRef.

Lemma clock_effect_vstep s page w s' :
  Inv s → effect s page w s' →
  View.vstep page w (view_of s) (view_of s').
Proof.
  intros HI Heff.
  assert (¬ View.resident (view_of s) page ∨ is_Some (page_to_frame s !! page))
    as Hres.
  { destruct (page_to_frame s !! page) as [f|] eqn:Hf; [right; by eexists|left].
    intros (k & e & Hk). simpl in Hk.
    apply ViewFacts.zip_frames_lookup_inv in Hk as [Hk _].
    by rewrite (ClockFacts.clock_inv_frame_map _ _ _ HI Hk) in Hf. }
  assert (length (dirty s) = length (frame_page s)) as Hlen.
  { by rewrite (inv_len_dirty _ HI), (inv_len_fp _ HI). }
  destruct Heff as [i Hmap Hi Hhit|i Hfresh Hi Hlow ->|p d Hfresh Hfull Hp Hd ->].
  - destruct (lookup_lt_is_Some_2 (dirty s) i) as [d Hd].
    { rewrite Hlen. by eapply lookup_lt_Some. }
    destruct Hhit as [Hc Hpf Hdr Hdw Hfr Hmp Hhd Hdirty Href].
    apply (ViewFacts.vstep_hit_to _ _ _ _ i d); simpl; try done.
    + by rewrite (ViewFacts.zip_frames_lookup _ _ _ _ _ Hi Hd).
    + rewrite Hfr, Hdirty. destruct w.
      * rewrite <- (list_insert_id _ _ _ Hi) at 1.
        rewrite ViewFacts.zip_frames_insert. by rewrite orb_true_r.
      * rewrite orb_false_r. symmetry. apply list_insert_id.
        by rewrite (ViewFacts.zip_frames_lookup _ _ _ _ _ Hi Hd).
  - destruct Hres as [Hres|[f Hf]]; [|by rewrite Hfresh in Hf].
    destruct (lookup_lt_is_Some_2 (dirty s) i) as [d Hd].
    { rewrite Hlen. by eapply lookup_lt_Some. }
    apply (ViewFacts.vstep_fill_to _ _ _ _ i); simpl; try done.
    + by rewrite (ViewFacts.zip_frames_lookup _ _ _ _ _ Hi Hd).
    + apply ViewFacts.zip_frames_insert.
  - destruct Hres as [Hres|[f Hf]]; [|by rewrite Hfresh in Hf].
    apply (ViewFacts.vstep_evict_to _ _ _ _ (victim_of s) p d); simpl; try done.
    + by apply ViewFacts.zip_frames_full.
    + by rewrite (ViewFacts.zip_frames_lookup _ _ _ _ _ Hp Hd).
    + apply ViewFacts.zip_frames_insert.
Qed.

Lemma clock_run_snoc fuel tr a : ∀ s,
  run fuel (tr ++ [a]) s = run fuel tr s ≫= step fuel a.
Proof.
  induction tr as [|b tr IH]; intros s; simpl.
  - apply ViewFacts.bind_Done.
  - destruct (step fuel b s) as [s1| |]; simpl; [apply IH|done..].
Qed.

(** Induction along a trace: what holds of the fresh engine and is kept by
    each of the three kinds of access holds of every state reached. *)
Lemma clock_exec_ind fuel cap (Q : list access → state → Prop) :
  (1 ≤ cap)%Z → 2 * Z.to_nat cap ≤ fuel →
  (∀ s, __init__ cap = Done s → Q [] s) →
  (∀ tr a s s', Inv s → frames_capacity s = cap → Q tr s →
     effect s (access_page a) (access_is_write a) s' → Q (tr ++ [a]) s') →
  ∀ tr, ∃ s, exec fuel cap tr = Done s ∧ Inv s ∧ frames_capacity s = cap ∧ Q tr s.
Proof.
  intros Hcap Hfuel Hinit Hstep tr. induction tr as [|a tr IH] using rev_ind.
  - eexists. split; [reflexivity|]. split; [by apply (ClockFacts.clock_init_inv cap)|].
    split; [done|]. by apply Hinit.
  - destruct IH as (s & Hs & HI & Hc & HQ).
    destruct (ClockSweepFacts.clock_access_effect fuel s (access_page a)
                (access_is_write a) HI) as (s' & Hrun & HI' & Heff);
      [by rewrite Hc|].
    exists s'. unfold exec in *. simpl in *. rewrite clock_run_snoc, Hs. simpl.
    split; [by destruct a|]. split; [done|]. split.
    + destruct (ClockFacts.clock_access_spec fuel s (access_page a)
                  (access_is_write a) HI) as (s2 & Hstep2 & _ & Hc2 & _);
        [by rewrite Hc|]. congruence.
    + by apply (Hstep tr a s s').
Qed.

(** The view of the state that a trace leads to is one that the trace can
    lead to. *)
Lemma clock_reach fuel cap tr :
  (1 ≤ cap)%Z → 2 * Z.to_nat cap ≤ fuel →
  ∃ s, exec fuel cap tr = Done s ∧ Inv s ∧ frames_capacity s = cap ∧
    View.reach (Z.to_nat cap) tr (view_of s).
Proof.
  intros Hcap Hfuel.
  apply (clock_exec_ind fuel cap (λ tr s, View.reach (Z.to_nat cap) tr (view_of s)));
    try done.
  - intros s [= <-]. unfold view_of, py_repeat. simpl.
    rewrite ViewFacts.zip_frames_replicate. constructor.
  - intros tr' a s s' HI _ Hreach Heff. econstructor; [done|].
    by apply clock_effect_vstep.
Qed.

End ClockViewFacts.

Module LruViewFacts.
Import Lru LruRef.

Lemma lru_effect_vstep s page w s' :
  Inv s → effect s page w s' →
  View.vstep page w (view_of s) (view_of s').
Proof.
  intros HI Heff.
  assert (¬ View.resident (view_of s) page ∨ is_Some (page_table s !! page))
    as Hres.
  { destruct (page_table s !! page) as [f|] eqn:Hf; [right; by eexists|left].
    intros (k & e & Hk). simpl in Hk.
    apply ViewFacts.zip_frames_lookup_inv in Hk as [Hk _].
    by rewrite (LruFacts.lru_inv_frame_map _ _ _ HI Hk) in Hf. }
  assert (length (dirty_bits s) = length (frame_table s)) as Hlen.
  { by rewrite (inv_len_db _ HI), (inv_len_ft _ HI). }
  destruct Heff as [i Hmap Hi Hhit|i rest Hfresh Hfree Hi ->
                   |j p d Hfresh Hfree Hlr Hp Hd ->].
  - destruct (lookup_lt_is_Some_2 (dirty_bits s) i) as [d Hd].
    { rewrite Hlen. by eapply lookup_lt_Some. }
    destruct Hhit as [Hc Hpf Hdr Hdw Hfr Hmp Hfree Hdirty Hclock Hstamp].
    apply (ViewFacts.vstep_hit_to _ _ _ _ i d); simpl; try done.
    + by rewrite (ViewFacts.zip_frames_lookup _ _ _ _ _ Hi Hd).
    + rewrite Hfr, Hdirty. destruct w.
      * rewrite <- (list_insert_id _ _ _ Hi) at 1.
        rewrite ViewFacts.zip_frames_insert. by rewrite orb_true_r.
      * rewrite orb_false_r. symmetry. apply list_insert_id.
        by rewrite (ViewFacts.zip_frames_lookup _ _ _ _ _ Hi Hd).
  - destruct Hres as [Hres|[f Hf]]; [|by rewrite Hfresh in Hf].
    destruct (lookup_lt_is_Some_2 (dirty_bits s) i) as [d Hd].
    { rewrite Hlen. by eapply lookup_lt_Some. }
    apply (ViewFacts.vstep_fill_to _ _ _ _ i); simpl; try done.
    + by rewrite (ViewFacts.zip_frames_lookup _ _ _ _ _ Hi Hd).
    + apply ViewFacts.zip_frames_insert.
  - destruct Hres as [Hres|[f Hf]]; [|by rewrite Hfresh in Hf].
    apply (ViewFacts.vstep_evict_to _ _ _ _ j p d); simpl; try done.
    + apply ViewFacts.zip_frames_full; [done|].
      intros i Hi. apply (free_shape_nil _ i); [|done].
      rewrite <- Hfree. apply HI.
    + by rewrite (ViewFacts.zip_frames_lookup _ _ _ _ _ Hp Hd).
    + apply ViewFacts.zip_frames_insert.
Qed.

Lemma lru_run_snoc tr a : ∀ s, run (tr ++ [a]) s = run tr s ≫= step a.
Proof.
  induction tr as [|b tr IH]; intros s; simpl.
  - apply ViewFacts.bind_Done.
  - destruct (step b s) as [s1| |]; simpl; [apply IH|done..].
Qed.

Lemma lru_exec_ind cap (Q : list access → state → Prop) :
  (1 ≤ cap)%Z →
  (∀ s, __init__ cap = Done s → Q [] s) →
  (∀ tr a s s', Inv s → frames s = cap → Q tr s →
     effect s (access_page a) (access_is_write a) s' → Q (tr ++ [a]) s') →
  ∀ tr, ∃ s, exec cap tr = Done s ∧ Inv s ∧ frames s = cap ∧ Q tr s.
Proof.
  intros Hcap Hinit Hstep tr. induction tr as [|a tr IH] using rev_ind.
  - eexists. split; [reflexivity|]. split; [by apply (LruFacts.lru_init_inv cap)|].
    split; [done|]. by apply Hinit.
  - destruct IH as (s & Hs & HI & Hc & HQ).
    destruct (LruStepFacts.lru_access_effect s (access_page a) (access_is_write a) HI)
      as (s' & Hrun & HI' & Heff).
    exists s'. unfold exec in *. simpl in *. rewrite lru_run_snoc, Hs. simpl.
    split; [by rewrite LruFacts.lru_step_access|]. split; [done|]. split.
    + destruct (LruFacts.lru_access_spec s (access_page a) (access_is_write a) HI)
        as (s2 & Hstep2 & _ & Hc2 & _). congruence.
    + by apply (Hstep tr a s s').
Qed.

Lemma lru_reach cap tr :
  (1 ≤ cap)%Z →
  ∃ s, exec cap tr = Done s ∧ Inv s ∧ frames s = cap ∧
    View.reach (Z.to_nat cap) tr (view_of s).
Proof.
  intros Hcap.
  apply (lru_exec_ind cap (λ tr s, View.reach (Z.to_nat cap) tr (view_of s)));
    try done.
  - intros s [= <-]. unfold view_of, py_repeat. simpl.
    rewrite ViewFacts.zip_frames_replicate. constructor.
  - intros tr' a s s' HI _ Hreach Heff. econstructor; [done|].
    by apply lru_effect_vstep.
Qed.

(** In every state reached by a trace the stamps are in order, and the
    page of the last access carries the current value of the clock. *)
Lemma lru_reach_stamped cap tr :
  (1 ≤ cap)%Z →
  ∃ s, exec cap tr = Done s ∧ Inv s ∧ frames s = cap ∧
    (stamped s ∧ ∀ tr' a, tr = tr' ++ [a] → recent s (access_page a)).
Proof.
  intros Hcap.
  apply (lru_exec_ind cap
           (λ tr s, stamped s ∧ ∀ tr' a, tr = tr' ++ [a] → recent s (access_page a)));
    try done.
  - intros s Hinit. split; [by eapply LruStepFacts.init_stamped|].
    intros tr' a Heq. by destruct tr'.
  - intros tr' a s s' HI _ [Hst _] Heff.
    destruct (LruStepFacts.effect_stamped _ _ _ _ HI Hst Heff) as [Hst' Hrec].
    split; [done|]. intros tr'' b Heq. by apply app_inj_tail in Heq as [_ <-].
Qed.

End LruViewFacts.

Module RandViewFacts.
Import Rand RandRef.

Section WithRandomSource.
Variable rng : nat → Z.

Lemma rand_view_lookup s i en :
  frames s !! i = Some (Some en) →
  View.frames (view_of s) !! i = Some (Some (page en, is_dirty en)).
Proof. intros Hi. simpl. by rewrite list_lookup_fmap, Hi. Qed.

Lemma rand_view_lookup_inv s i p d :
  View.frames (view_of s) !! i = Some (Some (p, d)) →
  ∃ en, frames s !! i = Some (Some en) ∧ page en = p ∧ is_dirty en = d.
Proof.
  simpl. rewrite list_lookup_fmap. destruct (frames s !! i) as [[en|]|]; try done.
  simpl. intros [= <- <-]. by exists en.
Qed.

Lemma rand_view_occupied s :
  occupied (View.frames (view_of s)) = occupied (frames s).
Proof.
  simpl. generalize (frames s). intros l.
  induction l as [|[en|] l IH]; simpl; [done|f_equal; apply IH|apply IH].
Qed.

Lemma rand_effect_vstep s pg w s' :
  Inv s → effect rng s pg w s' →
  View.vstep pg w (view_of s) (view_of s').
Proof.
  intros HI Heff.
  assert (¬ View.resident (view_of s) pg ∨ is_Some (page_to_frame s !! pg))
    as Hres.
  { destruct (page_to_frame s !! pg) as [f|] eqn:Hf; [right; by eexists|left].
    intros (k & e & Hk). apply rand_view_lookup_inv in Hk as (en & Hk & Hpg & _).
    pose proof (cons_frame_map _ _ _ (inv_book _ HI) _ _ Hk) as Hmap.
    rewrite Hpg in Hmap. by rewrite Hmap in Hf. }
  destruct Heff as [i en Hmap Hi Hpg Hhit|i rest Hfresh Hfree Hi ->
                   |en Hfresh Hfree Hv ->].
  - pose proof (hit_frames _ _ _ _ Hhit) as (en' & Hen' & Hfr).
    rewrite Hi in Hen'. injection Hen' as <-.
    destruct Hhit as [Hc Hpf Hdr Hdw Hmp Hfree Hrng _].
    apply (ViewFacts.vstep_hit_to _ _ _ _ i (is_dirty en)); try done.
    + rewrite <- Hpg. by apply rand_view_lookup.
    + simpl. rewrite Hfr, list_fmap_insert. simpl. rewrite Hpg.
      by destruct w, (is_dirty en).
  - destruct Hres as [Hres|[f Hf]]; [|by rewrite Hfresh in Hf].
    apply (ViewFacts.vstep_fill_to _ _ _ _ i); simpl; try done.
    + by rewrite list_lookup_fmap, Hi.
    + by rewrite list_fmap_insert.
  - destruct Hres as [Hres|[f Hf]]; [|by rewrite Hfresh in Hf].
    apply (ViewFacts.vstep_evict_to _ _ _ _ (victim_of rng s).1 (page en) (is_dirty en));
      simpl; try done.
    + intros j Hj. rewrite length_fmap in Hj.
      destruct (RandFacts.rand_inv_full s j HI Hfree) as [e He].
      { by rewrite <- (inv_len _ HI). }
      eexists. by rewrite list_lookup_fmap, He.
    + by rewrite list_lookup_fmap, Hv.
    + by rewrite list_fmap_insert.
Qed.

Lemma rand_run_snoc fuel tr a : ∀ s,
  run rng fuel (tr ++ [a]) s = run rng fuel tr s ≫= step rng fuel a.
Proof.
  induction tr as [|b tr IH]; intros s; simpl.
  - apply ViewFacts.bind_Done.
  - destruct (step rng fuel b s) as [s1| |]; simpl; [apply IH|done..].
Qed.

Lemma rand_exec_ind fuel cap (Q : list access → state → Prop) :
  (1 ≤ cap)%Z → 1 ≤ fuel →
  (∀ s, __init__ cap = Done s → Q [] s) →
  (∀ tr a s s', Inv s → num_frames s = cap → Q tr s →
     effect rng s (access_page a) (access_is_write a) s' → Q (tr ++ [a]) s') →
  ∀ tr, ∃ s, exec rng fuel cap tr = Done s ∧ Inv s ∧ num_frames s = cap ∧ Q tr s.
Proof.
  intros Hcap Hfuel Hinit Hstep tr. induction tr as [|a tr IH] using rev_ind.
  - eexists. split; [reflexivity|]. split; [by apply (RandFacts.rand_init_inv cap)|].
    split; [done|]. by apply Hinit.
  - destruct IH as (s & Hs & HI & Hc & HQ).
    destruct (RandStepFacts.rand_access_effect rng fuel s (access_page a)
                (access_is_write a) HI Hfuel) as (s' & Hrun & HI' & Heff).
    exists s'. unfold exec in *. simpl in *. rewrite rand_run_snoc, Hs. simpl.
    split; [by destruct a|]. split; [done|]. split.
    + destruct (RandFacts.rand_access_spec rng fuel s (access_page a)
                  (access_is_write a) HI Hfuel) as (s2 & Hstep2 & _ & Hc2 & _).
      congruence.
    + by apply (Hstep tr a s s').
Qed.

Lemma rand_reach fuel cap tr :
  (1 ≤ cap)%Z → 1 ≤ fuel →
  ∃ s, exec rng fuel cap tr = Done s ∧ Inv s ∧ num_frames s = cap ∧
    View.reach (Z.to_nat cap) tr (view_of s).
Proof.
  intros Hcap Hfuel.
  apply (rand_exec_ind fuel cap (λ tr s, View.reach (Z.to_nat cap) tr (view_of s)));
    try done.
  - intros s [= <-]. unfold view_of, py_repeat. simpl.
    rewrite fmap_replicate. constructor.
  - intros tr' a s s' HI _ Hreach Heff. econstructor; [done|].
    by apply rand_effect_vstep.
Qed.

End WithRandomSource.

End RandViewFacts.

(** ** Properties of the code beyond the specification's claims *)

(** X1 — Clock: in every state reached by a trace, the page-to-frame
    dictionary and the frame array describe the same assignment: a page is
    mapped to an index exactly when the frame at that index holds it, every
    index in the dictionary is a valid frame, and no page is held by two
    frames. *)
Theorem clock_mapping_matches_frames (cap : Z) (trace : list access) (fuel : nat) :
  (1 ≤ cap)%Z → 2 * Z.to_nat cap ≤ fuel →
  ∃ s, Clock.exec fuel cap trace = Done s ∧
    (∀ p i, Clock.page_to_frame s !! p = Some (Z.of_nat i) ↔
            Clock.frame_page s !! i = Some (Some p)) ∧
    (∀ p f, Clock.page_to_frame s !! p = Some f → (0 ≤ f < cap)%Z) ∧
    (∀ i j p, Clock.frame_page s !! i = Some (Some p) →
              Clock.frame_page s !! j = Some (Some p) → i = j).
Proof.
  intros Hcap Hfuel.
  destruct (ClockFacts.clock_exec_spec fuel cap trace Hcap Hfuel) as (s & Hs & HI & Hc).
  exists s. split; [done|]. split_and!.
  - intros p i. split.
    + intros Hp. destruct (ClockFacts.clock_inv_map_frame _ _ _ HI Hp) as (j & Hj & Hfp).
      by apply Nat2Z.inj in Hj as ->.
    + by apply ClockFacts.clock_inv_frame_map.
  - intros p f Hp. destruct (ClockFacts.clock_inv_map_frame _ _ _ HI Hp) as (j & -> & Hfp).
    apply lookup_lt_Some in Hfp. rewrite (Clock.inv_len_fp _ HI), Hc in Hfp. lia.
  - intros i j p Hi Hj.
    pose proof (ClockFacts.clock_inv_frame_map _ _ _ HI Hi) as Hmi.
    pose proof (ClockFacts.clock_inv_frame_map _ _ _ HI Hj) as Hmj.
    rewrite Hmi in Hmj. injection Hmj as Heq. lia.
Qed.

Lemma clock_mapping_matches_frames_witness :
  ∃ s, Clock.exec 4 2 [Read 1; Write 2; Read 3] = Done s ∧
    (∀ p i, Clock.page_to_frame s !! p = Some (Z.of_nat i) ↔
            Clock.frame_page s !! i = Some (Some p)) ∧
    (∀ p f, Clock.page_to_frame s !! p = Some f → (0 ≤ f < 2)%Z) ∧
    (∀ i j p, Clock.frame_page s !! i = Some (Some p) →
              Clock.frame_page s !! j = Some (Some p) → i = j).
Proof.
  apply (clock_mapping_matches_frames 2 [Read 1; Write 2; Read 3] 4); [lia|simpl; lia].
Defined.

(** X2 — LRU: in every state reached by a trace, [page_table] and
    [frame_table] describe the same assignment: a page is mapped to an index
    exactly when the frame at that index holds it, every index in the table
    is a valid frame, and no page is held by two frames. *)
Theorem lru_mapping_matches_frames (cap : Z) (trace : list access) :
  (1 ≤ cap)%Z →
  ∃ s, Lru.exec cap trace = Done s ∧
    (∀ p i, Lru.page_table s !! p = Some (Z.of_nat i) ↔
            Lru.frame_table s !! i = Some (Some p)) ∧
    (∀ p f, Lru.page_table s !! p = Some f → (0 ≤ f < cap)%Z) ∧
    (∀ i j p, Lru.frame_table s !! i = Some (Some p) →
              Lru.frame_table s !! j = Some (Some p) → i = j).
Proof.
  intros Hcap.
  destruct (LruFacts.lru_exec_spec cap trace Hcap) as (s & Hs & HI & Hc).
  exists s. split; [done|]. split_and!.
  - intros p i. split.
    + intros Hp. destruct (LruFacts.lru_inv_map_frame _ _ _ HI Hp) as (j & Hj & Hfp).
      by apply Nat2Z.inj in Hj as ->.
    + by apply LruFacts.lru_inv_frame_map.
  - intros p f Hp. destruct (LruFacts.lru_inv_map_frame _ _ _ HI Hp) as (j & -> & Hfp).
    apply lookup_lt_Some in Hfp. rewrite (Lru.inv_len_ft _ HI), Hc in Hfp. lia.
  - intros i j p Hi Hj.
    pose proof (LruFacts.lru_inv_frame_map _ _ _ HI Hi) as Hmi.
    pose proof (LruFacts.lru_inv_frame_map _ _ _ HI Hj) as Hmj.
    rewrite Hmi in Hmj. injection Hmj as Heq. lia.
Qed.

Lemma lru_mapping_matches_frames_witness :
  ∃ s, Lru.exec 2 [Read 1; Write 2; Read 3] = Done s ∧
    (∀ p i, Lru.page_table s !! p = Some (Z.of_nat i) ↔
            Lru.frame_table s !! i = Some (Some p)) ∧
    (∀ p f, Lru.page_table s !! p = Some f → (0 ≤ f < 2)%Z) ∧
    (∀ i j p, Lru.frame_table s !! i = Some (Some p) →
              Lru.frame_table s !! j = Some (Some p) → i = j).
Proof. apply (lru_mapping_matches_frames 2 [Read 1; Write 2; Read 3]). lia. Defined.

(** X3 — Random: in every state reached by a trace, [page_to_frame] and
    the frame entries describe the same assignment: a page is mapped to an
    index exactly when the entry at that index is for that page, every index
    in the dictionary is a valid frame, and no page has two entries. *)
Theorem rand_mapping_matches_frames (cap : Z) (trace : list access)
    (rng : nat → Z) (fuel : nat) :
  (1 ≤ cap)%Z → 1 ≤ fuel →
  ∃ s, Rand.exec rng fuel cap trace = Done s ∧
    (∀ p i, Rand.page_to_frame s !! p = Some (Z.of_nat i) ↔
            ∃ en, Rand.frames s !! i = Some (Some en) ∧ Rand.page en = p) ∧
    (∀ p f, Rand.page_to_frame s !! p = Some f → (0 ≤ f < cap)%Z) ∧
    (∀ i j en en', Rand.frames s !! i = Some (Some en) →
       Rand.frames s !! j = Some (Some en') → Rand.page en = Rand.page en' → i = j).
Proof.
  intros Hcap Hfuel.
  destruct (RandFacts.rand_exec_spec rng fuel cap trace Hcap Hfuel)
    as (s & Hs & HI & Hc).
  pose proof (Rand.inv_book _ HI) as [Hmf Hfm _].
  exists s. split; [done|]. split_and!.
  - intros p i. split.
    + intros Hp. destruct (Hmf _ _ Hp) as (j & en & Hj & Hen & Hpg).
      apply Nat2Z.inj in Hj as ->. by exists en.
    + intros (en & Hen & <-). by apply Hfm.
  - intros p f Hp. destruct (Hmf _ _ Hp) as (j & en & -> & Hen & Hpg).
    apply lookup_lt_Some in Hen. rewrite (Rand.inv_len _ HI), Hc in Hen. lia.
  - intros i j en en' Hi Hj Heq.
    pose proof (Hfm _ _ Hi) as Hmi. pose proof (Hfm _ _ Hj) as Hmj.
    rewrite Heq, Hmj in Hmi. injection Hmi as Hij. lia.
Qed.

Lemma rand_mapping_matches_frames_witness :
  ∃ s, Rand.exec Z.of_nat 1 2 [Read 1; Write 2; Read 3] = Done s ∧
    (∀ p i, Rand.page_to_frame s !! p = Some (Z.of_nat i) ↔
            ∃ en, Rand.frames s !! i = Some (Some en) ∧ Rand.page en = p) ∧
    (∀ p f, Rand.page_to_frame s !! p = Some f → (0 ≤ f < 2)%Z) ∧
    (∀ i j en en', Rand.frames s !! i = Some (Some en) →
       Rand.frames s !! j = Some (Some en') → Rand.page en = Rand.page en' → i = j).
Proof.
  apply (rand_mapping_matches_frames 2 [Read 1; Write 2; Read 3] Z.of_nat 1); lia.
Defined.

(** X4 — Clock: after any trace, [page_faults] is at most the number of
    accesses, [disk_writes] is at most the number of write accesses (so a
    trace of reads writes nothing back), and [disk_writes] is at most the
    number of evictions, which is [page_faults] minus the occupied frames. *)
Theorem clock_counter_bounds (cap : Z) (trace : list access) (fuel : nat) :
  (1 ≤ cap)%Z → 2 * Z.to_nat cap ≤ fuel →
  ∃ s, Clock.exec fuel cap trace = Done s ∧
    (0 ≤ Clock.get_total_page_faults s ≤ Z.of_nat (length trace))%Z ∧
    (0 ≤ Clock.get_total_disk_writes s ≤ Z.of_nat (View.writes_in trace))%Z ∧
    (Clock.get_total_disk_writes s + Z.of_nat (occupied (Clock.frame_page s))
       ≤ Clock.get_total_page_faults s)%Z.
Proof.
  intros Hcap Hfuel.
  destruct (ClockViewFacts.clock_reach fuel cap trace Hcap Hfuel)
    as (s & Hs & HI & Hc & Hreach).
  exists s. split; [done|].
  destruct (ViewFacts.reach_counters _ _ _ Hreach) as (_ & H0 & Hf & Ho & Hd).
  simpl in *. rewrite ViewFacts.zip_frames_occupied in Ho
    by (by rewrite (Clock.inv_len_dirty _ HI), (Clock.inv_len_fp _ HI)).
  unfold Clock.get_total_page_faults, Clock.get_total_disk_writes. lia.
Qed.

Lemma clock_counter_bounds_witness :
  ∃ s, Clock.exec 4 2 [Write 1; Read 2; Read 3; Write 1] = Done s ∧
    (0 ≤ Clock.get_total_page_faults s
       ≤ Z.of_nat (length [Write 1; Read 2; Read 3; Write 1]))%Z ∧
    (0 ≤ Clock.get_total_disk_writes s
       ≤ Z.of_nat (View.writes_in [Write 1; Read 2; Read 3; Write 1]))%Z ∧
    (Clock.get_total_disk_writes s + Z.of_nat (occupied (Clock.frame_page s))
       ≤ Clock.get_total_page_faults s)%Z.
Proof.
  apply (clock_counter_bounds 2 [Write 1; Read 2; Read 3; Write 1] 4);
    [lia|simpl; lia].
Defined.

(** X5 — LRU: after any trace, [page_faults] is at most the number of
    accesses, [disk_writes] is at most the number of write accesses (so a
    trace of reads writes nothing back), and [disk_writes] is at most the
    number of evictions, which is [page_faults] minus the occupied frames. *)
Theorem lru_counter_bounds (cap : Z) (trace : list access) :
  (1 ≤ cap)%Z →
  ∃ s, Lru.exec cap trace = Done s ∧
    (0 ≤ Lru.get_total_page_faults s ≤ Z.of_nat (length trace))%Z ∧
    (0 ≤ Lru.get_total_disk_writes s ≤ Z.of_nat (View.writes_in trace))%Z ∧
    (Lru.get_total_disk_writes s + Z.of_nat (occupied (Lru.frame_table s))
       ≤ Lru.get_total_page_faults s)%Z.
Proof.
  intros Hcap.
  destruct (LruViewFacts.lru_reach cap trace Hcap) as (s & Hs & HI & Hc & Hreach).
  exists s. split; [done|].
  destruct (ViewFacts.reach_counters _ _ _ Hreach) as (_ & H0 & Hf & Ho & Hd).
  simpl in *. rewrite ViewFacts.zip_frames_occupied in Ho
    by (by rewrite (Lru.inv_len_db _ HI), (Lru.inv_len_ft _ HI)).
  unfold Lru.get_total_page_faults, Lru.get_total_disk_writes. lia.
Qed.

Lemma lru_counter_bounds_witness :
  ∃ s, Lru.exec 2 [Write 1; Read 2; Read 3; Write 1] = Done s ∧
    (0 ≤ Lru.get_total_page_faults s
       ≤ Z.of_nat (length [Write 1; Read 2; Read 3; Write 1]))%Z ∧
    (0 ≤ Lru.get_total_disk_writes s
       ≤ Z.of_nat (View.writes_in [Write 1; Read 2; Read 3; Write 1]))%Z ∧
    (Lru.get_total_disk_writes s + Z.of_nat (occupied (Lru.frame_table s))
       ≤ Lru.get_total_page_faults s)%Z.
Proof. apply (lru_counter_bounds 2 [Write 1; Read 2; Read 3; Write 1]). lia. Defined.

(** X6 — Random: after any trace and for any random source,
    [page_faults] is at most the number of accesses, [disk_writes] is at
    most the number of write accesses (so a trace of reads writes nothing
    back), and [disk_writes] is at most the number of evictions, which is
    [page_faults] minus the occupied frames. *)
Theorem rand_counter_bounds (cap : Z) (trace : list access)
    (rng : nat → Z) (fuel : nat) :
  (1 ≤ cap)%Z → 1 ≤ fuel →
  ∃ s, Rand.exec rng fuel cap trace = Done s ∧
    (0 ≤ Rand.get_total_page_faults s ≤ Z.of_nat (length trace))%Z ∧
    (0 ≤ Rand.get_total_disk_writes s ≤ Z.of_nat (View.writes_in trace))%Z ∧
    (Rand.get_total_disk_writes s + Z.of_nat (occupied (Rand.frames s))
       ≤ Rand.get_total_page_faults s)%Z.
Proof.
  intros Hcap Hfuel.
  destruct (RandViewFacts.rand_reach rng fuel cap trace Hcap Hfuel)
    as (s & Hs & HI & Hc & Hreach).
  exists s. split; [done|].
  destruct (ViewFacts.reach_counters _ _ _ Hreach) as (_ & H0 & Hf & Ho & Hd).
  rewrite RandViewFacts.rand_view_occupied in Ho. simpl in *.
  unfold Rand.get_total_page_faults, Rand.get_total_disk_writes. lia.
Qed.

Lemma rand_counter_bounds_witness :
  ∃ s, Rand.exec Z.of_nat 1 2 [Write 1; Read 2; Read 3; Write 1] = Done s ∧
    (0 ≤ Rand.get_total_page_faults s
       ≤ Z.of_nat (length [Write 1; Read 2; Read 3; Write 1]))%Z ∧
    (0 ≤ Rand.get_total_disk_writes s
       ≤ Z.of_nat (View.writes_in [Write 1; Read 2; Read 3; Write 1]))%Z ∧
    (Rand.get_total_disk_writes s + Z.of_nat (occupied (Rand.frames s))
       ≤ Rand.get_total_page_faults s)%Z.
Proof.
  apply (rand_counter_bounds 2 [Write 1; Read 2; Read 3; Write 1] Z.of_nat 1); lia.
Defined.

(** X7 — Clock: when the trace touches no more distinct pages than there
    are frames, nothing is ever evicted: [page_faults] is the number of
    distinct pages, [disk_writes] is 0 and every page of the trace is
    resident at the end. *)
Theorem clock_no_eviction_when_pages_fit (cap : Z) (trace : list access)
    (fuel : nat) :
  (1 ≤ cap)%Z → 2 * Z.to_nat cap ≤ fuel →
  size (View.pages_of trace) ≤ Z.to_nat cap →
  ∃ s, Clock.exec fuel cap trace = Done s ∧
    Clock.get_total_page_faults s = Z.of_nat (size (View.pages_of trace)) ∧
    Clock.get_total_disk_writes s = 0%Z ∧
    ∀ a, a ∈ trace → is_Some (Clock.page_to_frame s !! access_page a).
Proof.
  intros Hcap Hfuel Hfit.
  destruct (ClockViewFacts.clock_reach fuel cap trace Hcap Hfuel)
    as (s & Hs & HI & Hc & Hreach).
  exists s. split; [done|].
  destruct (ViewFacts.reach_cold _ _ _ Hreach Hfit) as (Hres & _ & Hf & Hw).
  split; [done|]. split; [done|]. intros a Ha.
  destruct (Hres (access_page a)) as (i & d & Hi).
  { unfold View.pages_of. apply elem_of_list_to_set, list_elem_of_fmap. by exists a. }
  apply ViewFacts.zip_frames_lookup_inv in Hi as [Hi _].
  eexists. by apply ClockFacts.clock_inv_frame_map.
Qed.

Lemma clock_no_eviction_when_pages_fit_witness :
  ∃ s, Clock.exec 4 2 [Write 1; Read 2; Write 1; Read 2] = Done s ∧
    Clock.get_total_page_faults s
      = Z.of_nat (size (View.pages_of [Write 1; Read 2; Write 1; Read 2])) ∧
    Clock.get_total_disk_writes s = 0%Z ∧
    ∀ a, a ∈ [Write 1; Read 2; Write 1; Read 2] →
      is_Some (Clock.page_to_frame s !! access_page a).
Proof.
  apply (clock_no_eviction_when_pages_fit 2 [Write 1; Read 2; Write 1; Read 2] 4);
    [lia|simpl; lia|vm_compute; lia].
Defined.

(** X8 — LRU: when the trace touches no more distinct pages than there
    are frames, nothing is ever evicted: [page_faults] is the number of
    distinct pages, [disk_writes] is 0 and every page of the trace is
    resident at the end. *)
Theorem lru_no_eviction_when_pages_fit (cap : Z) (trace : list access) :
  (1 ≤ cap)%Z →
  size (View.pages_of trace) ≤ Z.to_nat cap →
  ∃ s, Lru.exec cap trace = Done s ∧
    Lru.get_total_page_faults s = Z.of_nat (size (View.pages_of trace)) ∧
    Lru.get_total_disk_writes s = 0%Z ∧
    ∀ a, a ∈ trace → is_Some (Lru.page_table s !! access_page a).
Proof.
  intros Hcap Hfit.
  destruct (LruViewFacts.lru_reach cap trace Hcap) as (s & Hs & HI & Hc & Hreach).
  exists s. split; [done|].
  destruct (ViewFacts.reach_cold _ _ _ Hreach Hfit) as (Hres & _ & Hf & Hw).
  split; [done|]. split; [done|]. intros a Ha.
  destruct (Hres (access_page a)) as (i & d & Hi).
  { unfold View.pages_of. apply elem_of_list_to_set, list_elem_of_fmap. by exists a. }
  apply ViewFacts.zip_frames_lookup_inv in Hi as [Hi _].
  eexists. by apply LruFacts.lru_inv_frame_map.
Qed.

Lemma lru_no_eviction_when_pages_fit_witness :
  ∃ s, Lru.exec 2 [Write 1; Read 2; Write 1; Read 2] = Done s ∧
    Lru.get_total_page_faults s
      = Z.of_nat (size (View.pages_of [Write 1; Read 2; Write 1; Read 2])) ∧
    Lru.get_total_disk_writes s = 0%Z ∧
    ∀ a, a ∈ [Write 1; Read 2; Write 1; Read 2] →
      is_Some (Lru.page_table s !! access_page a).
Proof.
  apply (lru_no_eviction_when_pages_fit 2 [Write 1; Read 2; Write 1; Read 2]);
    [lia|vm_compute; lia].
Defined.

(** X9 — Random: when the trace touches no more distinct pages than there
    are frames, nothing is ever evicted, whatever the random source:
    [page_faults] is the number of distinct pages, [disk_writes] is 0 and
    every page of the trace is resident at the end. *)
Theorem rand_no_eviction_when_pages_fit (cap : Z) (trace : list access)
    (rng : nat → Z) (fuel : nat) :
  (1 ≤ cap)%Z → 1 ≤ fuel →
  size (View.pages_of trace) ≤ Z.to_nat cap →
  ∃ s, Rand.exec rng fuel cap trace = Done s ∧
    Rand.get_total_page_faults s = Z.of_nat (size (View.pages_of trace)) ∧
    Rand.get_total_disk_writes s = 0%Z ∧
    ∀ a, a ∈ trace → is_Some (Rand.page_to_frame s !! access_page a).
Proof.
  intros Hcap Hfuel Hfit.
  destruct (RandViewFacts.rand_reach rng fuel cap trace Hcap Hfuel)
    as (s & Hs & HI & Hc & Hreach).
  exists s. split; [done|].
  destruct (ViewFacts.reach_cold _ _ _ Hreach Hfit) as (Hres & _ & Hf & Hw).
  split; [done|]. split; [done|]. intros a Ha.
  destruct (Hres (access_page a)) as (i & d & Hi).
  { unfold View.pages_of. apply elem_of_list_to_set, list_elem_of_fmap. by exists a. }
  apply RandViewFacts.rand_view_lookup_inv in Hi as (en & Hen & Hpg & _).
  eexists. rewrite <- Hpg. apply (cons_frame_map _ _ _ (Rand.inv_book _ HI) _ _ Hen).
Qed.

Lemma rand_no_eviction_when_pages_fit_witness :
  ∃ s, Rand.exec Z.of_nat 1 2 [Write 1; Read 2; Write 1; Read 2] = Done s ∧
    Rand.get_total_page_faults s
      = Z.of_nat (size (View.pages_of [Write 1; Read 2; Write 1; Read 2])) ∧
    Rand.get_total_disk_writes s = 0%Z ∧
    ∀ a, a ∈ [Write 1; Read 2; Write 1; Read 2] →
      is_Some (Rand.page_to_frame s !! access_page a).
Proof.
  apply (rand_no_eviction_when_pages_fit 2 [Write 1; Read 2; Write 1; Read 2]
           Z.of_nat 1); [lia|lia|vm_compute; lia].
Defined.

(** X10 — with a single frame the three policies coincide: on every trace
    the Clock, LRU and Random engines end with the same page (and dirty
    flag) in their frame and report the same page faults, disk reads and
    disk writes. *)
Theorem one_frame_engines_agree (trace : list access) (fuel : nat)
    (rng : nat → Z) (budget : nat) :
  2 ≤ fuel → 1 ≤ budget →
  ∃ sc sl sr,
    Clock.exec fuel 1 trace = Done sc ∧ Lru.exec 1 trace = Done sl ∧
    Rand.exec rng budget 1 trace = Done sr ∧
    ClockRef.view_of sc = LruRef.view_of sl ∧
    LruRef.view_of sl = RandRef.view_of sr ∧
    Clock.get_total_page_faults sc = Lru.get_total_page_faults sl ∧
    Lru.get_total_page_faults sl = Rand.get_total_page_faults sr ∧
    Clock.get_total_disk_reads sc = Lru.get_total_disk_reads sl ∧
    Lru.get_total_disk_reads sl = Rand.get_total_disk_reads sr ∧
    Clock.get_total_disk_writes sc = Lru.get_total_disk_writes sl ∧
    Lru.get_total_disk_writes sl = Rand.get_total_disk_writes sr.
Proof.
  intros Hfuel Hbudget.
  destruct (ClockViewFacts.clock_reach fuel 1 trace) as (sc & Hsc & _ & _ & Hrc);
    [lia|simpl; lia|].
  destruct (LruViewFacts.lru_reach 1 trace) as (sl & Hsl & _ & _ & Hrl); [lia|].
  destruct (RandViewFacts.rand_reach rng budget 1 trace) as (sr & Hsr & _ & _ & Hrr);
    [lia|lia|].
  exists sc, sl, sr.
  pose proof (ViewFacts.reach_one_frame _ _ _ Hrc Hrl) as Hcl.
  pose proof (ViewFacts.reach_one_frame _ _ _ Hrl Hrr) as Hlr.
  split; [done|]. split; [done|]. split; [done|]. split; [done|]. split; [done|].
  unfold ClockRef.view_of, LruRef.view_of, RandRef.view_of in Hcl, Hlr.
  injection Hcl as _ Hpf Hdr Hdw. injection Hlr as _ Hpf' Hdr' Hdw'.
  by split_and!.
Qed.

Lemma one_frame_engines_agree_witness :
  ∃ sc sl sr,
    Clock.exec 2 1 [Write 1; Read 2; Read 2; Write 3] = Done sc ∧
    Lru.exec 1 [Write 1; Read 2; Read 2; Write 3] = Done sl ∧
    Rand.exec Z.of_nat 1 1 [Write 1; Read 2; Read 2; Write 3] = Done sr ∧
    ClockRef.view_of sc = LruRef.view_of sl ∧
    LruRef.view_of sl = RandRef.view_of sr ∧
    Clock.get_total_page_faults sc = Lru.get_total_page_faults sl ∧
    Lru.get_total_page_faults sl = Rand.get_total_page_faults sr ∧
    Clock.get_total_disk_reads sc = Lru.get_total_disk_reads sl ∧
    Lru.get_total_disk_reads sl = Rand.get_total_disk_reads sr ∧
    Clock.get_total_disk_writes sc = Lru.get_total_disk_writes sl ∧
    Lru.get_total_disk_writes sl = Rand.get_total_disk_writes sr.
Proof.
  apply (one_frame_engines_agree [Write 1; Read 2; Read 2; Write 3] 2 Z.of_nat 1); lia.
Defined.

(** X11 — Clock: in every state reached by a trace, when a fault finds no
    free frame, the sweep of [_evict_clock] returns exactly what
    [ClockRef.sweep_result] computes without looping: the victim is the first
    frame, going round from the hand, whose reference bit is 0 (the frame
    under the hand when every bit is set), the bits of the frames before it
    are cleared, the victim's frame is emptied with its page removed from the
    mapping and counted as a disk write if it was dirty, and the hand ends one
    past the victim. *)
Theorem clock_sweep_follows_reference (cap : Z) (trace : list access) (fuel : nat) :
  (1 ≤ cap)%Z → 2 * Z.to_nat cap ≤ fuel →
  ∃ s, Clock.exec fuel cap trace = Done s ∧
    (Clock._find_free_frame (Clock.count_fault s) = Done None →
     ∀ budget, Z.to_nat cap < budget →
     ∃ r, ClockRef.sweep_result (Clock.count_fault s) = Some r ∧
       Clock.evict_sweep budget (Clock.count_fault s) = Done r).
Proof.
  intros Hcap Hfuel.
  destruct (ClockFacts.clock_exec_spec fuel cap trace Hcap Hfuel) as (s & Hs & HI & Hc).
  exists s. split; [done|]. intros Hnone budget Hbudget.
  pose proof (ClockFacts.clock_count_fault_inv _ HI) as HI1.
  destruct (ClockFacts.clock_find_free_frame_spec _ HI1) as [[_ Hfull]|(i & Hsome & _)];
    [|congruence].
  apply ClockSweepFacts.sweep_matches; [done..|]. simpl. by rewrite Hc.
Qed.

Lemma clock_sweep_follows_reference_witness :
  ∃ s, Clock.exec 6 3 [Read 1; Read 2; Read 3; Read 4; Read 2] = Done s ∧
    Clock._find_free_frame (Clock.count_fault s) = Done None ∧
    ∃ r, ClockRef.sweep_result (Clock.count_fault s) = Some r ∧
      Clock.evict_sweep 4 (Clock.count_fault s) = Done r.
Proof.
  destruct (clock_sweep_follows_reference 3 [Read 1; Read 2; Read 3; Read 4; Read 2] 6)
    as (s & Hs & Hsweep); [lia|simpl; lia|].
  exists s. split; [exact Hs|].
  assert (Clock._find_free_frame (Clock.count_fault s) = Done None) as Hfull.
  { vm_compute in Hs. injection Hs as <-. vm_compute. reflexivity. }
  split; [exact Hfull|]. apply (Hsweep Hfull). simpl. lia.
Defined.

(** X12 — Clock, second chance: in every state reached by a trace, when a
    fault finds no free frame, the sweep passes over [m] frames, at most all
    of them, starting under the hand, and evicts the next one.  Every frame
    passed over had its reference bit set and has it cleared afterwards; the
    other frames keep their bits; the victim's bit was 0 when the sweep began,
    unless all bits were set and the sweep came back to the frame it started
    from; and the hand is left one past the victim. *)
Theorem clock_second_chance (cap : Z) (trace : list access) (fuel : nat) :
  (1 ≤ cap)%Z → 2 * Z.to_nat cap ≤ fuel →
  ∃ s, Clock.exec fuel cap trace = Done s ∧
    (Clock._find_free_frame (Clock.count_fault s) = Done None →
     ∀ budget, Z.to_nat cap < budget →
     ∃ v s' m,
       Clock.evict_sweep budget (Clock.count_fault s) = Done (Z.of_nat v, s', S m) ∧
       m ≤ Z.to_nat cap ∧
       v = (Z.to_nat (Clock.hand s) + m) mod Z.to_nat cap ∧
       (∀ e, e < m →
          ∃ x, Clock.ref s !! ((Z.to_nat (Clock.hand s) + e) mod Z.to_nat cap)
                 = Some x ∧ x ≠ 0%Z) ∧
       (m < Z.to_nat cap → Clock.ref s !! v = Some 0%Z) ∧
       (∀ e, e < m →
          Clock.ref s' !! ((Z.to_nat (Clock.hand s) + e) mod Z.to_nat cap)
            = Some 0%Z) ∧
       (∀ j, (∀ e, e < m → j ≠ (Z.to_nat (Clock.hand s) + e) mod Z.to_nat cap) →
          Clock.ref s' !! j = Clock.ref s !! j) ∧
       Clock.hand s' = ((Z.of_nat v + 1) mod cap)%Z).
Proof.
  intros Hcap Hfuel.
  destruct (ClockFacts.clock_exec_spec fuel cap trace Hcap Hfuel) as (s & Hs & HI & Hc).
  exists s. split; [done|]. intros Hnone budget Hbudget.
  pose proof (ClockFacts.clock_count_fault_inv _ HI) as HI1.
  destruct (ClockFacts.clock_find_free_frame_spec _ HI1) as [[_ Hfull]|(i & Hsome & _)];
    [|congruence].
  destruct (ClockSweepFacts.sweep_matches (Clock.count_fault s) budget HI1 Hfull)
    as (r & Hr & Hsweep).
  { simpl. by rewrite Hc. }
  unfold ClockRef.sweep_result, ClockRef.victim_of in Hr. simpl in Hr.
  rewrite Hc in Hr.
  set (c := Z.to_nat cap) in *. set (h := Z.to_nat (Clock.hand s)) in *.
  set (m := ClockRef.set_run c c h (Clock.ref s)) in *.
  destruct (Clock.frame_page s !! ((h + m) mod c)) as [[p|]|]; try done.
  destruct (Clock.dirty s !! ((h + m) mod c)) as [d|]; try done.
  injection Hr as <-.
  assert (0 < c) as Hpos by (unfold c; lia).
  assert (length (Clock.ref s) = c) as Hlen.
  { unfold c. by rewrite (Clock.inv_len_ref _ HI), Hc. }
  destruct (ClockSweepFacts.set_run_spec c (Clock.ref s) c h Hpos Hlen) as [Hset Hstop].
  eexists _, _, m. split; [exact Hsweep|]. simpl. split_and!; try done.
  - apply ClockSweepFacts.set_run_le.
  - intros e He. apply ClockSweepFacts.clear_run_passed; [done|].
    rewrite Hlen. by apply Nat.mod_upper_bound; lia.
  - intros j Hj. by apply ClockSweepFacts.clear_run_other.
Qed.

Lemma clock_second_chance_witness :
  ∃ s, Clock.exec 6 3 [Read 1; Read 2; Read 3; Read 4; Read 2] = Done s ∧
    Clock._find_free_frame (Clock.count_fault s) = Done None ∧
    ∃ v s' m,
      Clock.evict_sweep 4 (Clock.count_fault s) = Done (Z.of_nat v, s', S m) ∧
      m ≤ Z.to_nat 3 ∧
      v = (Z.to_nat (Clock.hand s) + m) mod Z.to_nat 3 ∧
      (∀ e, e < m →
         ∃ x, Clock.ref s !! ((Z.to_nat (Clock.hand s) + e) mod Z.to_nat 3)
                = Some x ∧ x ≠ 0%Z) ∧
      (m < Z.to_nat 3 → Clock.ref s !! v = Some 0%Z) ∧
      (∀ e, e < m →
         Clock.ref s' !! ((Z.to_nat (Clock.hand s) + e) mod Z.to_nat 3)
           = Some 0%Z) ∧
      (∀ j, (∀ e, e < m → j ≠ (Z.to_nat (Clock.hand s) + e) mod Z.to_nat 3) →
         Clock.ref s' !! j = Clock.ref s !! j) ∧
      Clock.hand s' = ((Z.of_nat v + 1) mod 3)%Z.
Proof.
  destruct (clock_second_chance 3 [Read 1; Read 2; Read 3; Read 4; Read 2] 6)
    as (s & Hs & Hsweep); [lia|simpl; lia|].
  exists s. split; [exact Hs|].
  assert (Clock._find_free_frame (Clock.count_fault s) = Done None) as Hfull.
  { vm_compute in Hs. injection Hs as <-. vm_compute. reflexivity. }
  split; [exact Hfull|]. apply (Hsweep Hfull). simpl. lia.
Defined.

(** X13 — Clock: in every state reached by a trace, a fault on a page
    while some frame is free installs the page in the lowest-indexed free
    frame with its reference bit at 1 and its dirty flag equal to the kind of
    access, counts one fault and one disk read, and touches nothing else: no
    page is evicted, [disk_writes] and the hand stay as they were. *)
Theorem clock_fault_fills_lowest_free_frame (cap : Z) (trace : list access)
    (fuel : nat) :
  (1 ≤ cap)%Z → 2 * Z.to_nat cap ≤ fuel →
  ∃ s, Clock.exec fuel cap trace = Done s ∧
    ∀ page w i budget,
      Clock.page_to_frame s !! page = None →
      Clock.frame_page s !! i = Some None →
      (∀ j, j < i → holds (Clock.frame_page s) j) →
      Clock._access budget page w s =
        Done (Clock.mk (Clock.frames_capacity s) (Clock._page_faults s + 1)
                (Clock._disk_reads s + 1) (Clock._disk_writes s)
                (<[i:=Some page]> (Clock.frame_page s))
                (<[i:=w]> (Clock.dirty s)) (<[i:=1%Z]> (Clock.ref s))
                (<[page:=Z.of_nat i]> (Clock.page_to_frame s)) (Clock.hand s)).
Proof.
  intros Hcap Hfuel.
  destruct (ClockFacts.clock_exec_spec fuel cap trace Hcap Hfuel) as (s & Hs & HI & Hc).
  exists s. split; [done|]. intros page w i budget Hfresh Hfree Hlow.
  by apply ClockSweepFacts.access_fill.
Qed.

Lemma clock_fault_fills_lowest_free_frame_witness :
  ∃ s, Clock.exec 6 3 [Read 1] = Done s ∧
    Clock._access 0 2 true s =
      Done (Clock.mk (Clock.frames_capacity s) (Clock._page_faults s + 1)
              (Clock._disk_reads s + 1) (Clock._disk_writes s)
              (<[1:=Some 2%Z]> (Clock.frame_page s))
              (<[1:=true]> (Clock.dirty s)) (<[1:=1%Z]> (Clock.ref s))
              (<[2%Z:=Z.of_nat 1]> (Clock.page_to_frame s)) (Clock.hand s)).
Proof.
  destruct (clock_fault_fills_lowest_free_frame 3 [Read 1] 6)
    as (s & Hs & Hfill); [lia|simpl; lia|].
  exists s. split; [exact Hs|].
  vm_compute in Hs. injection Hs as <-.
  apply (Hfill 2%Z true 1 0); [reflexivity|reflexivity|].
  intros j Hj. assert (j = 0) as -> by lia. eexists. reflexivity.
Defined.

(** X14 — Clock: in every state reached by a trace, after one more access
    its page is resident: the mapping sends it to a frame that holds it, with
    reference bit 1; the frame is dirty after a write, its dirty flag is the
    kind of access after a fault, and a read hit leaves the flag as it was. *)
Theorem clock_accessed_page_is_resident (cap : Z) (trace : list access)
    (a : access) (fuel : nat) :
  (1 ≤ cap)%Z → 2 * Z.to_nat cap ≤ fuel →
  ∃ s s', Clock.exec fuel cap trace = Done s ∧ Clock.step fuel a s = Done s' ∧
    ∃ i, Clock.page_to_frame s' !! access_page a = Some (Z.of_nat i) ∧
      Clock.frame_page s' !! i = Some (Some (access_page a)) ∧
      Clock.ref s' !! i = Some 1%Z ∧
      (access_is_write a = true → Clock.dirty s' !! i = Some true) ∧
      (Clock.page_to_frame s !! access_page a = None →
       Clock.dirty s' !! i = Some (access_is_write a)) ∧
      (access_is_write a = false →
       Clock.page_to_frame s !! access_page a = Some (Z.of_nat i) →
       Clock.dirty s' !! i = Clock.dirty s !! i).
Proof.
  intros Hcap Hfuel.
  destruct (ClockFacts.clock_exec_spec fuel cap trace Hcap Hfuel) as (s & Hs & HI & Hc).
  destruct (ClockSweepFacts.clock_access_effect fuel s (access_page a) (access_is_write a) HI)
    as (s' & Hstep & HI' & Heff); [by rewrite Hc|].
  exists s, s'. split; [done|]. split; [by destruct a|].
  by apply ClockSweepFacts.effect_resident.
Qed.

Lemma clock_accessed_page_is_resident_witness :
  ∃ s s', Clock.exec 4 2 [Read 1; Write 2] = Done s ∧
    Clock.step 4 (Read 3) s = Done s' ∧
    ∃ i, Clock.page_to_frame s' !! access_page (Read 3) = Some (Z.of_nat i) ∧
      Clock.frame_page s' !! i = Some (Some (access_page (Read 3))) ∧
      Clock.ref s' !! i = Some 1%Z ∧
      (access_is_write (Read 3) = true → Clock.dirty s' !! i = Some true) ∧
      (Clock.page_to_frame s !! access_page (Read 3) = None →
       Clock.dirty s' !! i = Some (access_is_write (Read 3))) ∧
      (access_is_write (Read 3) = false →
       Clock.page_to_frame s !! access_page (Read 3) = Some (Z.of_nat i) →
       Clock.dirty s' !! i = Clock.dirty s !! i).
Proof.
  apply (clock_accessed_page_is_resident 2 [Read 1; Write 2] (Read 3) 4);
    [lia|simpl; lia].
Defined.

(** X15 — LRU: after any trace, [current_time] is the number of accesses
    plus the number of page faults: every access advances the clock by one,
    and a fault advances it once more. *)
Theorem lru_clock_counts_accesses_and_faults (cap : Z) (trace : list access) :
  (1 ≤ cap)%Z →
  ∃ s, Lru.exec cap trace = Done s ∧
    Lru.current_time s
      = (Z.of_nat (length trace) + Lru.get_total_page_faults s)%Z.
Proof.
  intros Hcap.
  destruct (LruViewFacts.lru_exec_ind cap
    (λ tr s, Lru.current_time s = (Z.of_nat (length tr) + Lru.page_faults s)%Z)
    Hcap) with (tr := trace) as (s & Hs & _ & _ & HQ).
  - by intros s [= <-].
  - intros tr a s s' HI _ HQ Heff. rewrite length_app. simpl.
    destruct Heff as [i Hmap Hi Hhit|i rest Hfresh Hfree Hi ->
                     |j p d Hfresh Hfree Hlr Hp Hd ->]; simpl; [|lia..].
    rewrite (Lru.hit_clock _ _ _ _ Hhit), (Lru.hit_faults _ _ _ _ Hhit). lia.
  - by exists s.
Qed.

Lemma lru_clock_counts_accesses_and_faults_witness :
  ∃ s, Lru.exec 2 [Read 1; Read 2; Read 1; Read 3] = Done s ∧
    Lru.current_time s
      = (Z.of_nat (length [Read 1; Read 2; Read 1; Read 3])
         + Lru.get_total_page_faults s)%Z.
Proof.
  apply (lru_clock_counts_accesses_and_faults 2 [Read 1; Read 2; Read 1; Read 3]).
  lia.
Defined.

(** X16 — LRU: in every state reached by a trace, the stamps of the
    occupied frames lie between 1 and [current_time] and no two occupied
    frames carry the same stamp, so the least recently used frame is
    unique. *)
Theorem lru_stamps_are_distinct (cap : Z) (trace : list access) :
  (1 ≤ cap)%Z →
  ∃ s, Lru.exec cap trace = Done s ∧
    (∀ i p t, Lru.frame_table s !! i = Some (Some p) →
       Lru.access_time s !! i = Some t → (1 ≤ t ≤ Lru.current_time s)%Z) ∧
    (∀ i j p q t, Lru.frame_table s !! i = Some (Some p) →
       Lru.frame_table s !! j = Some (Some q) →
       Lru.access_time s !! i = Some t → Lru.access_time s !! j = Some t →
       i = j).
Proof.
  intros Hcap.
  destruct (LruViewFacts.lru_reach_stamped cap trace Hcap)
    as (s & Hs & _ & _ & [Hclock Hbounds Hdist] & _).
  by exists s.
Qed.

Lemma lru_stamps_are_distinct_witness :
  ∃ s, Lru.exec 2 [Read 1; Read 2; Read 1; Read 3] = Done s ∧
    (∀ i p t, Lru.frame_table s !! i = Some (Some p) →
       Lru.access_time s !! i = Some t → (1 ≤ t ≤ Lru.current_time s)%Z) ∧
    (∀ i j p q t, Lru.frame_table s !! i = Some (Some p) →
       Lru.frame_table s !! j = Some (Some q) →
       Lru.access_time s !! i = Some t → Lru.access_time s !! j = Some t →
       i = j).
Proof. apply (lru_stamps_are_distinct 2 [Read 1; Read 2; Read 1; Read 3]). lia. Defined.

(** X17 — LRU with two frames or more: the page of an access is still
    resident after the next access, whatever that one is; the fault that
    follows an access never evicts the page just used. *)
Theorem lru_keeps_most_recent_page (cap : Z) (trace : list access) (a b : access) :
  (2 ≤ cap)%Z →
  ∃ s, Lru.exec cap (trace ++ [a; b]) = Done s ∧
    is_Some (Lru.page_table s !! access_page a).
Proof.
  intros Hcap.
  destruct (LruViewFacts.lru_reach_stamped cap (trace ++ [a]))
    as (s & Hs & HI & Hc & Hst & Hrec); [lia|].
  destruct (LruStepFacts.lru_access_effect s (access_page b) (access_is_write b) HI)
    as (s' & Hstep & HI' & Heff).
  exists s'. split.
  - replace (trace ++ [a; b]) with ((trace ++ [a]) ++ [b])
      by (by rewrite <- app_assoc).
    unfold Lru.exec in *. simpl in *.
    rewrite LruViewFacts.lru_run_snoc, Hs. simpl.
    by rewrite LruFacts.lru_step_access.
  - apply (LruStepFacts.effect_keeps_recent s (access_page b) (access_is_write b)
             s' (access_page a)); [done| |done| |done].
    + by rewrite Hc.
    + by apply (Hrec trace).
Qed.

Lemma lru_keeps_most_recent_page_witness :
  ∃ s, Lru.exec 2 ([Read 1; Read 2] ++ [Read 3; Write 4]) = Done s ∧
    is_Some (Lru.page_table s !! access_page (Read 3)).
Proof.
  apply (lru_keeps_most_recent_page 2 [Read 1; Read 2] (Read 3) (Write 4)). lia.
Defined.

(** X18 — LRU: on an engine none of whose frames is occupied,
    [_find_lru_victim] returns frame 0, the candidate it starts with, and
    never reads a stamp. *)
Theorem lru_victim_defaults_to_frame_zero (s : Lru.state) :
  Z.to_nat (Lru.frames s) ≤ length (Lru.frame_table s) →
  (∀ i p, Lru.frame_table s !! i ≠ Some (Some p)) →
  Lru._find_lru_victim s = Done 0%Z.
Proof.
  intros Hlen Hfree. unfold Lru._find_lru_victim, py_range.
  apply LruStepFacts.scan_of_free_frames; [lia|done].
Qed.

Lemma lru_victim_defaults_to_frame_zero_witness :
  Lru._find_lru_victim (Lru.mk 2 ∅ [None; None] [false; false] [] [0; 1] 0 0 0 0)%Z
  = Done 0%Z.
Proof.
  apply lru_victim_defaults_to_frame_zero.
  - simpl. lia.
  - intros [|[|i]] p; simpl; discriminate.
Defined.

(** X19 — Random with a single frame is deterministic: the whole run,
    state and counters, is the same for every random source and every loop
    budget, and no random number is ever drawn. *)
Theorem rand_one_frame_ignores_random_source (trace : list access)
    (rng rng' : nat → Z) (fuel fuel' : nat) :
  1 ≤ fuel → 1 ≤ fuel' →
  ∃ s, Rand.exec rng fuel 1 trace = Done s ∧
    Rand.exec rng' fuel' 1 trace = Done s ∧ Rand.rng_pos s = 0.
Proof.
  intros Hfuel Hfuel'.
  destruct (RandViewFacts.rand_exec_ind rng fuel 1
    (λ tr s, Rand.exec rng' fuel' 1 tr = Done s ∧ Rand.rng_pos s = 0))
    with (tr := trace) as (s & Hs & _ & _ & HQ); [lia|done| | |by exists s].
  - by intros s [= <-].
  - intros tr a s s' HI Hc [Hrun Hpos] Heff.
    destruct (RandStepFacts.rand_access_effect rng' fuel' s (access_page a)
                (access_is_write a) HI Hfuel') as (s2 & Hstep & _ & Heff').
    destruct (RandStepFacts.effect_one_frame rng rng' s (access_page a)
                (access_is_write a) s' s2) as [<- Hp]; [lia|done..|].
    split; [|lia]. unfold Rand.exec in *. simpl in *.
    rewrite RandViewFacts.rand_run_snoc, Hrun. simpl. by destruct a.
Qed.

Lemma rand_one_frame_ignores_random_source_witness :
  ∃ s, Rand.exec Z.of_nat 1 1 [Write 1; Read 2; Read 2; Write 3] = Done s ∧
    Rand.exec (λ n, 7 * Z.of_nat n + 3)%Z 5 1 [Write 1; Read 2; Read 2; Write 3]
      = Done s ∧
    Rand.rng_pos s = 0.
Proof.
  apply (rand_one_frame_ignores_random_source [Write 1; Read 2; Read 2; Write 3]
           Z.of_nat (λ n, 7 * Z.of_nat n + 3)%Z 1 5); lia.
Defined.

(** X20 — Random with two frames or more: in every state reached by a
    trace, a fault that finds the free list empty evicts the frame given by
    the first random draw (the redraw loop ends at its first test), counts a
    disk write exactly when that frame's entry is dirty, replaces the entry
    and the mapping, and advances the random stream by one. *)
Theorem rand_eviction_takes_first_draw (cap : Z) (trace : list access)
    (rng : nat → Z) (fuel : nat) :
  (2 ≤ cap)%Z → 1 ≤ fuel →
  ∃ s, Rand.exec rng fuel cap trace = Done s ∧
    ∀ pg w budget,
      1 ≤ budget → Rand.page_to_frame s !! pg = None → Rand._free s = [] →
      ∃ en,
        Rand.frames s !! Z.to_nat (rng (Rand.rng_pos s) mod cap) = Some (Some en) ∧
        Rand._access rng budget pg w s =
          Done (Rand.mk cap
                  (<[Z.to_nat (rng (Rand.rng_pos s) mod cap)
                       := Some (Rand.Entry pg w)]> (Rand.frames s))
                  (<[pg := (rng (Rand.rng_pos s) mod cap)%Z]>
                     (delete (Rand.page en) (Rand.page_to_frame s)))
                  (Rand._disk_reads s + 1)
                  (if Rand.is_dirty en then (Rand._disk_writes s + 1)%Z
                   else Rand._disk_writes s)
                  (Rand._page_faults s + 1) [] (S (Rand.rng_pos s))).
Proof.
  intros Hcap Hfuel.
  destruct (RandFacts.rand_exec_spec rng fuel cap trace) as (s & Hs & HI & Hc);
    [lia|done|].
  exists s. split; [done|]. intros pg w budget Hbudget Hfresh Hfree.
  destruct (RandStepFacts.rand_access_effect rng budget s pg w HI Hbudget)
    as (s' & Hstep & _ & Heff).
  pose proof (Z.mod_pos_bound (rng (Rand.rng_pos s)) cap) as Hmod.
  destruct Heff as [i en Hmap Hi Hpg Hhit|i rest Hfresh' Hfree' Hi ->
                   |en Hfresh' Hfree' Hv ->]; try congruence.
  unfold RandRef.victim_of in *. rewrite Hc in *.
  rewrite decide_False in * by lia. simpl in *.
  exists en. split; [done|]. rewrite Hstep. by rewrite Z2Nat.id by lia.
Qed.

Lemma rand_eviction_takes_first_draw_witness :
  ∃ s, Rand.exec (λ n, 5 + Z.of_nat n)%Z 1 2 [Write 1; Read 2] = Done s ∧
    ∃ en,
      Rand.frames s !! Z.to_nat ((5 + Z.of_nat (Rand.rng_pos s)) mod 2) = Some (Some en) ∧
      Rand._access (λ n, 5 + Z.of_nat n)%Z 1 3 false s =
        Done (Rand.mk 2
                (<[Z.to_nat ((5 + Z.of_nat (Rand.rng_pos s)) mod 2)
                     := Some (Rand.Entry 3 false)]> (Rand.frames s))
                (<[3%Z := ((5 + Z.of_nat (Rand.rng_pos s)) mod 2)%Z]>
                   (delete (Rand.page en) (Rand.page_to_frame s)))
                (Rand._disk_reads s + 1)
                (if Rand.is_dirty en then (Rand._disk_writes s + 1)%Z
                 else Rand._disk_writes s)
                (Rand._page_faults s + 1) [] (S (Rand.rng_pos s))).
Proof.
  destruct (rand_eviction_takes_first_draw 2 [Write 1; Read 2]
              (λ n, 5 + Z.of_nat n)%Z 1) as (s & Hs & Hevict); [lia|lia|].
  exists s. split; [exact Hs|].
  vm_compute in Hs. injection Hs as <-.
  apply (Hevict 3%Z false 1); [lia|reflexivity|reflexivity].
Defined.

(** X21 — Random with two frames or more: after any trace, the number of
    random numbers drawn is the number of evictions, [page_faults] minus the
    occupied frames: one draw per eviction, none for a hit or for a fault
    that finds a free frame. *)
Theorem rand_one_draw_per_eviction (cap : Z) (trace : list access)
    (rng : nat → Z) (fuel : nat) :
  (2 ≤ cap)%Z → 1 ≤ fuel →
  ∃ s, Rand.exec rng fuel cap trace = Done s ∧
    Z.of_nat (Rand.rng_pos s)
      = (Rand.get_total_page_faults s - Z.of_nat (occupied (Rand.frames s)))%Z.
Proof.
  intros Hcap Hfuel.
  destruct (RandViewFacts.rand_exec_ind rng fuel cap
    (λ tr s, Z.of_nat (Rand.rng_pos s)
             = (Rand._page_faults s - Z.of_nat (occupied (Rand.frames s)))%Z))
    with (tr := trace) as (s & Hs & _ & _ & HQ); [lia|done| | |by exists s].
  - intros s [= <-]. simpl. unfold py_repeat. by rewrite occupied_replicate_None.
  - intros tr a s s' HI Hc HQ Heff.
    destruct Heff as [i en Hmap Hi Hpg Hhit|i rest Hfresh Hfree Hi ->
                     |en Hfresh Hfree Hv ->]; simpl.
    + destruct Hhit as [Hc' Hpf Hdr Hdw Hmp Hfr Hrng (e & He & Hfs)].
      rewrite Hrng, Hpf, Hfs, (occupied_insert_same _ _ _ _ He). done.
    + rewrite (occupied_insert_free _ _ _ Hi). lia.
    + rewrite (occupied_insert_same _ _ _ _ Hv).
      unfold RandRef.victim_of. rewrite decide_False by lia. simpl. lia.
Qed.

Lemma rand_one_draw_per_eviction_witness :
  ∃ s, Rand.exec (λ n, 5 + Z.of_nat n)%Z 1 2 [Write 1; Read 2; Read 3; Read 1]
         = Done s ∧
    Z.of_nat (Rand.rng_pos s)
      = (Rand.get_total_page_faults s - Z.of_nat (occupied (Rand.frames s)))%Z.
Proof.
  apply (rand_one_draw_per_eviction 2 [Write 1; Read 2; Read 3; Read 1]
           (λ n, 5 + Z.of_nat n)%Z 1); lia.
Defined.

Example clock_scenario :
  (s ← Clock.exec 4 2 [Read 1; Read 2; Read 3];
   Done (Clock._page_faults s, Clock._disk_reads s, Clock._disk_writes s,
         Clock.frame_page s))%Z
  = Done (3, 3, 0, [Some 3; Some 2])%Z.
Proof. vm_compute. reflexivity. Qed.

Example lru_scenario :
  (s ← Lru.exec 2 [Read 1; Read 2; Read 1; Read 3];
   Done (Lru.page_faults s, Lru.frame_table s, Lru.current_time s))%Z
  = Done (3, [Some 1; Some 3], 7)%Z.
Proof. vm_compute. reflexivity. Qed.

Example rand_scenario (rng : nat → Z) :
  (s ← Rand.exec rng 1 1 [Write 1; Read 2];
   Done (Rand._page_faults s, Rand._disk_writes s))%Z
  = Done (2, 1)%Z.
Proof. vm_compute. reflexivity. Qed.
